(** * Specular reflections across straight-line walls

    A shallow embedding of the boundary-reflection engine of the simulation:
    [vec2.hpp] (the vector primitive), [reflecting_world.hpp] and
    [reflecting_world.cpp] (wall segments, the scene builders and
    [advance_with_reflections]).

    The C++ code computes on [double].  The embedding is written once, over
    an interface [Scalar] that lists exactly the operations the code applies
    to a [double], and is read in two ways:

    - [binary64]: IEEE-754 binary64 with round-to-nearest-even, through the
      kernel's primitive floats.  This is what the compiled program computes
      (no contraction to fused multiply-add, no extended precision); every
      evaluation of the code on a concrete input below is done here.
    - [reals]: the real numbers, the arithmetic the algebraic laws of the
      vector primitive are stated in.

    Integers ([int] identifiers and indices) are [Z], and the sums the code
    computes on identifiers are [int_add]; the scene's
    [std::vector<WallSegment>] is a [list].

    The second part embeds the step models ([step_generators.cpp]) and the
    driver ([simulation.hpp], [simulation.cpp]).  A member function of
    [Simulation] takes the object and returns an [Effect]: the object after
    the call, a failed assertion, a C++ exception, or undefined behaviour.
    The per-particle [std::vector]s are [list]s indexed by [nat], with
    out-of-range access made explicit; [std::size_t] counts are natural
    numbers; the generator of [rng.hpp] is a parameter (a state type and
    [gauss]), and so is the specified-step callback. *)

From Stdlib Require Import ZArith List Bool String.
From Stdlib Require Import Floats.
From Stdlib Require Import Reals Lra Lia.
Import ListNotations.

Set Warnings "-inexact-float".

(* ================================================================= *)
(** ** The scalar interface *)

(** The operations and literals of [double] that the sources use. *)
Class Scalar (A : Type) : Type := {
  s_zero : A;                      (* 0.0 *)
  s_one : A;                       (* 1.0 *)
  s_two : A;                       (* 2.0 *)
  s_half : A;                      (* 0.5 *)
  s_1em12 : A;                     (* 1e-12 *)
  s_1em15 : A;                     (* 1e-15 *)
  s_add : A -> A -> A;
  s_sub : A -> A -> A;
  s_mul : A -> A -> A;
  s_div : A -> A -> A;
  s_opp : A -> A;
  s_sqrt : A -> A;                 (* std::sqrt *)
  s_abs : A -> A;                  (* std::abs *)
  s_leb : A -> A -> bool;          (* <= *)
  s_ltb : A -> A -> bool;          (* <  *)
  s_eqb : A -> A -> bool           (* == *)
}.

(** What [advance_with_reflections] needs on top: [infinity()] and
    [std::isfinite]. *)
Class ExtendedScalar (A : Type) `{Scalar A} : Type := {
  s_infinity : A;
  s_isfinite : A -> bool
}.

Declare Scope scalar_scope.
Delimit Scope scalar_scope with sc.
Infix "+" := s_add : scalar_scope.
Infix "-" := s_sub : scalar_scope.
Infix "*" := s_mul : scalar_scope.
Infix "/" := s_div : scalar_scope.
Notation "- x" := (s_opp x) : scalar_scope.
Infix "<=?" := s_leb : scalar_scope.
Infix "<?" := s_ltb : scalar_scope.
Infix "=?" := s_eqb : scalar_scope.
(** [a > b] of the source is [b < a]. *)
Notation "x >? y" := (s_ltb y x) (at level 70, no associativity) : scalar_scope.

(** *** IEEE-754 binary64 *)

#[export] Instance binary64 : Scalar float := {
  s_zero := 0%float;
  s_one := 1%float;
  s_two := 2%float;
  s_half := 0.5%float;
  s_1em12 := 1e-12%float;
  s_1em15 := 1e-15%float;
  s_add := PrimFloat.add;
  s_sub := PrimFloat.sub;
  s_mul := PrimFloat.mul;
  s_div := PrimFloat.div;
  s_opp := PrimFloat.opp;
  s_sqrt := PrimFloat.sqrt;
  s_abs := PrimFloat.abs;
  s_leb := PrimFloat.leb;
  s_ltb := PrimFloat.ltb;
  s_eqb := PrimFloat.eqb
}.

#[export] Instance binary64_ext : ExtendedScalar float := {
  s_infinity := PrimFloat.infinity;
  s_isfinite := PrimFloat.is_finite
}.

(** *** Exact real arithmetic *)

Definition Rleb (a b : R) : bool := if Rle_dec a b then true else false.
Definition Rltb (a b : R) : bool := if Rlt_dec a b then true else false.
Definition Reqb (a b : R) : bool := if Req_dec_T a b then true else false.

#[export] Instance reals : Scalar R := {
  s_zero := 0%R;
  s_one := 1%R;
  s_two := 2%R;
  s_half := (1 / 2)%R;
  s_1em12 := (1 / 1000000000000)%R;
  s_1em15 := (1 / 1000000000000000)%R;
  s_add := Rplus;
  s_sub := Rminus;
  s_mul := Rmult;
  s_div := Rdiv;
  s_opp := Ropp;
  s_sqrt := R_sqrt.sqrt;
  s_abs := Rabs;
  s_leb := Rleb;
  s_ltb := Rltb;
  s_eqb := Reqb
}.

(* ================================================================= *)
(** ** vec2.hpp *)

Section Vec2.
Context {A : Type} `{Scalar A}.
Local Open Scope scalar_scope.

(** [struct Vec2 { double x; double y; }] *)
Record Vec2 : Type := mkVec2 { vx : A; vy : A }.

(** [operator+] and [operator+=] *)
Definition vadd (l r : Vec2) : Vec2 := mkVec2 (vx l + vx r) (vy l + vy r).
(** [operator-] *)
Definition vsub (l r : Vec2) : Vec2 := mkVec2 (vx l - vx r) (vy l - vy r).
(** [operator*(double s, const Vec2& v)]: [{v.x * s, v.y * s}] *)
Definition vscale (s : A) (v : Vec2) : Vec2 := mkVec2 (vx v * s) (vy v * s).
(** [Vec2::dot] *)
Definition dot (l r : Vec2) : A := vx l * vx r + vy l * vy r.
(** [Vec2::norm], and the file-local [norm] of reflecting_world.cpp, which
    has the same body. *)
Definition norm (v : Vec2) : A := s_sqrt (vx v * vx v + vy v * vy v).

(** [Vec2::normalized(eps)] *)
Definition normalized (v : Vec2) (eps : A) : Vec2 :=
  let n := norm v in
  if n <=? eps then mkVec2 s_zero s_zero
  else mkVec2 (vx v / n) (vy v / n).

(** [reflect_across_unit_normal]: [k = v.dot(n_hat); v - (2.0 * k) * n_hat] *)
Definition reflect_across_unit_normal (v n_hat : Vec2) : Vec2 :=
  let k := dot v n_hat in
  vsub v (vscale (s_two * k) n_hat).

End Vec2.

Arguments Vec2 A : clear implicits.
Arguments mkVec2 {A} vx vy.

(* ================================================================= *)
(** ** reflecting_world.hpp: tolerances, wall segments, the scene *)

(** [assert] either lets the program go on or aborts it at the call site. *)
Inductive Outcome (T : Type) : Type :=
| Returns (t : T)
| AssertionFailed (msg : string).

Arguments Returns {T} t.
Arguments AssertionFailed {T} msg.

Definition bind {T U : Type} (o : Outcome T) (k : T -> Outcome U) : Outcome U :=
  match o with
  | Returns t => k t
  | AssertionFailed msg => AssertionFailed msg
  end.

Notation "x <- o ;; k" := (bind o (fun x => k))
  (at level 61, o at next level, right associativity).
Notation "o ;;; k" := (bind o (fun _ => k))
  (at level 61, right associativity).

(** The [assert] macro of <cassert>: compiled out when [NDEBUG] is defined. *)
Definition assert (NDEBUG : bool) (cond : bool) (msg : string) : Outcome unit :=
  if NDEBUG then Returns tt
  else if cond then Returns tt else AssertionFailed msg.

(** [constexpr int MAX_REFLECTIONS = 64] *)
Definition MAX_REFLECTIONS : nat := 64.

(** [int] has 32 bits. *)
Definition INT_MIN : Z := (- 2 ^ 31)%Z.
Definition INT_MAX : Z := (2 ^ 31 - 1)%Z.

(** [a + b] on [int]: the sum when it is representable.  Beyond that the
    addition overflows, which C++ leaves undefined; the value here is the
    two's-complement one the compiled program yields.  What is proved about
    sums of ids below is proved for sums that are representable. *)
Definition int_add (a b : Z) : Z :=
  ((a + b - INT_MIN) mod 2 ^ 32 + INT_MIN)%Z.

Section World.
Context {A : Type} `{Scalar A}.
Local Open Scope scalar_scope.

(** [constexpr double EPS_POS = 1e-12] *)
Definition EPS_POS : A := s_1em12.
(** [constexpr double EPS_DIR = 1e-12] *)
Definition EPS_DIR : A := s_1em12.

(** [struct WallSegment { Vec2 p0; Vec2 p1; Vec2 n_hat; int id; }] *)
Record WallSegment : Type := mkWallSegment {
  p0 : Vec2 A;
  p1 : Vec2 A;
  n_hat : Vec2 A;
  id : Z
}.

(** The public constructor
    [WallSegment(a, b, n_unit, id_) : p0(a), p1(b), n_hat(n_unit), id(id_) {}] *)
Definition WallSegment_ctor (a b n_unit : Vec2 A) (id_ : Z) : WallSegment :=
  {| p0 := a; p1 := b; n_hat := n_unit; id := id_ |}.

(** [struct ReflectingWorld { std::vector<WallSegment> walls; }] *)
Record ReflectingWorld : Type := mkWorld { walls : list WallSegment }.

Definition empty_world : ReflectingWorld := mkWorld [].

(** [walls.push_back(w)] *)
Definition push_back (world : ReflectingWorld) (w : WallSegment) : ReflectingWorld :=
  mkWorld (walls world ++ [w]).

(* ----------------------------------------------------------------- *)
(** *** reflecting_world.cpp: local helpers *)

Definition cross2 (a b : Vec2 A) : A := vx a * vy b - vy a * vx b.

(** [normalize]: [{0,0}] if [norm(v) <= EPS_DIR], else [{v.x / n, v.y / n}] *)
Definition normalize (v : Vec2 A) : Vec2 A :=
  let n := norm v in
  if n <=? EPS_DIR then mkVec2 s_zero s_zero
  else mkVec2 (vx v / n) (vy v / n).

(** [v.x == 0.0 && v.y == 0.0] *)
Definition is_zero_vec (v : Vec2 A) : bool :=
  (vx v =? s_zero) && (vy v =? s_zero).

(* ----------------------------------------------------------------- *)
(** *** The builders

    [NDEBUG] is the build flag: [false] for a debug build, in which the
    assertions are checked, [true] for a release build. *)

Variable NDEBUG : bool.

Definition fromSegmentAutoNormal (a b : Vec2 A) (inward : bool) (id_ : Z)
  : Outcome WallSegment :=
  let t := mkVec2 (vx b - vx a) (vy b - vy a) in
  let t_hat := normalize t in
  assert NDEBUG (negb (is_zero_vec t_hat))
    "fromSegmentAutoNormal: degenerate segment (a ~== b)" ;;;
  let n := mkVec2 (- vy t_hat) (vx t_hat) in
  let n := if inward then mkVec2 (- vx n) (- vy n) else n in
  (let nlen := s_sqrt (vx n * vx n + vy n * vy n) in
   assert NDEBUG (s_abs (nlen - s_one) <=? s_1em12)
     "Auto Normal should be unit length") ;;;
  Returns (WallSegment_ctor a b n id_).

(** [std::abs(ab.x) <= EPS_DIR && std::abs(ab.y) <= EPS_DIR] *)
Definition nearly_zero (ab : Vec2 A) : bool :=
  (s_abs (vx ab) <=? EPS_DIR) && (s_abs (vy ab) <=? EPS_DIR).

Definition add_segment (world : ReflectingWorld) (a b n_unit : Vec2 A) (id_ : Z)
  : Outcome ReflectingWorld :=
  (let ab := mkVec2 (vx b - vx a) (vy b - vy a) in
   assert NDEBUG (negb (nearly_zero ab))
     "add_segment: degenerate segment (a~==b)") ;;;
  let n_hat := normalize n_unit in
  assert NDEBUG (negb (is_zero_vec n_hat))
    "add_segment: provided normal is near zero" ;;;
  Returns (push_back world (WallSegment_ctor a b n_hat id_)).

Definition add_segment_auto (world : ReflectingWorld) (a b : Vec2 A)
  (inward : bool) (id_ : Z) : Outcome ReflectingWorld :=
  w <- fromSegmentAutoNormal a b inward id_ ;;
  Returns (push_back world w).

Definition add_inward_box (world : ReflectingWorld) (xmin xmax ymin ymax : A)
  (base_id : Z) : Outcome ReflectingWorld :=
  assert NDEBUG ((xmin <? xmax) && (ymin <? ymax))
    "add_inward_box: invalid bounds." ;;;
  (* Bottom *)
  world <- add_segment world (mkVec2 xmin ymin) (mkVec2 xmax ymin)
             (mkVec2 s_zero s_one) (int_add base_id 0) ;;
  (* Right *)
  world <- add_segment world (mkVec2 xmax ymin) (mkVec2 xmax ymax)
             (mkVec2 (- s_one) s_zero) (int_add base_id 1) ;;
  (* Top *)
  world <- add_segment world (mkVec2 xmax ymax) (mkVec2 xmin ymax)
             (mkVec2 s_zero (- s_one)) (int_add base_id 2) ;;
  (* Left *)
  add_segment world (mkVec2 xmin ymax) (mkVec2 xmin ymin)
    (mkVec2 s_one s_zero) (int_add base_id 3).

Definition add_half_plane_strip (world : ReflectingWorld) (n_unit : Vec2 A)
  (c span : A) (id_ : Z) : Outcome ReflectingWorld :=
  let n := normalize n_unit in
  assert NDEBUG (negb (is_zero_vec n))
    "add_half_plane_strip: provided normal is near-zero" ;;;
  let x0 := mkVec2 (vx n * c) (vy n * c) in
  let t_hat := mkVec2 (- vy n) (vx n) in
  let a := mkVec2 (vx x0 - s_half * span * vx t_hat)
                  (vy x0 - s_half * span * vy t_hat) in
  let b := mkVec2 (vx x0 + s_half * span * vx t_hat)
                  (vy x0 + s_half * span * vy t_hat) in
  add_segment world a b n id_.

End World.

Arguments WallSegment A : clear implicits.
Arguments ReflectingWorld A : clear implicits.

(* ================================================================= *)
(** ** reflecting_world.cpp: [advance_with_reflections] *)

Section Advance.
Context {A : Type} `{ExtendedScalar A}.
Local Open Scope scalar_scope.

(** The test of both early exits:
    [std::abs(v.x) <= EPS_DIR && std::abs(v.y) <= EPS_DIR] *)
Definition no_meaningful_displacement (v : Vec2 A) : bool :=
  (s_abs (vx v) <=? EPS_DIR) && (s_abs (vy v) <=? EPS_DIR).

(** The four locals the scan over the walls updates. *)
Record Scan : Type := mkScan {
  best_t : A;          (* earliest hit along v *)
  best_idx : Z;        (* index of hit wall *)
  hit_id : Z;          (* id of hit wall *)
  hit_n : Vec2 A       (* normal of hit wall *)
}.

Definition scan_start : Scan :=
  {| best_t := s_infinity; best_idx := (-1)%Z; hit_id := (-1)%Z;
     hit_n := mkVec2 s_zero s_zero |}.

(** The intersection of the ray [p + t v] with wall [w]: [Some (t, u)] when
    the wall is not rejected by any of the three [continue]s. *)
Definition candidate (p v : Vec2 A) (w : WallSegment A) : option (A * A) :=
  let a := p0 w in
  let b := p1 w in
  let s := mkVec2 (vx b - vx a) (vy b - vy a) in
  let denom := cross2 v s in
  if s_abs denom <=? EPS_DIR then None else
  let ap := mkVec2 (vx a - vx p) (vy a - vy p) in
  let t := cross2 ap s / denom in
  if (t <=? EPS_POS) || (t >? s_one + EPS_POS) then None else
  let u := cross2 ap v / denom in
  if (u <? - EPS_POS) || (u >? s_one + EPS_POS) then None else
  Some (t, u).

(** The comparison that decides whether wall [w], at index [i] and hit at
    parameter [t], replaces the best hit so far. *)
Definition replaces_best (sc : Scan) (i : Z) (w : WallSegment A) (t : A) : bool :=
  (t <? best_t sc - s_1em15)
  || ((s_abs (t - best_t sc) <=? s_1em15)
      && ((id w <? hit_id sc)%Z || ((id w =? hit_id sc)%Z && (i <? best_idx sc)%Z))).

(** One iteration of the [for] loop over [world.walls]. *)
Definition scan_wall (p v : Vec2 A) (sc : Scan) (i : Z) (w : WallSegment A) : Scan :=
  match candidate p v w with
  | None => sc
  | Some (t, _) =>
      if replaces_best sc i w t
      then {| best_t := t; best_idx := i; hit_n := n_hat w; hit_id := id w |}
      else sc
  end.

(** The [for] loop, from index [i] on. *)
Fixpoint scan_walls (p v : Vec2 A) (ws : list (WallSegment A)) (i : Z) (sc : Scan)
  : Scan :=
  match ws with
  | [] => sc
  | w :: ws' => scan_walls p v ws' (i + 1)%Z (scan_wall p v sc i w)
  end.

(** The three ways one pass through the body of the [while] loop ends. *)
Inductive Pass : Type :=
| Unobstructed (p : Vec2 A)        (* no wall hit: [p += v; break] *)
| Exhausted (p v : Vec2 A)         (* bounced, nothing left to move: [break] *)
| Bounced (p v : Vec2 A).          (* bounced, next iteration *)

Definition bounce_pass (world : ReflectingWorld A) (p v : Vec2 A) : Pass :=
  let sc := scan_walls p v (walls world) 0%Z scan_start in
  if (best_idx sc <? 0)%Z || negb (s_isfinite (best_t sc)) then
    Unobstructed (vadd p v)
  else
    (* Move p to exact contact point *)
    let p := vadd p (mkVec2 (vx v * best_t sc) (vy v * best_t sc)) in
    (* Nudge slightly along normal *)
    let p := vadd p (mkVec2 (vx (hit_n sc) * EPS_POS) (vy (hit_n sc) * EPS_POS)) in
    let v_remain := mkVec2 (vx v * (s_one - best_t sc)) (vy v * (s_one - best_t sc)) in
    let v := reflect_across_unit_normal v_remain (hit_n sc) in
    if no_meaningful_displacement v then Exhausted p v else Bounced p v.

(** The locals [p], [v] and [bounces] when the [while] loop is left. *)
Record Locals : Type := mkLocals {
  l_p : Vec2 A;
  l_v : Vec2 A;
  l_bounces : nat
}.

(** [while (bounces < MAX_REFLECTIONS) { ... }], by recursion on
    [budget = MAX_REFLECTIONS - bounces]. *)
Fixpoint bounce_loop (world : ReflectingWorld A) (budget bounces : nat)
  (p v : Vec2 A) : Locals :=
  match budget with
  | O => mkLocals p v bounces
  | S budget' =>
      match bounce_pass world p v with
      | Unobstructed p' => mkLocals p' v bounces
      | Exhausted p' v' => mkLocals p' v' (S bounces)
      | Bounced p' v' => bounce_loop world budget' (S bounces) p' v'
      end
  end.

(** [void advance_with_reflections(Vec2& x, Vec2 d, const ReflectingWorld&)]:
    the value written back to [x]. *)
Definition advance_with_reflections (x d : Vec2 A) (world : ReflectingWorld A)
  : Vec2 A :=
  if no_meaningful_displacement d then x
  else l_p (bounce_loop world MAX_REFLECTIONS 0 x d).

(** [n] passes of the loop body in a row, each of which bounces and leaves
    a displacement to move: the position and the displacement after them. *)
Fixpoint bounce_chain (world : ReflectingWorld A) (n : nat) (p v : Vec2 A)
  : option (Vec2 A * Vec2 A) :=
  match n with
  | O => Some (p, v)
  | S n' =>
      match bounce_pass world p v with
      | Bounced p' v' => bounce_chain world n' p' v'
      | _ => None
      end
  end.

(** The locals of the scan when wall [w], at index [i] and hit at [t], is
    the best hit. *)
Definition scan_of (i : Z) (w : WallSegment A) (t : A) : Scan :=
  {| best_t := t; best_idx := i; hit_n := n_hat w; hit_id := id w |}.

(** Two hit parameters within the tie tolerance: [|t - t'| <= 1e-15]. *)
Definition tied (t t' : A) : bool := s_abs (t - t') <=? s_1em15.

(** The selection rule in the words of the specification: against every
    other valid candidate, the selected hit has the smaller [t], unless the
    two are tied, and then it has the lower id, or the same id and the lower
    insertion index. *)
Definition spec_earliest_hit (p v : Vec2 A) (ws : list (WallSegment A))
  (sc : Scan) : Prop :=
  forall (j : nat) (w : WallSegment A) (t u : A),
    nth_error ws j = Some w ->
    candidate p v w = Some (t, u) ->
    Z.of_nat j <> best_idx sc ->
    if tied t (best_t sc)
    then (hit_id sc < id w)%Z
         \/ (hit_id sc = id w /\ (best_idx sc < Z.of_nat j)%Z)
    else (best_t sc <? t) = true.

(** The scan either has not kept a hit yet, or holds the data of a valid
    candidate among the walls of [ws] before index [k]. *)
Definition scanned_below (p v : Vec2 A) (ws : list (WallSegment A)) (k : nat)
  (sc : Scan) : Prop :=
  sc = scan_start
  \/ exists (j : nat) (w : WallSegment A) (t u : A),
       (j < k)%nat /\ nth_error ws j = Some w
       /\ candidate p v w = Some (t, u) /\ sc = scan_of (Z.of_nat j) w t.

End Advance.

Arguments Scan A : clear implicits.
Arguments Pass A : clear implicits.
Arguments Locals A : clear implicits.


(* ================================================================= *)
(** ** Classes of binary64 values *)

(** [x] is a signed zero. *)
Definition SFzero (x : spec_float) : Prop := exists s, x = S754_zero s.

(** [x] is neither a NaN nor an infinity. *)
Definition SFfin (x : spec_float) : Prop :=
  match x with
  | S754_zero _ | S754_finite _ _ _ => True
  | S754_infinity _ | S754_nan => False
  end.

(* ================================================================= *)
(** ** Scenes used below, in binary64 *)

Module Scenes.
Local Open Scope float_scope.

(** The walls [add_inward_box(0, 1, 0, 1, 100)] appends. *)
Definition unit_box : ReflectingWorld float :=
  mkWorld
    [ WallSegment_ctor (mkVec2 0 0) (mkVec2 1 0) (mkVec2 0 1) 100;
      WallSegment_ctor (mkVec2 1 0) (mkVec2 1 1) (mkVec2 (-1) 0) 101;
      WallSegment_ctor (mkVec2 1 1) (mkVec2 0 1) (mkVec2 0 (-1)) 102;
      WallSegment_ctor (mkVec2 0 1) (mkVec2 0 0) (mkVec2 1 0) 103 ].

(** The wall [add_segment({x,-1}, {x,1}, {-1,0}, id)] appends: a vertical
    wall that a ray from the origin along [(1,0)] hits at [t = x]. *)
Definition vertical_wall (x : float) (id_ : Z) : WallSegment float :=
  WallSegment_ctor (mkVec2 x (-1)) (mkVec2 x 1) (mkVec2 (-1) 0) id_.

(** Three walls whose hit parameters chain: [0.5], [0.5 + 2^-50] and
    [0.5 + 2^-49]; neighbours are [8.9e-16] apart, the outer two
    [1.8e-15]. *)
Definition t_near : float := 0.5.
Definition t_mid : float := 0.50000000000000089.
Definition t_far : float := 0.50000000000000178.

(** A later hit, a tie that the id decides, and another later hit. *)
Definition tie_by_id : list (WallSegment float) :=
  [ vertical_wall 0.75 1; vertical_wall t_near 9; vertical_wall t_mid 7;
    vertical_wall 0.875 0 ].

Definition chain_far_first : list (WallSegment float) :=
  [ vertical_wall t_far 0; vertical_wall t_mid 1; vertical_wall t_near 2 ].
Definition chain_near_first : list (WallSegment float) :=
  [ vertical_wall t_near 2; vertical_wall t_mid 1; vertical_wall t_far 0 ].

(** Two walls [1.00007e-15] apart: [g_near] is the double that
    [g_far - 1e-15] rounds to. *)
Definition g_far : float := 0.005859375.
Definition g_near : float := 0.0058593749999989999.

Definition gap_far_first : ReflectingWorld float :=
  mkWorld [ vertical_wall g_far 1; vertical_wall g_near 2 ].
Definition gap_near_first : ReflectingWorld float :=
  mkWorld [ vertical_wall g_near 2; vertical_wall g_far 1 ].

End Scenes.

(* ================================================================= *)
(** ** What a member function of the driver can do besides returning *)

(** A call returns, stops at a failed [assert], leaves by a C++ exception, or
    has undefined behaviour: an index past the end of a [std::vector], an
    integer division by zero, the end of a non-void function reached. *)
Inductive Effect (T : Type) : Type :=
| Normal (t : T)
| Aborted (msg : string)
| Thrown (what : string)
| Undefined.

Arguments Normal {T} t.
Arguments Aborted {T} msg.
Arguments Thrown {T} what.
Arguments Undefined {T}.

Definition ebind {T U : Type} (e : Effect T) (k : T -> Effect U) : Effect U :=
  match e with
  | Normal t => k t
  | Aborted msg => Aborted msg
  | Thrown what => Thrown what
  | Undefined => Undefined
  end.

Notation "'let*' x ':=' e 'in' k" := (ebind e (fun x => k))
  (at level 10, x name, e at level 100, k at level 200).
Notation "e ;> k" := (ebind e (fun _ => k))
  (at level 62, right associativity).

(** An [assert] inside such a call. *)
Definition lift {T : Type} (o : Outcome T) : Effect T :=
  match o with
  | Returns t => Normal t
  | AssertionFailed msg => Aborted msg
  end.

(** [v[i]] read from a [std::vector]. *)
Definition load {T : Type} (v : list T) (i : nat) : Effect T :=
  match nth_error v i with
  | Some x => Normal x
  | None => Undefined
  end.

Fixpoint set_nth {T : Type} (v : list T) (i : nat) (x : T) : list T :=
  match v, i with
  | [], _ => []
  | _ :: r, O => x :: r
  | y :: r, S j => y :: set_nth r j x
  end.

(** [v[i] = x] in a [std::vector]. *)
Definition store {T : Type} (v : list T) (i : nat) (x : T) : Effect (list T) :=
  if (i <? List.length v)%nat then Normal (set_nth v i x) else Undefined.

(* ================================================================= *)
(** ** rng.hpp, step_generators.hpp: the two step models *)

Section Steps.
Context {A : Type} `{Scalar A}.
Local Open Scope scalar_scope.

(** [struct BrownianParams], with its default member initialisers. *)
Record BrownianParams : Type := mkBrownianParams {
  dt : A;
  D : A;
  mu_x : A;
  mu_y : A
}.

Definition BrownianParams_default : BrownianParams :=
  mkBrownianParams s_one s_one s_zero s_zero.

(** [struct SpecifiedStepParams]; its [dt], [D] and [k] are [sp_dt], [sp_D]
    and [sp_k] here. *)
Record SpecifiedStepParams : Type := mkSpecifiedStepParams {
  sp_dt : A;
  sp_D : A;
  diff_scale : A;
  sp_k : Z
}.

Definition SpecifiedStepParams_default : SpecifiedStepParams :=
  mkSpecifiedStepParams s_one s_one s_one 1.

(** [class RNG]: a generator state and [gauss()], which returns a sample and
    leaves the generator advanced.  [std::mt19937] and
    [std::normal_distribution] are not modelled: every statement below holds
    for any generator. *)
Context {RNG : Type}.
Variable gauss : RNG -> A * RNG.

(** [Vec2 brownian_step(const BrownianParams& p, RNG& rng) noexcept]: the
    displacement and the generator after the two draws, x first. *)
Definition brownian_step (p : BrownianParams) (rng : RNG) : Vec2 A * RNG :=
  let sigma := s_sqrt (s_two * D p * dt p) in
  let (g, rng) := gauss rng in
  let dx := mu_x p * dt p + sigma * g in
  let (g, rng) := gauss rng in
  let dy := mu_y p * dt p + sigma * g in
  (mkVec2 dx dy, rng).

(** [PUBLIC_SKELETON] is the build flag of the public build. *)
Variable PUBLIC_SKELETON : bool.

(** [Vec2 specified_step(...)]: throws in the public build; otherwise the
    body is empty and control reaches the end of a function returning
    [Vec2]. *)
Definition specified_step (p : SpecifiedStepParams) (step_index : nat)
  (pos_uv : Vec2 A) (rng : RNG) : Effect (Vec2 A * RNG) :=
  if PUBLIC_SKELETON
  then Thrown "sim::specified_step is redacted in the public skeleton build"
  else Undefined.

(** What a call that reaches the redacted step model does. *)
Definition redacted {T : Type} : Effect T :=
  if PUBLIC_SKELETON
  then Thrown "sim::specified_step is redacted in the public skeleton build"
  else Undefined.

End Steps.

Arguments BrownianParams A : clear implicits.
Arguments SpecifiedStepParams A : clear implicits.

(* ================================================================= *)
(** ** simulation.hpp, simulation.cpp: the driver *)

(** [enum class StepType] *)
Inductive StepType : Type := Brownian | Specified.

Section Simulation.
Context {A : Type} `{ExtendedScalar A}.
Local Open Scope scalar_scope.

Context {RNG : Type}.
Variable gauss : RNG -> A * RNG.
(** [explicit RNG(unsigned int seed)] *)
Variable RNG_seeded : Z -> RNG.
Variable NDEBUG : bool.
Variable PUBLIC_SKELETON : bool.

(** [struct SimulationConfig]; [std::size_t] fields are natural numbers,
    [base_seed] an [unsigned int] of 32 bits. *)
Record SimulationConfig : Type := mkSimulationConfig {
  n_particles : nat;
  n_steps : nat;
  record_history : bool;
  store_every : nat;
  base_seed : Z;
  deterministic : bool;
  brownian : BrownianParams A
}.

Definition SimulationConfig_default : SimulationConfig :=
  mkSimulationConfig 1 0 true 1 5489 true BrownianParams_default.

(** [Simulation::SpecifiedCallback]: a function of its four arguments, which
    may advance the generator it is given. *)
Definition SpecifiedCallback : Type :=
  nat -> nat -> Vec2 A -> RNG -> Vec2 A * RNG.

(** The data members of [class Simulation]; an empty [std::function] is
    [None]. *)
Record Simulation : Type := mkSimulation {
  world_ : ReflectingWorld A;
  cfg_ : SimulationConfig;
  pos_ : list (Vec2 A);
  hist_ : list (list (Vec2 A));
  step_type_ : list StepType;
  brownian_params_ : list (BrownianParams A);
  rngs_ : list RNG;
  spec_params_ : list (SpecifiedStepParams A);
  specified_cb_ : option SpecifiedCallback
}.

Definition with_pos (sim : Simulation) (pos : list (Vec2 A)) : Simulation :=
  mkSimulation (world_ sim) (cfg_ sim) pos (hist_ sim) (step_type_ sim)
    (brownian_params_ sim) (rngs_ sim) (spec_params_ sim) (specified_cb_ sim).

Definition with_hist (sim : Simulation) (hist : list (list (Vec2 A)))
  : Simulation :=
  mkSimulation (world_ sim) (cfg_ sim) (pos_ sim) hist (step_type_ sim)
    (brownian_params_ sim) (rngs_ sim) (spec_params_ sim) (specified_cb_ sim).

Definition with_step_type (sim : Simulation) (st : list StepType) : Simulation :=
  mkSimulation (world_ sim) (cfg_ sim) (pos_ sim) (hist_ sim) st
    (brownian_params_ sim) (rngs_ sim) (spec_params_ sim) (specified_cb_ sim).

Definition with_brownian_params (sim : Simulation)
  (bp : list (BrownianParams A)) : Simulation :=
  mkSimulation (world_ sim) (cfg_ sim) (pos_ sim) (hist_ sim) (step_type_ sim)
    bp (rngs_ sim) (spec_params_ sim) (specified_cb_ sim).

Definition with_rngs (sim : Simulation) (rngs : list RNG) : Simulation :=
  mkSimulation (world_ sim) (cfg_ sim) (pos_ sim) (hist_ sim) (step_type_ sim)
    (brownian_params_ sim) rngs (spec_params_ sim) (specified_cb_ sim).

Definition with_spec_params (sim : Simulation)
  (sp : list (SpecifiedStepParams A)) : Simulation :=
  mkSimulation (world_ sim) (cfg_ sim) (pos_ sim) (hist_ sim) (step_type_ sim)
    (brownian_params_ sim) (rngs_ sim) sp (specified_cb_ sim).

Definition with_callback (sim : Simulation) (cb : option SpecifiedCallback)
  : Simulation :=
  mkSimulation (world_ sim) (cfg_ sim) (pos_ sim) (hist_ sim) (step_type_ sim)
    (brownian_params_ sim) (rngs_ sim) (spec_params_ sim) cb.

(** [static_cast<unsigned int>(cfg_.base_seed + static_cast<unsigned int>(i))] *)
Definition particle_seed (base : Z) (i : nat) : Z :=
  ((base + Z.of_nat i mod 2 ^ 32) mod 2 ^ 32)%Z.

(** [const std::size_t frames = 1 + (n_steps + store_every - 1) / store_every],
    whose only effect is the division; the capacity [reserve] sets is not
    observable. *)
Definition frames (cfg : SimulationConfig) : Effect nat :=
  if (store_every cfg =? 0)%nat then Undefined
  else Normal (1 + (n_steps cfg + store_every cfg - 1) / store_every cfg)%nat.

(** [for (i ...) hist_[i].push_back(pos_[i])], over the indices [idx]. *)
Fixpoint record_positions (hist : list (list (Vec2 A))) (pos : list (Vec2 A))
  (idx : list nat) : Effect (list (list (Vec2 A))) :=
  match idx with
  | [] => Normal hist
  | i :: idx' =>
      let* p := load pos i in
      let* h := load hist i in
      let* hist := store hist i (h ++ [p])%list in
      record_positions hist pos idx'
  end.

(** [hist_.assign(n, {})], the reservation, and frame 0 for each particle. *)
Definition fresh_history (cfg : SimulationConfig) (pos : list (Vec2 A))
  (n : nat) : Effect (list (list (Vec2 A))) :=
  let hist := repeat [] n in
  frames cfg ;>
  record_positions hist pos (seq 0 n).

Definition sizes_ok (record : bool) (pos : list (Vec2 A))
  (hist : list (list (Vec2 A))) (step_type : list StepType)
  (bp : list (BrownianParams A)) (rngs : list RNG) : bool :=
  (List.length pos =? List.length step_type)%nat
  && (List.length pos =? List.length bp)%nat
  && (List.length pos =? List.length rngs)%nat
  && (negb record || (List.length hist =? List.length pos)%nat).

(** [Simulation::Simulation(const ReflectingWorld&, const SimulationConfig&)].
    [entropy i] is the generator the [i]-th hardware-seeded construction
    yields. *)
Definition Simulation_ctor (world : ReflectingWorld A) (cfg : SimulationConfig)
  (entropy : nat -> RNG) : Effect Simulation :=
  let n := n_particles cfg in
  lift (assert NDEBUG (1 <=? store_every cfg)%nat
          "SimulationConfig::store_every must be >= 1") ;>
  let pos := repeat (mkVec2 s_zero s_zero) n in
  let step_type := repeat Brownian n in
  let brownian_params := repeat (brownian cfg) n in
  let spec_params := repeat SpecifiedStepParams_default n in
  let rngs :=
    if deterministic cfg
    then map (fun i => RNG_seeded (particle_seed (base_seed cfg) i)) (seq 0 n)
    else map entropy (seq 0 n) in
  let* hist :=
    (if record_history cfg then fresh_history cfg pos n else Normal []) in
  lift (assert NDEBUG
          (sizes_ok (record_history cfg) pos hist step_type brownian_params rngs)
          "Per-particle containers must be the same length.") ;>
  Normal (mkSimulation world cfg pos hist step_type brownian_params rngs
            spec_params None).

Definition set_step_type_all (sim : Simulation) (type : StepType) : Simulation :=
  with_step_type sim (map (fun _ => type) (step_type_ sim)).

Definition set_step_type (sim : Simulation) (i : nat) (type : StepType)
  : Effect Simulation :=
  lift (assert NDEBUG (i <? List.length (step_type_ sim))%nat
          "set_step_type: particle index out of range") ;>
  let* st := store (step_type_ sim) i type in
  Normal (with_step_type sim st).

Definition set_brownian_params (sim : Simulation) (i : nat)
  (p : BrownianParams A) : Effect Simulation :=
  lift (assert NDEBUG (i <? List.length (brownian_params_ sim))%nat
          "set_brownian_params: particle index out of range") ;>
  let* bp := store (brownian_params_ sim) i p in
  Normal (with_brownian_params sim bp).

Definition set_specified_params (sim : Simulation) (i : nat)
  (p : SpecifiedStepParams A) : Effect Simulation :=
  lift (assert NDEBUG (i <? List.length (spec_params_ sim))%nat
          "set_specified_params: particle index out of range") ;>
  let* sp := store (spec_params_ sim) i p in
  Normal (with_spec_params sim sp).

Definition set_specified_params_all (sim : Simulation)
  (p : SpecifiedStepParams A) : Simulation :=
  with_spec_params sim (map (fun _ => p) (spec_params_ sim)).

Definition set_specified_callback (sim : Simulation)
  (cb : option SpecifiedCallback) : Simulation :=
  with_callback sim cb.

Definition set_positions (sim : Simulation) (positions : list (Vec2 A))
  : Effect Simulation :=
  lift (assert NDEBUG (List.length positions =? List.length (pos_ sim))%nat
          "set_positions: size mismatch with n_particles") ;>
  let sim := with_pos sim positions in
  let* sim :=
    (if record_history (cfg_ sim)
     then let* hist := fresh_history (cfg_ sim) (pos_ sim)
                         (List.length (pos_ sim)) in
          Normal (with_hist sim hist)
     else Normal sim) in
  (if record_history (cfg_ sim)
   then lift (assert NDEBUG
                (List.length (hist_ sim) =? List.length (pos_ sim))%nat
                "set_positions: history size must match n_particles")
   else Normal tt) ;>
  Normal sim.

(** [for (const auto& h : hist_) assert(h.size() <= 1 && ...)] *)
Fixpoint assert_not_stepped (hist : list (list (Vec2 A))) : Outcome unit :=
  match hist with
  | [] => Returns tt
  | h :: hist' =>
      assert NDEBUG (List.length h <=? 1)%nat
        "set_position: called after stepping; use set_positions() or reset()" ;;;
      assert_not_stepped hist'
  end.

Definition set_position (sim : Simulation) (i : nat) (p : Vec2 A)
  : Effect Simulation :=
  lift (assert NDEBUG (i <? List.length (pos_ sim))%nat
          "set_position: particle index out of range") ;>
  let* pos := store (pos_ sim) i p in
  let sim := with_pos sim pos in
  if record_history (cfg_ sim) then
    let* hist :=
      (match hist_ sim with
       | [] =>
           let n := List.length (pos_ sim) in
           frames (cfg_ sim) ;>
           Normal (repeat [] n)
       | _ :: _ =>
           lift (assert_not_stepped (hist_ sim)) ;>
           lift (assert NDEBUG
                   (List.length (hist_ sim) =? List.length (pos_ sim))%nat
                   "set_position: history size must match n_particles") ;>
           Normal (hist_ sim)
       end) in
    let* h := load hist i in
    let* hist :=
      (match h with
       | [] => store hist i (h ++ [p])%list
       | _ :: _ => store hist i (set_nth h 0 p)
       end) in
    Normal (with_hist sim hist)
  else Normal sim.

(** The [switch] of the hot path: the displacement proposed for particle [i]
    at step [k], and the particle's generator after the call. *)
Definition proposed_step (sim : Simulation) (k i : nat)
  : Effect (Vec2 A * RNG) :=
  let* type := load (step_type_ sim) i in
  match type with
  | Brownian =>
      let* bp := load (brownian_params_ sim) i in
      let* rng := load (rngs_ sim) i in
      Normal (brownian_step gauss bp rng)
  | Specified =>
      match specified_cb_ sim with
      | Some cb =>
          let* pos := load (pos_ sim) i in
          let* rng := load (rngs_ sim) i in
          Normal (cb i k pos rng)
      | None =>
          let* sp := load (spec_params_ sim) i in
          let* pos := load (pos_ sim) i in
          let* rng := load (rngs_ sim) i in
          specified_step PUBLIC_SKELETON sp k pos rng
      end
  end.

(** The body of the loop over the particles. *)
Definition step_particle (sim : Simulation) (k i : nat) : Effect Simulation :=
  let* dr := proposed_step sim k i in
  let* rngs := store (rngs_ sim) i (snd dr) in
  let sim := with_rngs sim rngs in
  let* x := load (pos_ sim) i in
  let* pos := store (pos_ sim) i
                (advance_with_reflections x (fst dr) (world_ sim)) in
  Normal (with_pos sim pos).

(** [for (std::size_t i = 0; i < n; ++i) { ... }], over the indices [idx]. *)
Fixpoint step_particles (sim : Simulation) (k : nat) (idx : list nat)
  : Effect Simulation :=
  match idx with
  | [] => Normal sim
  | i :: idx' =>
      let* sim := step_particle sim k i in
      step_particles sim k idx'
  end.

(** [if (record && ((k+1) % stride == 0)) { ... }] *)
Definition record_frame (sim : Simulation) (k n : nat) : Effect Simulation :=
  if record_history (cfg_ sim) then
    if (store_every (cfg_ sim) =? 0)%nat then Undefined
    else if ((k + 1) mod store_every (cfg_ sim) =? 0)%nat
         then let* hist := record_positions (hist_ sim) (pos_ sim) (seq 0 n) in
              Normal (with_hist sim hist)
         else Normal sim
  else Normal sim.

(** [for (std::size_t k = 0; k < cfg_.n_steps; ++k) { ... }], by recursion on
    [remaining = n_steps - k]. *)
Fixpoint main_loop (remaining k : nat) (sim : Simulation) (n : nat)
  : Effect Simulation :=
  match remaining with
  | O => Normal sim
  | S remaining' =>
      let* sim := step_particles sim k (seq 0 n) in
      let* sim := record_frame sim k n in
      main_loop remaining' (S k) sim n
  end.

(** [void Simulation::run()].  [world_] points to the world the constructor
    was given, so [world_ != nullptr] holds. *)
Definition run (sim : Simulation) : Effect Simulation :=
  let n := List.length (pos_ sim) in
  if (n =? 0)%nat || (n_steps (cfg_ sim) =? 0)%nat then Normal sim
  else
    lift (assert NDEBUG (List.length (step_type_ sim) =? n)%nat
            "run: step_type_ size mismatch") ;>
    lift (assert NDEBUG (List.length (brownian_params_ sim) =? n)%nat
            "run: brownian_params_ size mismatch") ;>
    lift (assert NDEBUG (List.length (rngs_ sim) =? n)%nat
            "run: rngs_ size mismatch") ;>
    lift (assert NDEBUG (1 <=? store_every (cfg_ sim))%nat
            "run: store_every must be >=1") ;>
    let* sim :=
      (if record_history (cfg_ sim)
          && negb (List.length (hist_ sim) =? n)%nat
       then let* hist := fresh_history (cfg_ sim) (pos_ sim) n in
            Normal (with_hist sim hist)
       else Normal sim) in
    main_loop (n_steps (cfg_ sim)) 0 sim n.

(** [positions()], [history()], [config()] *)
Definition positions (sim : Simulation) : list (Vec2 A) := pos_ sim.
Definition history (sim : Simulation) : list (list (Vec2 A)) := hist_ sim.
Definition config (sim : Simulation) : SimulationConfig := cfg_ sim.

(** *** Notions in which the properties of the driver are stated *)

(** The per-particle containers have the length of [pos_]. *)
Definition aligned (sim : Simulation) : Prop :=
  List.length (step_type_ sim) = List.length (pos_ sim)
  /\ List.length (brownian_params_ sim) = List.length (pos_ sim)
  /\ List.length (rngs_ sim) = List.length (pos_ sim)
  /\ List.length (spec_params_ sim) = List.length (pos_ sim).

(** ... and [pos_] has one entry per configured particle. *)
Definition sized (sim : Simulation) : Prop :=
  List.length (pos_ sim) = n_particles (cfg_ sim) /\ aligned sim.

(** When histories are recorded there is one per particle and none is empty;
    otherwise there is none. *)
Definition history_shape (sim : Simulation) : Prop :=
  if record_history (cfg_ sim)
  then List.length (hist_ sim) = List.length (pos_ sim)
       /\ Forall (fun h => h <> []) (hist_ sim)
  else hist_ sim = [].

(** The stride the constructor lets through in this build. *)
Definition stride_ok (sim : Simulation) : Prop :=
  if NDEBUG
  then record_history (cfg_ sim) = true -> store_every (cfg_ sim) <> 0%nat
  else (1 <= store_every (cfg_ sim))%nat.

(** What holds of every object a program can hold.  The sizes are kept only
    where the assertions are checked. *)
Definition invariant (sim : Simulation) : Prop :=
  history_shape sim /\ stride_ok sim /\ (NDEBUG = false -> sized sim).

(** No particle depends on the redacted step model. *)
Definition model_available (sim : Simulation) : Prop :=
  specified_cb_ sim <> None
  \/ Forall (fun type => type = Brownian) (step_type_ sim).

(** The non-const member functions, as calls on an object. *)
Inductive Call : Type :=
| call_set_step_type_all (type : StepType)
| call_set_step_type (i : nat) (type : StepType)
| call_set_brownian_params (i : nat) (p : BrownianParams A)
| call_set_specified_params (i : nat) (p : SpecifiedStepParams A)
| call_set_specified_params_all (p : SpecifiedStepParams A)
| call_set_specified_callback (cb : option SpecifiedCallback)
| call_set_positions (positions : list (Vec2 A))
| call_set_position (i : nat) (p : Vec2 A)
| call_run.

Definition call (c : Call) (sim : Simulation) : Effect Simulation :=
  match c with
  | call_set_step_type_all type => Normal (set_step_type_all sim type)
  | call_set_step_type i type => set_step_type sim i type
  | call_set_brownian_params i p => set_brownian_params sim i p
  | call_set_specified_params i p => set_specified_params sim i p
  | call_set_specified_params_all p => Normal (set_specified_params_all sim p)
  | call_set_specified_callback cb => Normal (set_specified_callback sim cb)
  | call_set_positions positions => set_positions sim positions
  | call_set_position i p => set_position sim i p
  | call_run => run sim
  end.

(** The objects a program can hold: constructed, then used through calls
    that returned. *)
Inductive reachable : Simulation -> Prop :=
| reachable_ctor world cfg entropy sim :
    Simulation_ctor world cfg entropy = Normal sim -> reachable sim
| reachable_call c sim sim' :
    reachable sim -> call c sim = Normal sim' -> reachable sim'.

(** The histories with the position of each particle appended to its own. *)
Definition pushed (hist : list (list (Vec2 A))) (pos : list (Vec2 A))
  : list (list (Vec2 A)) :=
  map (fun hp => fst hp ++ [snd hp])%list (combine hist pos).

(** [pos_[i]] and [rngs_[i]], the state of particle [i]. *)
Definition particle (sim : Simulation) (i : nat) : option (Vec2 A * RNG) :=
  match nth_error (pos_ sim) i, nth_error (rngs_ sim) i with
  | Some x, Some rng => Some (x, rng)
  | _, _ => None
  end.

(** The loop body seen from particle [i]: its state after step [k], from its
    state [xr] before the step.  Of [sim] it reads the world, the callback and
    the entries of the particle in [step_type_], [brownian_params_] and
    [spec_params_]. *)
Definition own_step (sim : Simulation) (i k : nat) (xr : Vec2 A * RNG)
  : Effect (Vec2 A * RNG) :=
  let* type := load (step_type_ sim) i in
  let* dr :=
    (match type with
     | Brownian =>
         let* bp := load (brownian_params_ sim) i in
         Normal (brownian_step gauss bp (snd xr))
     | Specified =>
         match specified_cb_ sim with
         | Some cb => Normal (cb i k (fst xr) (snd xr))
         | None =>
             let* sp := load (spec_params_ sim) i in
             specified_step PUBLIC_SKELETON sp k (fst xr) (snd xr)
         end
     end) in
  Normal (advance_with_reflections (fst xr) (fst dr) (world_ sim), snd dr).

(** [m] steps of particle [i], the first being step [k]. *)
Fixpoint own_steps (sim : Simulation) (i m k : nat) (xr : Vec2 A * RNG)
  : Effect (Vec2 A * RNG) :=
  match m with
  | O => Normal xr
  | S m' =>
      let* xr := own_step sim i k xr in
      own_steps sim i m' (S k) xr
  end.

(** The object after the entries of particle [i] have been overwritten. *)
Definition moved (sim : Simulation) (i : nat) (xr : Vec2 A * RNG) : Simulation :=
  with_pos (with_rngs sim (set_nth (rngs_ sim) i (snd xr)))
    (set_nth (pos_ sim) i (fst xr)).

(** The object on which the main loop of [run] starts: frame 0 is recorded
    first if the histories are not there. *)
Definition run_start (sim : Simulation) : Simulation :=
  if record_history (cfg_ sim)
     && negb (List.length (hist_ sim) =? List.length (pos_ sim))%nat
  then with_hist sim (map (fun p => [p]) (pos_ sim))
  else sim.

(** Two objects with the same world, callback and step models. *)
Definition same_setup (sim sim' : Simulation) : Prop :=
  world_ sim' = world_ sim
  /\ cfg_ sim' = cfg_ sim
  /\ step_type_ sim' = step_type_ sim
  /\ brownian_params_ sim' = brownian_params_ sim
  /\ spec_params_ sim' = spec_params_ sim
  /\ specified_cb_ sim' = specified_cb_ sim
  /\ List.length (pos_ sim') = List.length (pos_ sim)
  /\ List.length (rngs_ sim') = List.length (rngs_ sim).

End Simulation.

Arguments SimulationConfig A : clear implicits.
Arguments SpecifiedCallback A RNG : clear implicits.
Arguments Simulation A RNG : clear implicits.
Arguments Call A RNG : clear implicits.

(* ================================================================= *)
(** ** A small simulation used below, in binary64 *)

(** The object a call returned, or [d]. *)
Definition returned {T : Type} (d : T) (e : Effect T) : T :=
  match e with
  | Normal t => t
  | _ => d
  end.

Module Walkers.
Local Open Scope float_scope.

(** A stand-in for the generator: a counter, whose samples alternate. *)
Definition gauss (rng : nat) : float * nat :=
  (if Nat.even rng then 0.5 else -0.25, S rng).

Definition seeded (seed : Z) : nat := Z.to_nat seed.

Definition entropy (i : nat) : nat := i.

(** Two particles in the unit box, five steps, every second one recorded. *)
Definition cfg : SimulationConfig float :=
  mkSimulationConfig 2 5 true 2 7 true (mkBrownianParams 1 0.03125 0 0).

(** Like [kStepRight] of the tests, with a shorter step. *)
Definition step_right : SpecifiedCallback float nat :=
  fun _ _ _ rng => (mkVec2 0.25 0, rng).

Definition nowhere : Simulation float nat :=
  mkSimulation empty_world cfg [] [] [] [] [] [] None.

(** [Simulation sim(box, cfg)] in a build with the assertions checked *)
Definition built : Simulation float nat :=
  Eval vm_compute in
    returned nowhere (Simulation_ctor seeded false Scenes.unit_box cfg entropy).

Definition start : list (Vec2 float) := [mkVec2 0.5 0.25; mkVec2 0.25 0.75].

(** [sim.set_positions(start); sim.set_step_type(1, StepType::Specified)] *)
Definition placed : Simulation float nat :=
  Eval vm_compute in
    returned nowhere
      (let* sim := set_positions false built start in
       set_step_type false sim 1 Specified).

(** [sim.set_specified_callback(step_right)] *)
Definition ready : Simulation float nat :=
  set_specified_callback placed (Some step_right).

(** [sim.run()] *)
Definition finished : Simulation float nat :=
  Eval vm_compute in returned nowhere (run gauss false true ready).

(** The same first particle beside another second one, without histories,
    in a build without the assertions. *)
Definition other : Simulation float nat :=
  Eval vm_compute in
    returned nowhere
      (let* sim := Simulation_ctor seeded true Scenes.unit_box
                     (mkSimulationConfig 2 5 false 3 7 true
                        (mkBrownianParams 1 0.03125 0 0)) entropy in
       let* sim := set_positions true sim [mkVec2 0.5 0.25; mkVec2 0.875 0.125] in
       Normal (set_specified_callback sim (Some step_right))).

Definition other_finished : Simulation float nat :=
  Eval vm_compute in returned nowhere (run gauss true true other).

(** Three positions for two particles, in a build without the assertions. *)
Definition crowded : Simulation float nat :=
  Eval vm_compute in
    returned nowhere
      (set_positions true built (start ++ [mkVec2 0.75 0.25])).

End Walkers.

(* ================================================================= *)
(** ** Laws of the vector primitive in exact arithmetic *)

Module ExactLaws.
Local Open Scope R_scope.

Lemma Rleb_true (a b : R) : Rleb a b = true <-> a <= b.
Proof. unfold Rleb. destruct (Rle_dec a b); split; intros; auto; discriminate. Qed.

Lemma Rleb_false (a b : R) : Rleb a b = false <-> b < a.
Proof.
  unfold Rleb. destruct (Rle_dec a b); split; intros; auto; try discriminate; lra.
Qed.

Lemma vec2_eq (a b : Vec2 R) : vx a = vx b -> vy a = vy b -> a = b.
Proof. destruct a, b; simpl; intros; subst; reflexivity. Qed.

Lemma norm_sqr (v : Vec2 R) : norm v * norm v = dot v v.
Proof.
  unfold norm, dot; simpl. apply sqrt_sqrt.
  pose proof (Rle_0_sqr (vx v)); pose proof (Rle_0_sqr (vy v)).
  unfold Rsqr in *; lra.
Qed.

Lemma unit_dot (n : Vec2 R) : norm n = 1 -> dot n n = 1.
Proof. intros Hn. rewrite <- norm_sqr, Hn. ring. Qed.

(** The normal component of the reflection is the opposite of that of [v]. *)
Lemma reflect_dot_normal (v n : Vec2 R) :
  dot n n = 1 -> dot (reflect_across_unit_normal v n) n = - dot v n.
Proof.
  unfold reflect_across_unit_normal, dot, vsub, vscale; simpl. intros Hn.
  transitivity ((vx v * vx n + vy v * vy n)
                * (1 - 2 * (vx n * vx n + vy n * vy n))); [ring|].
  rewrite Hn; ring.
Qed.

Lemma reflect_dot_self (v n : Vec2 R) :
  dot n n = 1 ->
  dot (reflect_across_unit_normal v n) (reflect_across_unit_normal v n) = dot v v.
Proof.
  unfold reflect_across_unit_normal, dot, vsub, vscale; simpl. intros Hn.
  set (k := vx v * vx n + vy v * vy n).
  transitivity (vx v * vx v + vy v * vy v
                - 4 * k * k + 4 * k * k * (vx n * vx n + vy n * vy n)).
  - unfold k; ring.
  - rewrite Hn; ring.
Qed.

Lemma norm_zero_components (w : Vec2 R) (eps : R) :
  norm w <= eps -> Rabs (vx w) <= eps /\ Rabs (vy w) <= eps.
Proof.
  intros Hw.
  assert (Hx : Rabs (vx w) <= norm w).
  { rewrite <- sqrt_Rsqr_abs. unfold norm; simpl. apply sqrt_le_1_alt.
    pose proof (Rle_0_sqr (vy w)). unfold Rsqr in *; lra. }
  assert (Hy : Rabs (vy w) <= norm w).
  { rewrite <- sqrt_Rsqr_abs. unfold norm; simpl. apply sqrt_le_1_alt.
    pose proof (Rle_0_sqr (vx w)). unfold Rsqr in *; lra. }
  lra.
Qed.

Lemma reflect_zero_normal (v : Vec2 R) :
  reflect_across_unit_normal v (mkVec2 0 0) = v.
Proof.
  apply vec2_eq; unfold reflect_across_unit_normal, dot, vsub, vscale; simpl; ring.
Qed.

Lemma normalized_sentinel (w : Vec2 R) (eps : R) :
  norm w <= eps -> normalized w eps = mkVec2 0 0.
Proof.
  intros Hw. apply Rleb_true in Hw. unfold normalized.
  change (s_leb (norm w) eps) with (Rleb (norm w) eps). rewrite Hw. reflexivity.
Qed.

Lemma normalized_unit (w : Vec2 R) (eps : R) :
  0 <= eps -> eps < norm w -> norm (normalized w eps) = 1.
Proof.
  intros He Hw. assert (Hpos : 0 < norm w) by lra.
  apply Rleb_false in Hw. unfold normalized.
  change (s_leb (norm w) eps) with (Rleb (norm w) eps). rewrite Hw.
  set (n := norm w) in *.
  assert (Hn : n * n = dot w w) by apply norm_sqr.
  unfold norm; cbn [vx vy]. 
  change (sqrt (vx w / n * (vx w / n) + vy w / n * (vy w / n)) = 1).
  replace (vx w / n * (vx w / n) + vy w / n * (vy w / n)) with 1.
  - apply sqrt_1.
  - unfold dot in Hn; simpl in Hn. 
    transitivity ((vx w * vx w + vy w * vy w) / (n * n)).
    + rewrite <- Hn. field. lra.
    + field. lra.
Qed.

(** The file-local [normalize] of reflecting_world.cpp is
    [normalized(EPS_DIR)]. *)
Lemma normalize_normalized {A : Type} `{Scalar A} (v : Vec2 A) :
  normalize v = normalized v EPS_DIR.
Proof. reflexivity. Qed.

Lemma EPS_DIR_pos : 0 < (EPS_DIR : R).
Proof. unfold EPS_DIR; simpl. lra. Qed.

Lemma Rltb_true (a b : R) : Rltb a b = true <-> a < b.
Proof. unfold Rltb. destruct (Rlt_dec a b); split; intros; auto; discriminate. Qed.

Lemma Rltb_false (a b : R) : Rltb a b = false <-> b <= a.
Proof.
  unfold Rltb. destruct (Rlt_dec a b); split; intros; auto; try discriminate; lra.
Qed.

(** The validity tests of the scan, in exact arithmetic: the determinant is
    away from zero by more than [EPS_DIR], [t] lies in
    [(EPS_POS, 1 + EPS_POS]] and [u] in [[-EPS_POS, 1 + EPS_POS]]. *)
Lemma candidate_valid (p v : Vec2 R) (w : WallSegment R) (t u : R) :
  candidate p v w = Some (t, u) <->
  let s := vsub (p1 w) (p0 w) in
  let ap := vsub (p0 w) p in
  EPS_DIR < Rabs (cross2 v s)
  /\ t = cross2 ap s / cross2 v s
  /\ u = cross2 ap v / cross2 v s
  /\ EPS_POS < t <= 1 + EPS_POS
  /\ - EPS_POS <= u <= 1 + EPS_POS.
Proof.
  unfold candidate. cbv zeta.
  change (mkVec2 (s_sub (vx (p1 w)) (vx (p0 w))) (s_sub (vy (p1 w)) (vy (p0 w))))
    with (vsub (p1 w) (p0 w)).
  change (mkVec2 (s_sub (vx (p0 w)) (vx p)) (s_sub (vy (p0 w)) (vy p)))
    with (vsub (p0 w) p).
  set (s := vsub (p1 w) (p0 w)). set (ap := vsub (p0 w) p).
  set (denom := cross2 v s).
  change (s_div (cross2 ap s) denom) with (cross2 ap s / denom).
  change (s_div (cross2 ap v) denom) with (cross2 ap v / denom).
  set (t0 := cross2 ap s / denom). set (u0 := cross2 ap v / denom).
  change (s_leb (s_abs denom) EPS_DIR) with (Rleb (Rabs denom) EPS_DIR).
  change (s_leb t0 EPS_POS) with (Rleb t0 EPS_POS).
  change (s_ltb (s_add s_one EPS_POS) t0) with (Rltb (1 + EPS_POS) t0).
  change (s_ltb u0 (s_opp EPS_POS)) with (Rltb u0 (- EPS_POS)).
  change (s_ltb (s_add s_one EPS_POS) u0) with (Rltb (1 + EPS_POS) u0).
  clearbody t0 u0 denom. clear s ap.
  unfold EPS_POS, EPS_DIR. change (@s_1em12 R reals) with (1 / 1000000000000).
  set (eps := 1 / 1000000000000).
  destruct (Rleb (Rabs denom) eps) eqn:Hd;
    [apply Rleb_true in Hd | apply Rleb_false in Hd].
  { split; [discriminate | intros (Hlt & _); lra]. }
  destruct (Rleb t0 eps) eqn:Ht1;
    [apply Rleb_true in Ht1 | apply Rleb_false in Ht1]; simpl.
  { split; [discriminate | intros (_ & Ht & _ & Hlt & _); subst t; lra]. }
  destruct (Rltb (1 + eps) t0) eqn:Ht2;
    [apply Rltb_true in Ht2 | apply Rltb_false in Ht2]; simpl.
  { split; [discriminate | intros (_ & Ht & _ & Hlt & _); subst t; lra]. }
  destruct (Rltb u0 (- eps)) eqn:Hu1;
    [apply Rltb_true in Hu1 | apply Rltb_false in Hu1]; simpl.
  { split; [discriminate | intros (_ & _ & Hu & _ & Hlt); subst u; lra]. }
  destruct (Rltb (1 + eps) u0) eqn:Hu2;
    [apply Rltb_true in Hu2 | apply Rltb_false in Hu2]; simpl.
  { split; [discriminate | intros (_ & _ & Hu & _ & Hlt); subst u; lra]. }
  split.
  - intros Heq. injection Heq as <- <-. repeat split; lra.
  - intros (_ & -> & -> & _). reflexivity.
Qed.

End ExactLaws.

(* ================================================================= *)
(** ** The reflection operator *)

Section Reflect.
Local Open Scope R_scope.
Import ExactLaws.

(** C7, as amended.  In exact arithmetic, for every unit vector [n_hat]
    and every vector [v]: reflecting twice across [n_hat] gives [v] back,
    the reflection has the Euclidean norm of [v], and its component along
    any vector [w] orthogonal to [n_hat] is that of [v]. *)
Theorem reflect_unit_normal_laws (n_hat v : Vec2 R) :
  norm n_hat = 1 ->
  reflect_across_unit_normal (reflect_across_unit_normal v n_hat) n_hat = v
  /\ norm (reflect_across_unit_normal v n_hat) = norm v
  /\ (forall w : Vec2 R, dot w n_hat = 0 ->
        dot (reflect_across_unit_normal v n_hat) w = dot v w).
Proof.
  intros Hunit. apply unit_dot in Hunit. repeat split.
  - set (r := reflect_across_unit_normal v n_hat).
    assert (Hr : dot r n_hat = - dot v n_hat) by (apply reflect_dot_normal; exact Hunit).
    unfold reflect_across_unit_normal at 1. cbv zeta. rewrite Hr.
    apply vec2_eq; unfold r, reflect_across_unit_normal, vsub, vscale; simpl; ring.
  - assert (Hsq : forall a b : Vec2 R, dot a a = dot b b -> norm a = norm b).
    { intros a b Hab. unfold norm, dot in *; simpl in *. rewrite Hab. reflexivity. }
    apply Hsq, reflect_dot_self, Hunit.
  - intros w Hw. unfold reflect_across_unit_normal, dot, vsub, vscale in *;
      simpl in *.
    transitivity (vx v * vx w + vy v * vy w
                  - 2 * (vx v * vx n_hat + vy v * vy n_hat)
                    * (vx w * vx n_hat + vy w * vy n_hat)); [ring|].
    rewrite Hw; ring.
Qed.

Lemma reflect_unit_normal_laws_witness :
  norm (mkVec2 0 1) = 1
  /\ (reflect_across_unit_normal
        (reflect_across_unit_normal (mkVec2 3 (-4)) (mkVec2 0 1)) (mkVec2 0 1)
      = mkVec2 3 (-4)
      /\ norm (reflect_across_unit_normal (mkVec2 3 (-4)) (mkVec2 0 1))
         = norm (mkVec2 3 (-4))
      /\ (forall w : Vec2 R, dot w (mkVec2 0 1) = 0 ->
            dot (reflect_across_unit_normal (mkVec2 3 (-4)) (mkVec2 0 1)) w
            = dot (mkVec2 3 (-4)) w)).
Proof.
  assert (Hn : norm (mkVec2 0 1) = 1).
  { unfold norm; simpl. replace (0 * 0 + 1 * 1) with 1 by ring. apply sqrt_1. }
  split; [exact Hn | exact (reflect_unit_normal_laws (mkVec2 0 1) (mkVec2 3 (-4)) Hn)].
Defined.

End Reflect.

(* ================================================================= *)
(** ** The advancer: control flow *)

Section AdvanceFacts.
Context {A : Type} `{ExtendedScalar A}.

Lemma scan_walls_app (p v : Vec2 A) (l1 l2 : list (WallSegment A)) (i : Z)
  (sc : Scan A) :
  scan_walls p v (l1 ++ l2)%list i sc
  = scan_walls p v l2 (i + Z.of_nat (List.length l1))%Z (scan_walls p v l1 i sc).
Proof.
  revert i sc. induction l1 as [|w l1 IH]; intros i sc.
  - simpl. rewrite Z.add_0_r. reflexivity.
  - cbn [app scan_walls List.length]. rewrite IH. f_equal. lia.
Qed.

(** With no wall at all, one pass applies the displacement in full. *)
Lemma bounce_pass_empty (p v : Vec2 A) :
  bounce_pass empty_world p v = Unobstructed (vadd p v).
Proof. reflexivity. Qed.

(** What a pass that bounces leaves: the contact point on the hit wall,
    nudged by [EPS_POS] along its normal, and the unconsumed fraction of the
    displacement, reflected. *)
Lemma bounce_pass_bounced (world : ReflectingWorld A) (p v p' v' : Vec2 A) :
  bounce_pass world p v = Bounced p' v' ->
  let sc := scan_walls p v (walls world) 0%Z scan_start in
  p' = vadd (vadd p (mkVec2 (s_mul (vx v) (best_t sc)) (s_mul (vy v) (best_t sc))))
            (mkVec2 (s_mul (vx (hit_n sc)) EPS_POS) (s_mul (vy (hit_n sc)) EPS_POS))
  /\ v' = reflect_across_unit_normal
            (mkVec2 (s_mul (vx v) (s_sub s_one (best_t sc)))
                    (s_mul (vy v) (s_sub s_one (best_t sc))))
            (hit_n sc)
  /\ no_meaningful_displacement v' = false.
Proof.
  unfold bounce_pass. cbv zeta.
  destruct ((best_idx _ <? 0)%Z || negb (s_isfinite _)); [discriminate|].
  destruct (no_meaningful_displacement _) eqn:E; [discriminate|].
  intros Heq. injection Heq as <- <-. auto.
Qed.

(** The counter never passes the budget it started with. *)
Lemma bounce_loop_bounces (world : ReflectingWorld A) (budget bounces : nat)
  (p v : Vec2 A) :
  (bounces <= l_bounces (bounce_loop world budget bounces p v) <= bounces + budget)%nat.
Proof.
  revert bounces p v. induction budget as [|budget IH]; intros bounces p v; simpl.
  - lia.
  - destruct (bounce_pass world p v) as [p'|p' v'|p' v']; simpl; try lia.
    specialize (IH (S bounces) p' v'). lia.
Qed.

(** When every pass bounces, the loop stops with the budget, at the position
    of the last bounce. *)
Lemma bounce_loop_chain (world : ReflectingWorld A) (n bounces : nat)
  (p v p' v' : Vec2 A) :
  bounce_chain world n p v = Some (p', v') ->
  bounce_loop world n bounces p v = mkLocals p' v' (bounces + n).
Proof.
  revert bounces p v. induction n as [|n IH]; intros bounces p v; simpl.
  - intros Heq. injection Heq as <- <-. rewrite Nat.add_0_r. reflexivity.
  - destruct (bounce_pass world p v) as [q|q r|q r]; try discriminate.
    intros Hc. rewrite (IH (S bounces) q r Hc). f_equal. lia.
Qed.

(** C2, as amended.  Against an empty scene, a displacement that passes the
    early-exit test ([|d.x| <= EPS_DIR] and [|d.y| <= EPS_DIR]) leaves the
    position unchanged; any other displacement yields exactly [x + d]. *)
Theorem advance_empty_scene (x d : Vec2 A) :
  (no_meaningful_displacement d = false ->
     advance_with_reflections x d empty_world = vadd x d)
  /\ (no_meaningful_displacement d = true ->
        advance_with_reflections x d empty_world = x).
Proof.
  unfold advance_with_reflections. split; intros Hd; rewrite Hd; reflexivity.
Qed.

(** C5.  [advance_with_reflections] is a total function: the loop runs on a
    budget of [MAX_REFLECTIONS = 64] passes.  The bounce counter ends at
    most at 64, and when each of the 64 passes bounced and left a
    displacement to move, the result is the position [p] computed by the
    last bounce; the displacement [v] left at that point is dropped. *)
Theorem advance_bounce_cap (x d : Vec2 A) (world : ReflectingWorld A) :
  MAX_REFLECTIONS = 64%nat
  /\ (l_bounces (bounce_loop world MAX_REFLECTIONS 0 x d) <= MAX_REFLECTIONS)%nat
  /\ (no_meaningful_displacement d = false ->
        advance_with_reflections x d world
        = l_p (bounce_loop world MAX_REFLECTIONS 0 x d))
  /\ (forall p v : Vec2 A,
        no_meaningful_displacement d = false ->
        bounce_chain world MAX_REFLECTIONS x d = Some (p, v) ->
        l_bounces (bounce_loop world MAX_REFLECTIONS 0 x d) = MAX_REFLECTIONS
        /\ no_meaningful_displacement v = false
        /\ advance_with_reflections x d world = p).
Proof.
  split; [reflexivity|]. split; [|split].
  - pose proof (bounce_loop_bounces world MAX_REFLECTIONS 0 x d). lia.
  - intros Hd. unfold advance_with_reflections. rewrite Hd. reflexivity.
  - intros p v Hd Hc. unfold advance_with_reflections. rewrite Hd.
    rewrite (bounce_loop_chain world MAX_REFLECTIONS 0 x d p v Hc). simpl.
    repeat split.
    (* the displacement left by the last bounce is a meaningful one *)
    clear Hd. revert Hc. generalize x, d. unfold MAX_REFLECTIONS.
    generalize 63%nat as n. induction n as [|n IH]; intros q r; simpl.
    + destruct (bounce_pass world q r) as [q'|q' r'|q' r'] eqn:E; try discriminate.
      intros Heq. injection Heq as <- <-.
      apply bounce_pass_bounced in E. apply E.
    + destruct (bounce_pass world q r) as [q'|q' r'|q' r'] eqn:E; try discriminate.
      apply IH.
Qed.

End AdvanceFacts.

(* ================================================================= *)
(** ** The scan for the earliest hit *)

Section ScanFacts.
Context {A : Type} `{ExtendedScalar A}.
Variables p v : Vec2 A.
Variable ws : list (WallSegment A).

Lemma scanned_below_mono (k k' : nat) (sc : Scan A) :
  (k <= k')%nat -> scanned_below p v ws k sc -> scanned_below p v ws k' sc.
Proof.
  intros Hk [->|(j & w & t & u & Hj & Hrest)]; [left; reflexivity|].
  right. exists j, w, t, u. split; [lia | exact Hrest].
Qed.

Lemma scan_wall_scanned (k : nat) (w : WallSegment A) (sc : Scan A) :
  nth_error ws k = Some w ->
  scanned_below p v ws k sc ->
  scanned_below p v ws (S k) (scan_wall p v sc (Z.of_nat k) w).
Proof.
  intros Hw Hsc. unfold scan_wall.
  destruct (candidate p v w) as [[t u]|] eqn:Hc.
  - destruct (replaces_best sc (Z.of_nat k) w t).
    + right. exists k, w, t, u. repeat split; auto.
    + apply (scanned_below_mono k (S k)); [lia | exact Hsc].
  - apply (scanned_below_mono k (S k)); [lia | exact Hsc].
Qed.

Lemma scan_walls_scanned (l : list (WallSegment A)) :
  forall (k : nat) (sc : Scan A),
    (forall j w, nth_error l j = Some w -> nth_error ws (k + j) = Some w) ->
    scanned_below p v ws k sc ->
    scanned_below p v ws (k + List.length l) (scan_walls p v l (Z.of_nat k) sc).
Proof.
  induction l as [|w l IH]; intros k sc Hl Hsc; simpl.
  - rewrite Nat.add_0_r. exact Hsc.
  - replace (Z.of_nat k + 1)%Z with (Z.of_nat (S k)) by lia.
    replace (k + S (List.length l))%nat with (S k + List.length l)%nat by lia.
    apply IH.
    + intros j w' Hj. replace (S k + j)%nat with (k + S j)%nat by lia.
      apply Hl. exact Hj.
    + apply scan_wall_scanned; [|exact Hsc].
      specialize (Hl 0%nat w eq_refl). rewrite Nat.add_0_r in Hl. exact Hl.
Qed.

(** A best hit that no later candidate replaces stays to the end. *)
Lemma scan_walls_keeps (sc : Scan A) (l : list (WallSegment A)) :
  forall k : nat,
    (forall j w t u, nth_error l j = Some w -> candidate p v w = Some (t, u) ->
       replaces_best sc (Z.of_nat (k + j)) w t = false) ->
    scan_walls p v l (Z.of_nat k) sc = sc.
Proof.
  induction l as [|w l IH]; intros k Hl; simpl; [reflexivity|].
  assert (Hw : scan_wall p v sc (Z.of_nat k) w = sc).
  { unfold scan_wall. destruct (candidate p v w) as [[t u]|] eqn:Hc; [|reflexivity].
    specialize (Hl 0%nat w t u eq_refl Hc). rewrite Nat.add_0_r in Hl.
    rewrite Hl. reflexivity. }
  rewrite Hw. replace (Z.of_nat k + 1)%Z with (Z.of_nat (S k)) by lia.
  apply IH. intros j w' t u Hj Hc.
  replace (S k + j)%nat with (k + S j)%nat by lia. exact (Hl (S j) w' t u Hj Hc).
Qed.

(** The scan compares a valid candidate with the best hit kept so far only
    ([replaces_best]).  A valid candidate that wins this comparison against
    the initial state and against every valid candidate scanned before it,
    and against which no valid candidate scanned after it wins, is the
    selected hit. *)
Lemma scan_selects_dominant (i : nat) (w : WallSegment A) (t u : A) :
  nth_error ws i = Some w ->
  candidate p v w = Some (t, u) ->
  replaces_best scan_start (Z.of_nat i) w t = true ->
  (forall (j : nat) (w' : WallSegment A) (t' u' : A),
      nth_error ws j = Some w' -> candidate p v w' = Some (t', u') ->
      ((j < i)%nat ->
         replaces_best (scan_of (Z.of_nat j) w' t') (Z.of_nat i) w t = true)
      /\ ((i < j)%nat ->
            replaces_best (scan_of (Z.of_nat i) w t) (Z.of_nat j) w' t' = false)) ->
  scan_walls p v ws 0 scan_start = scan_of (Z.of_nat i) w t.
Proof.
  intros Hw Hc Hstart Hdom.
  destruct (nth_error_split ws i Hw) as (l1 & l2 & Hws & Hlen).
  assert (Hnth : forall j w', nth_error l1 j = Some w' -> nth_error ws (0 + j) = Some w').
  { intros j w' Hj. rewrite Hws. simpl. rewrite nth_error_app1; [exact Hj|].
    apply nth_error_Some. congruence. }
  pose proof (scan_walls_scanned l1 0 scan_start Hnth (or_introl eq_refl)) as Hpre.
  rewrite Hws at 1. rewrite scan_walls_app. cbn [scan_walls].
  change (Z.of_nat 0) with 0%Z in Hpre. rewrite Nat.add_0_l, Hlen in Hpre.
  rewrite Hlen, Z.add_0_l.
  set (sc := scan_walls p v l1 0 scan_start) in *.
  assert (Hhit : scan_wall p v sc (Z.of_nat i) w = scan_of (Z.of_nat i) w t).
  { unfold scan_wall. rewrite Hc.
    destruct Hpre as [Hsc|(j & w' & t' & u' & Hj & Hjw & Hjc & Hsc)]; rewrite Hsc.
    - rewrite Hstart. reflexivity.
    - destruct (Hdom j w' t' u' Hjw Hjc) as [Hwin _].
      rewrite (Hwin Hj). reflexivity. }
  rewrite Hhit. replace (Z.of_nat i + 1)%Z with (Z.of_nat (S i)) by lia.
  apply scan_walls_keeps. intros j w' t' u' Hj Hjc.
  assert (Hnth' : nth_error ws (S i + j) = Some w').
  { rewrite Hws. rewrite nth_error_app2 by lia.
    replace (S i + j - List.length l1)%nat with (S j) by lia. exact Hj. }
  destruct (Hdom (S i + j)%nat w' t' u' Hnth' Hjc) as [_ Hkeep].
  apply Hkeep. lia.
Qed.

End ScanFacts.

(* ================================================================= *)
(** ** Facts of binary64 arithmetic *)

Module Binary64Laws.
Local Open Scope float_scope.

Lemma SFcompare_antisym (a b : spec_float) :
  SFcompare b a = option_map CompOpp (SFcompare a b).
Proof.
  destruct a as [sa|sa| |sa ma ea], b as [sb|sb| |sb mb eb]; simpl; try reflexivity;
    try (destruct sa; reflexivity); try (destruct sb; reflexivity);
    try (destruct sa, sb; reflexivity).
  destruct sa, sb; try reflexivity;
    rewrite (Z.compare_antisym ea eb); destruct (ea ?= eb)%Z; simpl; try reflexivity;
    rewrite !Pos.compare_cont_spec; simpl; rewrite (Pos.compare_antisym ma mb);
    destruct (ma ?= mb)%positive; reflexivity.
Qed.


Lemma is_finite_SFfin (x : float) : is_finite x = true -> SFfin (Prim2SF x).
Proof.
  unfold is_finite, is_nan, is_infinity. rewrite !FloatAxioms.eqb_spec, abs_spec.
  destruct (Prim2SF x) as [s|s| |s m e]; simpl; auto.
  - intros Hf. destruct s; vm_compute in Hf; discriminate.
  - intros Hf. discriminate.
Qed.

Lemma SFzero_SFfin (x : spec_float) : SFzero x -> SFfin x.
Proof. intros [s ->]. exact I. Qed.

Lemma SFeqb_refl_fin (x : spec_float) : SFfin x -> SFeqb x x = true.
Proof.
  destruct x as [s|s| |s m e]; simpl; try contradiction; intros _;
    unfold SFeqb; simpl; auto.
  destruct s; rewrite Z.compare_refl, Pos.compare_cont_spec, Pos.compare_refl;
    reflexivity.
Qed.

(** A finite value times a zero is a zero. *)
Lemma mul_zero (x z : float) :
  SFfin (Prim2SF x) -> SFzero (Prim2SF z) -> SFzero (Prim2SF (x * z)).
Proof.
  intros Hx [s Hz]. rewrite mul_spec, Hz. unfold SF64mul.
  destruct (Prim2SF x) as [sx|sx| |sx mx ex]; simpl in *; try contradiction;
    eexists; reflexivity.
Qed.

Lemma add_zero (a b : float) :
  SFzero (Prim2SF a) -> SFzero (Prim2SF b) -> SFzero (Prim2SF (a + b)).
Proof.
  intros [s Ha] [t Hb]. rewrite add_spec, Ha, Hb. unfold SF64add; simpl.
  destruct s, t; eexists; reflexivity.
Qed.

(** Subtracting a zero from a finite value gives a value equal to it under
    [==] (the sign of a zero may change). *)
Lemma sub_zero_eqb (x z : float) :
  SFfin (Prim2SF x) -> SFzero (Prim2SF z) -> (x - z =? x) = true.
Proof.
  intros Hx [s Hz]. rewrite FloatAxioms.eqb_spec, sub_spec, Hz. unfold SF64sub.
  destruct (Prim2SF x) as [sx|sx| |sx mx ex] eqn:E; simpl in *; try contradiction.
  - destruct sx, s; reflexivity.
  - apply (SFeqb_refl_fin (S754_finite sx mx ex)). exact I.
Qed.

(** On finite vectors, reflecting across the zero vector changes nothing
    under [==]. *)
Lemma reflect_zero_normal_finite (v : Vec2 float) :
  is_finite (vx v) = true -> is_finite (vy v) = true ->
  let r := reflect_across_unit_normal v (mkVec2 0 0) in
  (vx r =? vx v) = true /\ (vy r =? vy v) = true.
Proof.
  intros Hx Hy. apply is_finite_SFfin in Hx, Hy.
  assert (H0 : SFzero (Prim2SF 0)) by (exists false; reflexivity).
  assert (H2 : SFfin (Prim2SF 2)) by exact I.
  assert (Hk : SFzero (Prim2SF (2 * (vx v * 0 + vy v * 0)))).
  { apply mul_zero; [exact H2|]. apply add_zero; apply mul_zero; assumption. }
  unfold reflect_across_unit_normal, dot, vsub, vscale; simpl.
  split; apply sub_zero_eqb; try assumption;
    apply mul_zero; [exact (SFzero_SFfin _ H0) | exact Hk | exact (SFzero_SFfin _ H0) | exact Hk].
Qed.

End Binary64Laws.

(* ================================================================= *)
(** ** Stored normals *)

Section Normals.
Import ExactLaws.

Lemma add_segment_returns {A : Type} `{Scalar A} (NDEBUG : bool)
  (world world' : ReflectingWorld A) (a b n : Vec2 A) (i : Z) :
  add_segment NDEBUG world a b n i = Returns world' ->
  world' = push_back world (WallSegment_ctor a b (normalize n) i).
Proof.
  unfold add_segment, bind. 
  destruct (assert NDEBUG _ _); [|discriminate].
  destruct (assert NDEBUG _ _); [|discriminate].
  intros Heq. injection Heq as <-. reflexivity.
Qed.

Lemma add_segment_auto_returns {A : Type} `{Scalar A} (NDEBUG : bool)
  (world world' : ReflectingWorld A) (a b : Vec2 A) (inward : bool) (i : Z) :
  add_segment_auto NDEBUG world a b inward i = Returns world' ->
  let t_hat := normalize (mkVec2 (s_sub (vx b) (vx a)) (s_sub (vy b) (vy a))) in
  let n := mkVec2 (s_opp (vy t_hat)) (vx t_hat) in
  world' = push_back world
             (WallSegment_ctor a b
                (if inward then mkVec2 (s_opp (vx n)) (s_opp (vy n)) else n) i).
Proof.
  unfold add_segment_auto, fromSegmentAutoNormal, bind.
  destruct (assert NDEBUG _ _); [|discriminate].
  destruct (assert NDEBUG _ _); [|discriminate].
  intros Heq. injection Heq as <-. reflexivity.
Qed.

Lemma norm_left_normal (t : Vec2 R) :
  norm (mkVec2 (- vy t)%R (vx t)) = norm t
  /\ norm (mkVec2 (- - vy t)%R (- vx t)%R) = norm t.
Proof.
  unfold norm; simpl. split; f_equal; ring.
Qed.

End Normals.

(* ================================================================= *)
(** ** The builders' assertions *)

Section Builders.
Local Open Scope scalar_scope.
Import Binary64Laws.





End Builders.

Section BuildersRelease.
Local Open Scope float_scope.


End BuildersRelease.

(* ================================================================= *)
(** ** The early exit *)

Section EarlyExit.
Import ExactLaws.

Lemma exact_no_meaningful_displacement (v : Vec2 R) :
  no_meaningful_displacement v = true
  <-> (Rabs (vx v) <= EPS_DIR /\ Rabs (vy v) <= EPS_DIR)%R.
Proof.
  unfold no_meaningful_displacement.
  change (s_leb (s_abs (vx v)) EPS_DIR) with (Rleb (Rabs (vx v)) EPS_DIR).
  change (s_leb (s_abs (vy v)) EPS_DIR) with (Rleb (Rabs (vy v)) EPS_DIR).
  rewrite andb_true_iff, !Rleb_true. reflexivity.
Qed.

(** C3, as amended.  The early exit tests the two components, not the
    Euclidean norm: when [|v.x| <= EPS_DIR] and [|v.y| <= EPS_DIR] the
    position is returned unchanged, whatever the scene, and otherwise the
    bounce loop runs.  In exact arithmetic the test passes whenever
    [||v|| <= EPS_DIR], it fails exactly when [|v.x| > EPS_DIR] or
    [|v.y| > EPS_DIR], and then [||v|| > EPS_DIR]. *)
Theorem advance_early_exit :
  (forall (A : Type) (arith : Scalar A) (ext : ExtendedScalar A)
      (x v : Vec2 A) (world : ReflectingWorld A),
      (no_meaningful_displacement v = true ->
         advance_with_reflections x v world = x)
      /\ (no_meaningful_displacement v = false ->
            advance_with_reflections x v world
            = l_p (bounce_loop world MAX_REFLECTIONS 0 x v)))
  /\ (forall v : Vec2 R,
        ((norm v <= EPS_DIR)%R -> no_meaningful_displacement v = true)
        /\ (no_meaningful_displacement v = false
            <-> (Rabs (vx v) > EPS_DIR \/ Rabs (vy v) > EPS_DIR)%R)
        /\ (no_meaningful_displacement v = false -> (norm v > EPS_DIR)%R)).
Proof.
  split.
  - intros A arith ext x v world. unfold advance_with_reflections.
    split; intros Hv; rewrite Hv; reflexivity.
  - intros v.
    assert (Hiff : no_meaningful_displacement v = false
                   <-> (Rabs (vx v) > EPS_DIR \/ Rabs (vy v) > EPS_DIR)%R).
    { rewrite <- not_true_iff_false, exact_no_meaningful_displacement. split.
      - intros Hn. destruct (Rle_dec (Rabs (vx v)) EPS_DIR) as [Hx|Hx]; [|left; lra].
        destruct (Rle_dec (Rabs (vy v)) EPS_DIR) as [Hy|Hy]; [|right; lra].
        exfalso; apply Hn; split; assumption.
      - intros [Hx|Hy] [Hx' Hy']; lra. }
    split; [|split].
    + intros Hn. apply exact_no_meaningful_displacement.
      apply norm_zero_components. exact Hn.
    + exact Hiff.
    + intros Hv. apply Hiff in Hv.
      destruct (norm_zero_components v (norm v) (Rle_refl _)) as [Hx Hy].
      destruct Hv; lra.
Qed.

End EarlyExit.

(* ================================================================= *)
(** ** The code on concrete inputs, in binary64 *)

Module Runs.
Import Scenes.
Local Open Scope float_scope.

(** The unit box is what the builder makes, in either build. *)
Lemma unit_box_built (NDEBUG : bool) :
  add_inward_box NDEBUG empty_world 0 1 0 1 100 = Returns unit_box.
Proof. destruct NDEBUG; vm_compute; reflexivity. Qed.

(** Vertical walls are what [add_segment] stores, in either build. *)
Lemma vertical_wall_built (NDEBUG : bool) :
  (w <- add_segment NDEBUG empty_world
          (mkVec2 g_far (-1)) (mkVec2 g_far 1) (mkVec2 (-1) 0) 1 ;;
   add_segment NDEBUG w (mkVec2 g_near (-1)) (mkVec2 g_near 1) (mkVec2 (-1) 0) 2)
  = Returns gap_far_first
  /\ (w <- add_segment NDEBUG empty_world
             (mkVec2 g_near (-1)) (mkVec2 g_near 1) (mkVec2 (-1) 0) 2 ;;
      add_segment NDEBUG w (mkVec2 g_far (-1)) (mkVec2 g_far 1) (mkVec2 (-1) 0) 1)
     = Returns gap_near_first
  /\ (w <- add_segment NDEBUG empty_world
             (mkVec2 t_far (-1)) (mkVec2 t_far 1) (mkVec2 (-1) 0) 0 ;;
      w <- add_segment NDEBUG w
             (mkVec2 t_mid (-1)) (mkVec2 t_mid 1) (mkVec2 (-1) 0) 1 ;;
      add_segment NDEBUG w (mkVec2 t_near (-1)) (mkVec2 t_near 1) (mkVec2 (-1) 0) 2)
     = Returns (mkWorld chain_far_first).
Proof. destruct NDEBUG; vm_compute; repeat split. Qed.

(** C1: a start inside the unit box, aimed at the corner [(1,0)].  The
    first pass hits the bottom and the right wall at [t = 0.5]; the bottom
    wall has the lower id, the position becomes [(1, 1e-12)] and the
    displacement [(0.5, 0.5)].  In the second pass the right wall is hit at
    [t = 0], which the test [t <= EPS_POS] rejects, and the point leaves the
    box through it. *)
Theorem box_corner_escape :
  bounce_pass unit_box (mkVec2 0.5 0.5) (mkVec2 1 (-1))
  = Bounced (mkVec2 1 1e-12) (mkVec2 0.5 0.5)
  /\ candidate (mkVec2 1 1e-12) (mkVec2 0.5 0.5)
       (WallSegment_ctor (mkVec2 1 0) (mkVec2 1 1) (mkVec2 (-1) 0) 101) = None
  /\ bounce_pass unit_box (mkVec2 1 1e-12) (mkVec2 0.5 0.5)
     = Unobstructed (mkVec2 1.5 0.50000000000099998)
  /\ advance_with_reflections (mkVec2 0.5 0.5) (mkVec2 1 (-1)) unit_box
     = mkVec2 1.5 0.50000000000099998
  /\ (vx (advance_with_reflections (mkVec2 0.5 0.5) (mkVec2 1 (-1)) unit_box) <=? 1)
     = false.
Proof. vm_compute. repeat split. Qed.

(** A displacement of [1e-13] against the empty scene: the position stays
    at the origin, which is not [x + d]. *)
Lemma tiny_step_is_dropped :
  advance_with_reflections (mkVec2 0 0) (mkVec2 1e-13 0) empty_world = mkVec2 0 0
  /\ vadd (mkVec2 0 0) (mkVec2 1e-13 0) = mkVec2 1e-13 0
  /\ advance_with_reflections (mkVec2 0 0) (mkVec2 1e-13 0) empty_world
     <> vadd (mkVec2 0 0) (mkVec2 1e-13 0).
Proof.
  repeat split. intros Heq.
  apply (f_equal (fun r => vx r =? 0)) in Heq. vm_compute in Heq. discriminate.
Qed.

(** The displacement [(1e-12, 1e-12)] has norm [1.41e-12 > EPS_DIR], and
    the early exit is taken all the same: the position does not move, in
    the empty scene either. *)
Lemma early_exit_beyond_norm :
  (EPS_DIR <? norm (mkVec2 1e-12 1e-12)) = true
  /\ no_meaningful_displacement (mkVec2 1e-12 1e-12) = true
  /\ advance_with_reflections (mkVec2 0 0) (mkVec2 1e-12 1e-12) empty_world
     = mkVec2 0 0.
Proof. vm_compute. repeat split. Qed.

(** The first test of the repository: no wall, a step to the right. *)
Lemma advance_empty_scene_witness :
  no_meaningful_displacement (mkVec2 1 0) = false
  /\ advance_with_reflections (mkVec2 0 0) (mkVec2 1 0) empty_world
     = vadd (mkVec2 0 0) (mkVec2 1 0).
Proof.
  split; [reflexivity|].
  exact (proj1 (advance_empty_scene (mkVec2 0 0) (mkVec2 1 0)) eq_refl).
Defined.

(** A step of [1e-13] in each direction inside the unit box is dropped. *)
Lemma advance_early_exit_witness :
  no_meaningful_displacement (mkVec2 1e-13 (-1e-13)) = true
  /\ advance_with_reflections (mkVec2 0.5 0.5) (mkVec2 1e-13 (-1e-13)) unit_box
     = mkVec2 0.5 0.5.
Proof.
  split; [reflexivity|].
  exact (proj1 (proj1 advance_early_exit float binary64 binary64_ext
                  (mkVec2 0.5 0.5) (mkVec2 1e-13 (-1e-13)) unit_box) eq_refl).
Defined.


(** The seven tests of tests/test_reflecting_world.cpp, with their
    expectations.  (Test 5 numbers the walls of its box from 10; only the
    order of the ids matters to the scan.) *)
Lemma repository_tests :
  let floor :=
    mkWorld [WallSegment_ctor (mkVec2 (-10) 0) (mkVec2 10 0) (mkVec2 0 1) (-1)] in
  add_segment false empty_world (mkVec2 (-10) 0) (mkVec2 10 0) (mkVec2 0 1) (-1)
  = Returns floor
  (* 1. NoCollisionMovesFreely *)
  /\ advance_with_reflections (mkVec2 0 0) (mkVec2 1 0) empty_world = mkVec2 1 0
  (* 2. NormalIncidenceReflectsBack *)
  /\ (let pos := advance_with_reflections (mkVec2 0 1) (mkVec2 0 (-2)) floor in
      (abs (vx pos - 0) <=? 1e-12) && (abs (vy pos - 1) <=? 1e-9) = true)
  (* 3. ObliqueIncidenceReflectsSymmetrically *)
  /\ (0 <? vy (advance_with_reflections (mkVec2 0 1) (mkVec2 1 (-2)) floor)) = true
  (* 4. StartOnWallMovesInward *)
  /\ (0 <? vy (advance_with_reflections (mkVec2 0 0) (mkVec2 0 1) floor)) = true
  (* 5. CornerHitResolvesDeterministically *)
  /\ (let pos := advance_with_reflections (mkVec2 0 1) (mkVec2 1 (-1)) unit_box in
      (0 <=? vy pos) && (vx pos <=? 1) = true)
  (* 6. MultiBounceInBox *)
  /\ (let pos := advance_with_reflections (mkVec2 0.5 0.5) (mkVec2 5 0) unit_box in
      (0 <=? vx pos) && (vx pos <=? 1) && (0 <=? vy pos) && (vy pos <=? 1) = true)
  (* 7. GrazingTrajectoryIsStable *)
  /\ (let pos := advance_with_reflections (mkVec2 0 1) (mkVec2 10 (-1e-13)) floor in
      (abs (vx pos - 10) <=? 1e-9) && (0 <? vy pos) = true).
Proof. vm_compute. repeat split. Qed.

(** In binary64 the three laws of the reflection fail.  The normal
    [(0.6, 0.8)] has norm 1 there; reflecting [(0.1, 0.2)] across it twice
    gives [(0.10000000000000006, 0.20000000000000007)], reflecting it once
    changes its norm in the last place, and changes its component along
    [(0.8, -0.6)], which is orthogonal to the normal in binary64 too. *)
Lemma reflection_laws_fail_in_binary64 :
  norm (mkVec2 0.6 0.8) = 1
  /\ reflect_across_unit_normal
       (reflect_across_unit_normal (mkVec2 0.1 0.2) (mkVec2 0.6 0.8)) (mkVec2 0.6 0.8)
     = mkVec2 0.10000000000000006 0.20000000000000007
  /\ (0.10000000000000006 =? 0.1) = false /\ (0.20000000000000007 =? 0.2) = false
  /\ norm (mkVec2 0.1 0.2) = 0.22360679774997899
  /\ norm (reflect_across_unit_normal (mkVec2 0.1 0.2) (mkVec2 0.6 0.8))
     = 0.22360679774997905
  /\ dot (mkVec2 0.8 (-0.6)) (mkVec2 0.6 0.8) = 0
  /\ dot (mkVec2 0.1 0.2) (mkVec2 0.8 (-0.6)) = -0.03999999999999998
  /\ dot (reflect_across_unit_normal (mkVec2 0.1 0.2) (mkVec2 0.6 0.8))
       (mkVec2 0.8 (-0.6))
     = -0.039999999999999966.
Proof. vm_compute. repeat split. Qed.

(** C4.  Three vertical walls that a ray from the origin along [(1,0)] hits
    at [0.5], [0.5 + 2^-50] and [0.5 + 2^-49], with the ids 2, 1 and 0: all
    three are valid candidates, neighbours are within [1e-15] of each other
    and the outer two are not.
    Inserted near wall first, the scan selects the far wall (id 0), although
    the near wall is hit earlier, by more than [1e-15] also in the code's own
    comparison [t < best_t - 1e-15]: the selected hit is not the candidate
    with the smallest [t].
    Inserted far wall first, the scan selects the near wall (id 2), although
    the middle wall is within [1e-15] of it and has the lower id 1.
    Neither result follows the rule of the specification. *)
Theorem chained_ties_break_the_rule :
  candidate (mkVec2 0 0) (mkVec2 1 0) (vertical_wall t_near 2) = Some (t_near, 0.5)
  /\ candidate (mkVec2 0 0) (mkVec2 1 0) (vertical_wall t_mid 1) = Some (t_mid, 0.5)
  /\ candidate (mkVec2 0 0) (mkVec2 1 0) (vertical_wall t_far 0) = Some (t_far, 0.5)
  /\ tied t_mid t_near = true /\ tied t_far t_mid = true /\ tied t_far t_near = false
  /\ scan_walls (mkVec2 0 0) (mkVec2 1 0) chain_far_first 0 scan_start
     = scan_of 2 (vertical_wall t_near 2) t_near
  /\ scan_walls (mkVec2 0 0) (mkVec2 1 0) chain_near_first 0 scan_start
     = scan_of 2 (vertical_wall t_far 0) t_far
  /\ ~ spec_earliest_hit (mkVec2 0 0) (mkVec2 1 0) chain_far_first
        (scan_walls (mkVec2 0 0) (mkVec2 1 0) chain_far_first 0 scan_start)
  /\ ~ spec_earliest_hit (mkVec2 0 0) (mkVec2 1 0) chain_near_first
        (scan_walls (mkVec2 0 0) (mkVec2 1 0) chain_near_first 0 scan_start)
  /\ (t_near <? t_far - 1e-15) = true
  /\ (best_t (scan_walls (mkVec2 0 0) (mkVec2 1 0) chain_near_first 0 scan_start)
      <=? t_near) = false
  /\ Z.ltb (id (vertical_wall t_mid 1))
       (hit_id (scan_walls (mkVec2 0 0) (mkVec2 1 0) chain_far_first 0 scan_start))
     = true.
Proof.
  do 8 (split; [vm_compute; reflexivity|]). split; [|split].
  - intros Hrule.
    specialize (Hrule 1%nat (vertical_wall t_mid 1) t_mid 0.5 eq_refl eq_refl).
    vm_compute in Hrule.
    destruct Hrule as [Hlt|[Heq _]]; [discriminate | discriminate | discriminate].
  - intros Hrule.
    specialize (Hrule 0%nat (vertical_wall t_near 2) t_near 0.5 eq_refl eq_refl).
    vm_compute in Hrule.
    assert (Hne : 0%Z <> 2%Z) by discriminate.
    specialize (Hrule Hne). discriminate.
  - repeat split; vm_compute; reflexivity.
Qed.

(** In [tie_by_id] the third wall is hit later than the second, within the
    tolerance, and has the lower id: it replaces both walls scanned before
    it, the fourth wall does not replace it, and it is the selected hit. *)
Lemma scan_selects_dominant_witness :
  nth_error tie_by_id 2 = Some (vertical_wall t_mid 7)
  /\ candidate (mkVec2 0 0) (mkVec2 1 0) (vertical_wall t_mid 7) = Some (t_mid, 0.5)
  /\ replaces_best scan_start 2 (vertical_wall t_mid 7) t_mid = true
  /\ scan_walls (mkVec2 0 0) (mkVec2 1 0) tie_by_id 0 scan_start
     = scan_of 2 (vertical_wall t_mid 7) t_mid.
Proof.
  do 3 (split; [reflexivity|]).
  apply (scan_selects_dominant (mkVec2 0 0) (mkVec2 1 0) tie_by_id 2
           (vertical_wall t_mid 7) t_mid 0.5); try reflexivity.
  intros j w' t' u' Hnth Hc.
  destruct j as [|[|[|[|j]]]]; simpl in Hnth.
  - injection Hnth as <-. vm_compute in Hc. injection Hc as <- <-.
    split; [intros _; vm_compute; reflexivity | intros Hj; exfalso; lia].
  - injection Hnth as <-. vm_compute in Hc. injection Hc as <- <-.
    split; [intros _; vm_compute; reflexivity | intros Hj; exfalso; lia].
  - split; intros Hj; exfalso; lia.
  - injection Hnth as <-. vm_compute in Hc. injection Hc as <- <-.
    split; [intros Hj; exfalso; lia | intros _; vm_compute; reflexivity].
  - destruct j; discriminate.
Defined.

(** The cap is reached: from the centre of the unit box, a displacement of
    [(100, 0)] bounces between the left and the right wall 64 times; the
    point is left where the last bounce put it, [1e-12] off the left wall,
    and the [36.5] still to move are dropped. *)
Lemma advance_bounce_cap_witness :
  no_meaningful_displacement (mkVec2 100 0) = false
  /\ bounce_chain unit_box MAX_REFLECTIONS (mkVec2 0.5 0.5) (mkVec2 100 0)
     = Some (mkVec2 1e-12 0.5, mkVec2 36.500000000062997 0)
  /\ (l_bounces (bounce_loop unit_box MAX_REFLECTIONS 0 (mkVec2 0.5 0.5) (mkVec2 100 0))
      = MAX_REFLECTIONS
      /\ no_meaningful_displacement (mkVec2 36.500000000062997 0) = false
      /\ advance_with_reflections (mkVec2 0.5 0.5) (mkVec2 100 0) unit_box
         = mkVec2 1e-12 0.5).
Proof.
  assert (Hc : bounce_chain unit_box MAX_REFLECTIONS (mkVec2 0.5 0.5) (mkVec2 100 0)
               = Some (mkVec2 1e-12 0.5, mkVec2 36.500000000062997 0))
    by (vm_compute; reflexivity).
  split; [reflexivity|]. split; [exact Hc|].
  exact (proj2 (proj2 (proj2
           (advance_bounce_cap (mkVec2 0.5 0.5) (mkVec2 100 0) unit_box)))
           _ _ eq_refl Hc).
Defined.

(** C8: two parallel walls [1.00007e-15] apart, hit at [g_far] and at
    [g_near = fl(g_far - 1e-15)].  The two hits are not tied, and
    [g_near < g_far]; but [g_near < g_far - 1e-15] is false in binary64,
    because the right-hand side rounds to [g_near] itself.  So the wall
    scanned first is kept in either order, and the results differ. *)
Theorem insertion_order_changes_result :
  candidate (mkVec2 0 0) (mkVec2 1 0) (vertical_wall g_far 1) = Some (g_far, 0.5)
  /\ candidate (mkVec2 0 0) (mkVec2 1 0) (vertical_wall g_near 2) = Some (g_near, 0.5)
  /\ (g_near <? g_far) = true
  /\ tied g_near g_far = false /\ tied g_far g_near = false
  /\ (1e-15 <? g_far - g_near) = true
  /\ g_far - 1e-15 = g_near
  /\ scan_walls (mkVec2 0 0) (mkVec2 1 0) (walls gap_far_first) 0 scan_start
     = scan_of 0 (vertical_wall g_far 1) g_far
  /\ scan_walls (mkVec2 0 0) (mkVec2 1 0) (walls gap_near_first) 0 scan_start
     = scan_of 0 (vertical_wall g_near 2) g_near
  /\ advance_with_reflections (mkVec2 0 0) (mkVec2 1 0) gap_far_first
     = mkVec2 (-0.98828125000099998) 0
  /\ advance_with_reflections (mkVec2 0 0) (mkVec2 1 0) gap_near_first
     = mkVec2 (-0.98828125000100198) 0
  /\ (vx (advance_with_reflections (mkVec2 0 0) (mkVec2 1 0) gap_far_first)
       =? vx (advance_with_reflections (mkVec2 0 0) (mkVec2 1 0) gap_near_first))
     = false.
Proof. vm_compute. repeat split. Qed.

End Runs.

(* ================================================================= *)
(** ** The builders' geometry, in exact arithmetic *)

Module Geometry.
Import ExactLaws.
Local Open Scope R_scope.

Lemma norm_pos_dot (v : Vec2 R) : 0 <= norm v.
Proof. unfold norm; simpl. apply sqrt_pos. Qed.

Lemma normalized_components (v : Vec2 R) (eps : R) :
  eps < norm v ->
  normalized v eps = mkVec2 (vx v / norm v) (vy v / norm v).
Proof.
  intros Hv. apply Rleb_false in Hv. unfold normalized.
  change (s_leb (norm v) eps) with (Rleb (norm v) eps). rewrite Hv. reflexivity.
Qed.

(** A vector of norm 1 is its own [normalize]. *)
Lemma normalize_unit (v : Vec2 R) : norm v = 1 -> normalize v = v.
Proof.
  intros Hv. rewrite normalize_normalized, normalized_components.
  - rewrite Hv. apply vec2_eq; simpl; field.
  - rewrite Hv. pose proof EPS_DIR_pos. unfold EPS_DIR in *; simpl in *. lra.
Qed.

Lemma norm_axis :
  norm (mkVec2 0 1) = 1 /\ norm (mkVec2 (-1) 0) = 1
  /\ norm (mkVec2 0 (-1)) = 1 /\ norm (mkVec2 1 0) = 1.
Proof.
  unfold norm; simpl. repeat split.
  - replace (0 * 0 + 1 * 1) with 1 by ring. apply sqrt_1.
  - replace (-1 * -1 + 0 * 0) with 1 by ring. apply sqrt_1.
  - replace (0 * 0 + -1 * -1) with 1 by ring. apply sqrt_1.
  - replace (1 * 1 + 0 * 0) with 1 by ring. apply sqrt_1.
Qed.

Lemma is_zero_vec_unit (v : Vec2 R) : norm v = 1 -> is_zero_vec v = false.
Proof.
  intros Hv. unfold is_zero_vec.
  change (s_eqb (vx v) s_zero) with (Reqb (vx v) 0).
  change (s_eqb (vy v) s_zero) with (Reqb (vy v) 0).
  unfold Reqb. destruct (Req_dec_T (vx v) 0) as [Hx|]; [|reflexivity].
  destruct (Req_dec_T (vy v) 0) as [Hy|]; [|reflexivity].
  exfalso. apply unit_dot in Hv. unfold dot in Hv; simpl in Hv.
  rewrite Hx, Hy in Hv. lra.
Qed.

Lemma nearly_zero_iff (ab : Vec2 R) :
  nearly_zero ab = true <-> Rabs (vx ab) <= EPS_DIR /\ Rabs (vy ab) <= EPS_DIR.
Proof.
  unfold nearly_zero.
  change (s_leb (s_abs (vx ab)) EPS_DIR) with (Rleb (Rabs (vx ab)) EPS_DIR).
  change (s_leb (s_abs (vy ab)) EPS_DIR) with (Rleb (Rabs (vy ab)) EPS_DIR).
  rewrite andb_true_iff, !Rleb_true. reflexivity.
Qed.

(** In exact arithmetic [add_segment] answers the same in both builds when
    the segment passes the degenerate test and the normal is longer than
    [EPS_DIR]. *)
Lemma add_segment_ok (NDEBUG : bool) (world : ReflectingWorld R)
  (a b n : Vec2 R) (i : Z) :
  nearly_zero (mkVec2 (vx b - vx a) (vy b - vy a)) = false ->
  EPS_DIR < norm n ->
  add_segment NDEBUG world a b n i
  = Returns (push_back world (WallSegment_ctor a b (normalize n) i)).
Proof.
  intros Hd Hn. unfold add_segment, bind, assert. cbv zeta.
  change (mkVec2 (s_sub (vx b) (vx a)) (s_sub (vy b) (vy a)))
    with (mkVec2 (vx b - vx a) (vy b - vy a)).
  rewrite Hd.
  assert (Hz : is_zero_vec (normalize n) = false).
  { apply is_zero_vec_unit. rewrite normalize_normalized.
    apply normalized_unit; [apply Rlt_le, EPS_DIR_pos | exact Hn]. }
  rewrite Hz. destruct NDEBUG; reflexivity.
Qed.

(** A sum of [int]s that is representable is the sum. *)
Lemma int_add_representable (a b : Z) :
  (INT_MIN <= a + b <= INT_MAX)%Z -> int_add a b = (a + b)%Z.
Proof.
  unfold int_add, INT_MIN, INT_MAX. intros Hr.
  rewrite Z.mod_small; lia.
Qed.

(** What [add_inward_box] appends when it returns, in any arithmetic. *)
Lemma add_inward_box_returns {A : Type} `{Scalar A} (NDEBUG : bool)
  (world world' : ReflectingWorld A) (xmin xmax ymin ymax : A) (base_id : Z) :
  add_inward_box NDEBUG world xmin xmax ymin ymax base_id = Returns world' ->
  walls world'
  = (walls world
     ++ [ WallSegment_ctor (mkVec2 xmin ymin) (mkVec2 xmax ymin)
            (normalize (mkVec2 s_zero s_one)) (int_add base_id 0);
          WallSegment_ctor (mkVec2 xmax ymin) (mkVec2 xmax ymax)
            (normalize (mkVec2 (s_opp s_one) s_zero)) (int_add base_id 1);
          WallSegment_ctor (mkVec2 xmax ymax) (mkVec2 xmin ymax)
            (normalize (mkVec2 s_zero (s_opp s_one))) (int_add base_id 2);
          WallSegment_ctor (mkVec2 xmin ymax) (mkVec2 xmin ymin)
            (normalize (mkVec2 s_one s_zero)) (int_add base_id 3) ])%list.
Proof.
  unfold add_inward_box, bind.
  destruct (assert NDEBUG _ _); [|discriminate].
  destruct (add_segment NDEBUG world _ _ _ _) as [w1|] eqn:H1; [|discriminate].
  destruct (add_segment NDEBUG w1 _ _ _ _) as [w2|] eqn:H2; [|discriminate].
  destruct (add_segment NDEBUG w2 _ _ _ _) as [w3|] eqn:H3; [|discriminate].
  intros H4.
  apply add_segment_returns in H1, H2, H3, H4. subst. simpl.
  rewrite <- !app_assoc. reflexivity.
Qed.

(** The four ids of a box, when [base_id + 3] is representable. *)
Lemma box_ids (base_id : Z) :
  (INT_MIN <= base_id <= INT_MAX - 3)%Z ->
  int_add base_id 0 = base_id /\ int_add base_id 1 = (base_id + 1)%Z
  /\ int_add base_id 2 = (base_id + 2)%Z /\ int_add base_id 3 = (base_id + 3)%Z.
Proof.
  intros Hr. rewrite !int_add_representable by lia.
  rewrite Z.add_0_r. repeat split.
Qed.

Lemma normalize_axes :
  normalize (mkVec2 0 1) = mkVec2 0 1
  /\ normalize (mkVec2 (-1) 0) = mkVec2 (-1) 0
  /\ normalize (mkVec2 0 (-1)) = mkVec2 0 (-1)
  /\ normalize (mkVec2 1 0) = mkVec2 1 0.
Proof.
  destruct norm_axis as (H1 & H2 & H3 & H4).
  repeat split; apply normalize_unit; assumption.
Qed.

(** X1.  When [add_inward_box] returns, the scene is the one it was given
    followed by exactly four walls: bottom, right, top, left, with the
    inward normals [(0,1)], [(-1,0)], [(0,-1)], [(1,0)] and, for a [base_id]
    such that [base_id + 3] is representable in [int], the ids [base_id],
    ..., [base_id + 3]; in binary64 and in exact arithmetic. *)
Theorem add_inward_box_walls :
  (forall (NDEBUG : bool) (world world' : ReflectingWorld float)
      (xmin xmax ymin ymax : float) (base_id : Z),
      (INT_MIN <= base_id <= INT_MAX - 3)%Z ->
      add_inward_box NDEBUG world xmin xmax ymin ymax base_id = Returns world' ->
      walls world'
      = (walls world
         ++ [ WallSegment_ctor (mkVec2 xmin ymin) (mkVec2 xmax ymin)
                (mkVec2 0 1)%float base_id;
              WallSegment_ctor (mkVec2 xmax ymin) (mkVec2 xmax ymax)
                (mkVec2 (-1) 0)%float (base_id + 1);
              WallSegment_ctor (mkVec2 xmax ymax) (mkVec2 xmin ymax)
                (mkVec2 0 (-1))%float (base_id + 2);
              WallSegment_ctor (mkVec2 xmin ymax) (mkVec2 xmin ymin)
                (mkVec2 1 0)%float (base_id + 3) ])%list)
  /\ (forall (NDEBUG : bool) (world world' : ReflectingWorld R)
        (xmin xmax ymin ymax : R) (base_id : Z),
        (INT_MIN <= base_id <= INT_MAX - 3)%Z ->
        add_inward_box NDEBUG world xmin xmax ymin ymax base_id = Returns world' ->
        walls world'
        = (walls world
           ++ [ WallSegment_ctor (mkVec2 xmin ymin) (mkVec2 xmax ymin)
                  (mkVec2 0 1) base_id;
                WallSegment_ctor (mkVec2 xmax ymin) (mkVec2 xmax ymax)
                  (mkVec2 (-1) 0) (base_id + 1);
                WallSegment_ctor (mkVec2 xmax ymax) (mkVec2 xmin ymax)
                  (mkVec2 0 (-1)) (base_id + 2);
                WallSegment_ctor (mkVec2 xmin ymax) (mkVec2 xmin ymin)
                  (mkVec2 1 0) (base_id + 3) ])%list).
Proof.
  split.
  - intros NDEBUG world world' xmin xmax ymin ymax base_id Hid Hr.
    apply add_inward_box_returns in Hr.
    destruct (box_ids base_id Hid) as (I0 & I1 & I2 & I3).
    rewrite Hr, I0, I1, I2, I3. reflexivity.
  - intros NDEBUG world world' xmin xmax ymin ymax base_id Hid Hr.
    apply add_inward_box_returns in Hr.
    destruct (box_ids base_id Hid) as (I0 & I1 & I2 & I3).
    rewrite Hr, I0, I1, I2, I3.
    destruct normalize_axes as (H1 & H2 & H3 & H4).
    change (@s_zero R reals) with 0. change (@s_one R reals) with 1.
    change (@s_opp R reals 1) with (-1).
    rewrite H1, H2, H3, H4. reflexivity.
Qed.

(** X2.  In exact arithmetic and in a debug build, [add_inward_box] returns
    exactly when both sides of the box are longer than [EPS_DIR]: bounds
    with [0 < xmax - xmin <= EPS_DIR] pass the assertion of the box and
    fail the one of [add_segment]. *)
Theorem add_inward_box_debug_succeeds_iff (world : ReflectingWorld R)
  (xmin xmax ymin ymax : R) (base_id : Z) :
  (exists world', add_inward_box false world xmin xmax ymin ymax base_id
                  = Returns world')
  <-> EPS_DIR < xmax - xmin /\ EPS_DIR < ymax - ymin.
Proof.
  pose proof EPS_DIR_pos as Heps.
  destruct norm_axis as (N1 & N2 & N3 & N4).
  assert (Hn : forall n : Vec2 R, norm n = 1 -> EPS_DIR < norm n).
  { intros n ->. unfold EPS_DIR; simpl. lra. }
  assert (Hdeg : forall dx dy : R,
             nearly_zero (mkVec2 dx dy) = false
             <-> ~ (Rabs dx <= EPS_DIR /\ Rabs dy <= EPS_DIR)).
  { intros dx dy. rewrite <- not_true_iff_false, nearly_zero_iff. reflexivity. }
  split.
  - intros [world' Hr]. unfold add_inward_box, bind in Hr.
    destruct (assert false _ _) eqn:Ha; [|discriminate].
    destruct (add_segment false world _ _ _ _) as [w1|] eqn:H1; [|discriminate].
    destruct (add_segment false w1 _ _ _ _) as [w2|] eqn:H2; [|discriminate].
    clear Hr.
    unfold assert in Ha.
    change (s_ltb xmin xmax) with (Rltb xmin xmax) in Ha.
    change (s_ltb ymin ymax) with (Rltb ymin ymax) in Ha.
    destruct (Rltb xmin xmax) eqn:Hx; [|discriminate].
    destruct (Rltb ymin ymax) eqn:Hy; [|discriminate].
    apply Rltb_true in Hx, Hy. clear Ha.
    unfold add_segment, bind, assert in H1, H2. cbv zeta in H1, H2.
    simpl vx in H1, H2. simpl vy in H1, H2.
    destruct (nearly_zero (mkVec2 (s_sub xmax xmin) (s_sub ymin ymin))) eqn:D1;
      [discriminate|].
    destruct (nearly_zero (mkVec2 (s_sub xmax xmax) (s_sub ymax ymin))) eqn:D2;
      [discriminate|].
    apply Hdeg in D1, D2.
    change (s_sub xmax xmin) with (xmax - xmin) in D1.
    change (s_sub ymin ymin) with (ymin - ymin) in D1.
    change (s_sub xmax xmax) with (xmax - xmax) in D2.
    change (s_sub ymax ymin) with (ymax - ymin) in D2.
    replace (ymin - ymin) with 0 in D1 by ring.
    replace (xmax - xmax) with 0 in D2 by ring.
    rewrite Rabs_R0 in D1, D2.
    rewrite (Rabs_right (xmax - xmin)) in D1 by lra.
    rewrite (Rabs_right (ymax - ymin)) in D2 by lra.
    split.
    + destruct (Rlt_dec EPS_DIR (xmax - xmin)); [assumption|].
      exfalso; apply D1; split; lra.
    + destruct (Rlt_dec EPS_DIR (ymax - ymin)); [assumption|].
      exfalso; apply D2; split; lra.
  - intros [Hx Hy].
    assert (Dx : forall y, nearly_zero (mkVec2 (xmax - xmin) y) = false).
    { intros y. apply Hdeg. intros [Hc _]. rewrite Rabs_right in Hc; lra. }
    assert (Dx' : forall y, nearly_zero (mkVec2 (xmin - xmax) y) = false).
    { intros y. apply Hdeg. intros [Hc _]. rewrite Rabs_left in Hc; lra. }
    assert (Dy : forall x, nearly_zero (mkVec2 x (ymax - ymin)) = false).
    { intros x. apply Hdeg. intros [_ Hc]. rewrite Rabs_right in Hc; lra. }
    assert (Dy' : forall x, nearly_zero (mkVec2 x (ymin - ymax)) = false).
    { intros x. apply Hdeg. intros [_ Hc]. rewrite Rabs_left in Hc; lra. }
    unfold add_inward_box, bind, assert.
    change (s_ltb xmin xmax) with (Rltb xmin xmax).
    change (s_ltb ymin ymax) with (Rltb ymin ymax).
    assert (Hbx : Rltb xmin xmax = true) by (apply Rltb_true; lra).
    assert (Hby : Rltb ymin ymax = true) by (apply Rltb_true; lra).
    rewrite Hbx, Hby. simpl andb. cbv iota.
    rewrite add_segment_ok; [| apply Dx | apply Hn, N1].
    rewrite add_segment_ok; [| apply Dy | apply Hn, N2].
    rewrite add_segment_ok; [| apply Dx' | apply Hn, N3].
    rewrite add_segment_ok; [| apply Dy' | apply Hn, N4].
    eexists. reflexivity.
Qed.

(** X3.  In exact arithmetic, for a segment longer than [EPS_DIR],
    [add_segment_auto] returns in both builds and appends one wall from [a]
    to [b] whose normal has norm 1, is orthogonal to [b - a], and lies on
    the left of the direction [a -> b] ([cross2 (b - a) n = ||b - a||]); with
    [inward] set it is the opposite vector. *)
Theorem add_segment_auto_normal (NDEBUG : bool) (world : ReflectingWorld R)
  (a b : Vec2 R) (inward : bool) (i : Z) :
  EPS_DIR < norm (vsub b a) ->
  exists w : WallSegment R,
    add_segment_auto NDEBUG world a b inward i = Returns (push_back world w)
    /\ p0 w = a /\ p1 w = b /\ id w = i
    /\ norm (n_hat w) = 1
    /\ dot (n_hat w) (vsub b a) = 0
    /\ cross2 (vsub b a) (n_hat w)
       = (if inward then - norm (vsub b a) else norm (vsub b a)).
Proof.
  intros Hlen. pose proof EPS_DIR_pos as Heps.
  set (t := vsub b a) in *.
  assert (Hpos : 0 < norm t) by lra.
  assert (Hth : normalize t = mkVec2 (vx t / norm t) (vy t / norm t)).
  { rewrite normalize_normalized. apply normalized_components. exact Hlen. }
  assert (Hunit : norm (normalize t) = 1).
  { rewrite normalize_normalized. apply normalized_unit; lra. }
  assert (Hsq : norm t * norm t = vx t * vx t + vy t * vy t)
    by (rewrite norm_sqr; reflexivity).
  set (n := mkVec2 (- vy (normalize t)) (vx (normalize t))).
  set (n' := if inward then mkVec2 (- vx n) (- vy n) else n).
  assert (Hn' : norm n' = 1).
  { destruct (norm_left_normal (normalize t)) as [Hl Hr].
    unfold n', n. destruct inward; cbn [vx vy]; rewrite <- Hunit; assumption. }
  exists (WallSegment_ctor a b n' i).
  split; [|repeat split; try exact Hn'].
  - unfold add_segment_auto, fromSegmentAutoNormal, bind, assert. cbv zeta.
    change (mkVec2 (s_sub (vx b) (vx a)) (s_sub (vy b) (vy a))) with t.
    rewrite (is_zero_vec_unit _ Hunit).
    change (mkVec2 (s_opp (vy (normalize t))) (vx (normalize t))) with n.
    change (if inward then mkVec2 (s_opp (vx n)) (s_opp (vy n)) else n) with n'.
    change (s_sqrt (s_add (s_mul (vx n') (vx n')) (s_mul (vy n') (vy n'))))
      with (norm n').
    rewrite Hn'.
    change (s_leb (s_abs (s_sub 1 s_one)) s_1em12)
      with (Rleb (Rabs (1 - 1)) (1 / 1000000000000)).
    assert (Hb : Rleb (Rabs (1 - 1)) (1 / 1000000000000) = true).
    { apply Rleb_true. replace (1 - 1) with 0 by ring. rewrite Rabs_R0. lra. }
    rewrite Hb. destruct NDEBUG; reflexivity.
  - simpl n_hat. unfold n', n. rewrite Hth. clear Hth Hunit Hn' n' n.
    remember (norm t) as N. clearbody t.
    destruct inward; unfold dot; simpl; field; lra.
  - simpl n_hat. unfold n', n. rewrite Hth. clear Hth Hunit Hn' n' n.
    remember (norm t) as N. clearbody t.
    destruct inward; unfold cross2; simpl.
    + transitivity (- ((vx t * vx t + vy t * vy t) / N)); [field; lra|].
      rewrite <- Hsq. field; lra.
    + transitivity ((vx t * vx t + vy t * vy t) / N); [field; lra|].
      rewrite <- Hsq. field; lra.
Qed.

Lemma add_segment_auto_normal_witness :
  EPS_DIR < norm (vsub (mkVec2 3 0) (mkVec2 0 0))
  /\ exists w : WallSegment R,
       add_segment_auto false empty_world (mkVec2 0 0) (mkVec2 3 0) false 5
       = Returns (push_back empty_world w)
       /\ p0 w = mkVec2 0 0 /\ p1 w = mkVec2 3 0 /\ id w = 5%Z
       /\ norm (n_hat w) = 1
       /\ dot (n_hat w) (vsub (mkVec2 3 0) (mkVec2 0 0)) = 0
       /\ cross2 (vsub (mkVec2 3 0) (mkVec2 0 0)) (n_hat w)
          = norm (vsub (mkVec2 3 0) (mkVec2 0 0)).
Proof.
  assert (Hn : EPS_DIR < norm (vsub (mkVec2 3 0) (mkVec2 0 0))).
  { unfold norm, vsub, EPS_DIR; simpl.
    replace ((3 - 0) * (3 - 0) + (0 - 0) * (0 - 0)) with (Rsqr 3)
      by (unfold Rsqr; ring).
    rewrite sqrt_Rsqr; lra. }
  split; [exact Hn|].
  exact (add_segment_auto_normal false empty_world (mkVec2 0 0) (mkVec2 3 0)
           false 5%Z Hn).
Defined.

(** X4.  In exact arithmetic, for a normal longer than [EPS_DIR], the wall
    that [add_half_plane_strip] appends lies on the line
    [{ x | n_hat . x = c }] of the normalized normal: both endpoints satisfy
    the equation, the segment is [span] times the left-hand perpendicular of
    [n_hat], its length is [|span|], it is centred on [c n_hat], and the
    stored normal is [n_hat], of norm 1. *)
Theorem add_half_plane_strip_geometry (NDEBUG : bool)
  (world world' : ReflectingWorld R) (n : Vec2 R) (c span : R) (i : Z) :
  EPS_DIR < norm n ->
  add_half_plane_strip NDEBUG world n c span i = Returns world' ->
  exists w : WallSegment R,
    world' = push_back world w
    /\ id w = i
    /\ n_hat w = normalize n /\ norm (n_hat w) = 1
    /\ dot (n_hat w) (p0 w) = c /\ dot (n_hat w) (p1 w) = c
    /\ vsub (p1 w) (p0 w)
       = vscale span (mkVec2 (- vy (normalize n)) (vx (normalize n)))
    /\ norm (vsub (p1 w) (p0 w)) = Rabs span
    /\ vadd (p0 w) (p1 w) = vscale (2 * c) (normalize n).
Proof.
  intros Hn Hr. pose proof EPS_DIR_pos as Heps.
  assert (Hunit : norm (normalize n) = 1).
  { rewrite normalize_normalized. apply normalized_unit; lra. }
  unfold add_half_plane_strip, bind in Hr. cbv zeta in Hr.
  destruct (assert NDEBUG _ _); [|discriminate].
  apply add_segment_returns in Hr. rewrite (normalize_unit _ Hunit) in Hr.
  pose proof (unit_dot _ Hunit) as Hdot. unfold dot in Hdot. simpl in Hdot.
  set (m := normalize n) in *. clearbody m.
  eexists. split; [exact Hr|]. clear Hr.
  simpl id. simpl n_hat. simpl p0. simpl p1.
  split; [reflexivity|]. split; [reflexivity|]. split; [exact Hunit|].
  assert (Hspan : vsub
                    (mkVec2 (vx m * c + 1 / 2 * span * - vy m)
                            (vy m * c + 1 / 2 * span * vx m))
                    (mkVec2 (vx m * c - 1 / 2 * span * - vy m)
                            (vy m * c - 1 / 2 * span * vx m))
                  = vscale span (mkVec2 (- vy m) (vx m))).
  { apply vec2_eq; unfold vsub, vscale; simpl; field. }
  repeat split.
  - unfold dot; simpl.
    transitivity (c * (vx m * vx m + vy m * vy m)); [ring|]. rewrite Hdot; ring.
  - unfold dot; simpl.
    transitivity (c * (vx m * vx m + vy m * vy m)); [ring|]. rewrite Hdot; ring.
  - exact Hspan.
  - change (norm (vsub
                    (mkVec2 (vx m * c + 1 / 2 * span * - vy m)
                            (vy m * c + 1 / 2 * span * vx m))
                    (mkVec2 (vx m * c - 1 / 2 * span * - vy m)
                            (vy m * c - 1 / 2 * span * vx m))) = Rabs span).
    rewrite Hspan. unfold norm, vscale; simpl.
    replace (- vy m * span * (- vy m * span) + vx m * span * (vx m * span))
      with (Rsqr span * (vx m * vx m + vy m * vy m)) by (unfold Rsqr; ring).
    rewrite Hdot, Rmult_1_r. apply sqrt_Rsqr_abs.
  - apply vec2_eq; unfold vadd, vscale; simpl; field.
Qed.

Lemma add_half_plane_strip_geometry_witness :
  EPS_DIR < norm (mkVec2 0 2)
  /\ exists w : WallSegment R,
       add_half_plane_strip true empty_world (mkVec2 0 2) 1 8 200
       = Returns (push_back empty_world w)
       /\ id w = 200%Z
       /\ n_hat w = normalize (mkVec2 0 2) /\ norm (n_hat w) = 1
       /\ dot (n_hat w) (p0 w) = 1 /\ dot (n_hat w) (p1 w) = 1
       /\ vsub (p1 w) (p0 w)
          = vscale 8 (mkVec2 (- vy (normalize (mkVec2 0 2)))
                             (vx (normalize (mkVec2 0 2))))
       /\ norm (vsub (p1 w) (p0 w)) = Rabs 8
       /\ vadd (p0 w) (p1 w) = vscale (2 * 1) (normalize (mkVec2 0 2)).
Proof.
  assert (Hn : EPS_DIR < norm (mkVec2 0 2)).
  { unfold norm, EPS_DIR; simpl.
    replace (0 * 0 + 2 * 2) with (Rsqr 2) by (unfold Rsqr; ring).
    rewrite sqrt_Rsqr; lra. }
  split; [exact Hn|].
  destruct (add_half_plane_strip_geometry true empty_world _ (mkVec2 0 2) 1 8
              200%Z Hn eq_refl) as (w & Hw & Hrest).
  exists w. split; [rewrite <- Hw; reflexivity | exact Hrest].
Defined.

(** X5.  In exact arithmetic, for [0 <= eps < ||v||], [normalized(eps)] is
    the unit vector along [v]: it has norm 1, scaling it by [||v||] gives
    [v] back, and its dot product with [v] is [||v||]. *)
Theorem normalized_direction (v : Vec2 R) (eps : R) :
  0 <= eps -> eps < norm v ->
  norm (normalized v eps) = 1
  /\ vscale (norm v) (normalized v eps) = v
  /\ dot v (normalized v eps) = norm v.
Proof.
  intros He Hv. split; [apply normalized_unit; assumption|].
  rewrite (normalized_components v eps Hv).
  assert (Hsq : norm v * norm v = vx v * vx v + vy v * vy v)
    by (rewrite norm_sqr; reflexivity).
  remember (norm v) as N. split.
  - apply vec2_eq; unfold vscale; simpl; field; lra.
  - unfold dot; simpl.
    transitivity ((vx v * vx v + vy v * vy v) / N); [field; lra|].
    rewrite <- Hsq. field; lra.
Qed.

Lemma normalized_direction_witness :
  0 <= 1 / 1000000000000 /\ 1 / 1000000000000 < norm (mkVec2 3 4)
  /\ norm (normalized (mkVec2 3 4) (1 / 1000000000000)) = 1
  /\ vscale (norm (mkVec2 3 4)) (normalized (mkVec2 3 4) (1 / 1000000000000))
     = mkVec2 3 4
  /\ dot (mkVec2 3 4) (normalized (mkVec2 3 4) (1 / 1000000000000))
     = norm (mkVec2 3 4).
Proof.
  assert (He : 0 <= 1 / 1000000000000) by lra.
  assert (Hn : 1 / 1000000000000 < norm (mkVec2 3 4)).
  { unfold norm; simpl.
    replace (3 * 3 + 4 * 4) with (Rsqr 5) by (unfold Rsqr; ring).
    rewrite sqrt_Rsqr; lra. }
  split; [exact He|]. split; [exact Hn|].
  exact (normalized_direction (mkVec2 3 4) (1 / 1000000000000) He Hn).
Defined.

(** X6.  In exact arithmetic, for any normal [n], unit or not,
    [reflect_across_unit_normal] multiplies the component of [v] along [n]
    by [1 - 2 (n . n)] and keeps the component along every vector orthogonal
    to [n]; the squared norm changes by [4 (v . n)^2 (n . n - 1)], so the
    norm is kept exactly when [v . n = 0] or [n . n = 1]. *)
Theorem reflect_any_normal (v n : Vec2 R) :
  dot (reflect_across_unit_normal v n) n = (1 - 2 * dot n n) * dot v n
  /\ (forall w : Vec2 R, dot w n = 0 ->
        dot (reflect_across_unit_normal v n) w = dot v w)
  /\ dot (reflect_across_unit_normal v n) (reflect_across_unit_normal v n)
     = dot v v + 4 * (dot v n * dot v n) * (dot n n - 1)
  /\ (norm (reflect_across_unit_normal v n) = norm v
      <-> dot v n = 0 \/ dot n n = 1).
Proof.
  assert (Hsq : dot (reflect_across_unit_normal v n) (reflect_across_unit_normal v n)
                = dot v v + 4 * (dot v n * dot v n) * (dot n n - 1)).
  { unfold reflect_across_unit_normal, dot, vsub, vscale; simpl. ring. }
  split; [|split; [|split; [exact Hsq|]]].
  - unfold reflect_across_unit_normal, dot, vsub, vscale; simpl. ring.
  - intros w Hw. unfold reflect_across_unit_normal, dot, vsub, vscale in *;
      simpl in *.
    transitivity (vx v * vx w + vy v * vy w
                  - 2 * (vx v * vx n + vy v * vy n)
                    * (vx w * vx n + vy w * vy n)); [ring|].
    rewrite Hw; ring.
  - set (r := reflect_across_unit_normal v n) in *.
    assert (Hnorm : norm r = norm v <-> dot r r = dot v v).
    { split; intros Heq.
      - rewrite <- !norm_sqr, Heq. reflexivity.
      - rewrite <- !norm_sqr in Heq.
        pose proof (norm_pos_dot r). pose proof (norm_pos_dot v). nra. }
    rewrite Hnorm, Hsq. split.
    + intros Heq.
      assert (Hz : dot v n * dot v n * (dot n n - 1) = 0) by lra.
      apply Rmult_integral in Hz. destruct Hz as [Hz|Hz]; [left|right; lra].
      apply Rmult_integral in Hz. destruct Hz; assumption.
    + intros [Hz|Hz]; rewrite Hz; ring.
Qed.

End Geometry.

(* ================================================================= *)
(** ** More on the scan and on unobstructed steps *)

Section ScanMore.
Context {A : Type} `{ExtendedScalar A}.

Lemma scan_walls_no_candidate (p v : Vec2 A) (l : list (WallSegment A)) :
  forall (i : Z) (sc : Scan A),
    (forall w, In w l -> candidate p v w = None) ->
    scan_walls p v l i sc = sc.
Proof.
  induction l as [|w l IH]; intros i sc Hl; simpl; [reflexivity|].
  unfold scan_wall at 1. rewrite (Hl w (or_introl eq_refl)).
  apply IH. intros w' Hw'. apply Hl. right. exact Hw'.
Qed.

(** X7.  A displacement that does not pass the early-exit test, in a scene
    none of whose walls is a valid candidate from [x] along [d] (parallel,
    behind, out of reach, or missed beside an endpoint), is applied in full:
    the result is [x + d]. *)
Theorem advance_unobstructed (x d : Vec2 A) (world : ReflectingWorld A) :
  no_meaningful_displacement d = false ->
  (forall w, In w (walls world) -> candidate x d w = None) ->
  advance_with_reflections x d world = vadd x d.
Proof.
  intros Hd Hw. unfold advance_with_reflections. rewrite Hd.
  unfold MAX_REFLECTIONS. cbn [bounce_loop]. unfold bounce_pass. cbv zeta.
  rewrite (scan_walls_no_candidate x d (walls world) 0%Z scan_start Hw).
  reflexivity.
Qed.

Lemma scan_walls_kept (p v : Vec2 A) (ws l : list (WallSegment A)) :
  forall (k : nat) (sc : Scan A),
    (forall j w, nth_error l j = Some w -> nth_error ws (k + j) = Some w) ->
    (sc = scan_start
     \/ exists (j : nat) (w : WallSegment A) (t u : A) (sc0 : Scan A),
          (j < k)%nat /\ nth_error ws j = Some w
          /\ candidate p v w = Some (t, u)
          /\ replaces_best sc0 (Z.of_nat j) w t = true
          /\ sc = scan_of (Z.of_nat j) w t) ->
    scan_walls p v l (Z.of_nat k) sc = scan_start
    \/ exists (j : nat) (w : WallSegment A) (t u : A) (sc0 : Scan A),
         (j < k + List.length l)%nat /\ nth_error ws j = Some w
         /\ candidate p v w = Some (t, u)
         /\ replaces_best sc0 (Z.of_nat j) w t = true
         /\ scan_walls p v l (Z.of_nat k) sc = scan_of (Z.of_nat j) w t.
Proof.
  induction l as [|w l IH]; intros k sc Hl Hsc; simpl.
  - destruct Hsc as [->|(j & w & t & u & sc0 & Hj & Hrest)]; [left; reflexivity|].
    right. exists j, w, t, u, sc0. split; [lia | exact Hrest].
  - replace (Z.of_nat k + 1)%Z with (Z.of_nat (S k)) by lia.
    replace (k + S (List.length l))%nat with (S k + List.length l)%nat by lia.
    apply IH.
    + intros j w' Hj. replace (S k + j)%nat with (k + S j)%nat by lia.
      apply Hl. exact Hj.
    + assert (Hw : nth_error ws k = Some w).
      { specialize (Hl 0%nat w eq_refl). rewrite Nat.add_0_r in Hl. exact Hl. }
      unfold scan_wall.
      destruct (candidate p v w) as [[t u]|] eqn:Hc.
      * destruct (replaces_best sc (Z.of_nat k) w t) eqn:Hrep.
        -- right. exists k, w, t, u, sc. repeat split; auto.
        -- destruct Hsc as [->|(j & w' & t' & u' & sc0 & Hj & Hrest)];
             [left; reflexivity|].
           right. exists j, w', t', u', sc0. split; [lia | exact Hrest].
      * destruct Hsc as [->|(j & w' & t' & u' & sc0 & Hj & Hrest)];
          [left; reflexivity|].
        right. exists j, w', t', u', sc0. split; [lia | exact Hrest].
Qed.

Lemma scan_kept_or_start (p v : Vec2 A) (ws : list (WallSegment A)) :
  scan_walls p v ws 0 scan_start = scan_start
  \/ exists (i : nat) (w : WallSegment A) (t u : A) (sc0 : Scan A),
       (i < List.length ws)%nat /\ nth_error ws i = Some w
       /\ candidate p v w = Some (t, u)
       /\ replaces_best sc0 (Z.of_nat i) w t = true
       /\ scan_walls p v ws 0 scan_start = scan_of (Z.of_nat i) w t.
Proof.
  pose proof (scan_walls_kept p v ws ws 0 scan_start
                (fun j w Hj => Hj) (or_introl eq_refl)) as Hk.
  change (Z.of_nat 0) with 0%Z in Hk. rewrite Nat.add_0_l in Hk. exact Hk.
Qed.

(** The scan written as its last replacement: nothing was ever kept, or the
    result is the last wall that replaced the best hit of its time. *)
Lemma scan_last_replacement (p v : Vec2 A) (ws : list (WallSegment A)) :
  (scan_walls p v ws 0 scan_start = scan_start
   /\ forall (j : nat) (w : WallSegment A) (t u : A),
       nth_error ws j = Some w -> candidate p v w = Some (t, u) ->
       replaces_best scan_start (Z.of_nat j) w t = false)
  \/ exists (i : nat) (w : WallSegment A) (t u : A),
       (i < List.length ws)%nat /\ nth_error ws i = Some w
       /\ candidate p v w = Some (t, u)
       /\ replaces_best (scan_walls p v (firstn i ws) 0 scan_start)
            (Z.of_nat i) w t = true
       /\ (forall (j : nat) (w' : WallSegment A) (t' u' : A),
              (i < j)%nat -> nth_error ws j = Some w' ->
              candidate p v w' = Some (t', u') ->
              replaces_best (scan_of (Z.of_nat i) w t) (Z.of_nat j) w' t' = false)
       /\ scan_walls p v ws 0 scan_start = scan_of (Z.of_nat i) w t.
Proof.
  induction ws as [|w0 ws IH] using rev_ind.
  - left. split; [reflexivity|]. intros [|j] w t u Hj; discriminate.
  - rewrite scan_walls_app. cbn [scan_walls List.length]. rewrite Z.add_0_l.
    set (sc := scan_walls p v ws 0 scan_start) in *.
    assert (Hold : forall j w, (j < (List.length ws))%nat ->
               nth_error (ws ++ [w0]) j = Some w -> nth_error ws j = Some w).
    { intros j w Hj Hw. rewrite nth_error_app1 in Hw; assumption. }
    assert (Hlast : forall j w, ((List.length ws) <= j)%nat ->
               nth_error (ws ++ [w0]) j = Some w -> j = (List.length ws) /\ w = w0).
    { intros j w Hj Hw. rewrite nth_error_app2 in Hw by exact Hj.
      destruct (j - List.length ws)%nat as [|d] eqn:Hd;
        [|destruct d; simpl in Hw; discriminate Hw].
      simpl in Hw. injection Hw as <-. split; [lia|reflexivity]. }
    unfold scan_wall.
    destruct (candidate p v w0) as [[t0 u0]|] eqn:Hc0.
    + destruct (replaces_best sc (Z.of_nat (List.length ws)) w0 t0) eqn:Hrep.
      * right. exists (List.length ws), w0, t0, u0. rewrite length_app. cbn [List.length].
        split; [lia|].
        split; [rewrite nth_error_app2, Nat.sub_diag by lia; reflexivity|].
        split; [exact Hc0|].
        split; [rewrite firstn_app, Nat.sub_diag, firstn_all, app_nil_r; exact Hrep|].
        split; [|reflexivity].
        intros j w' t' u' Hj Hw'. apply Hlast in Hw'; [|lia]. lia.
      * destruct IH as [[Hsc Hnone]|(i & w & t & u & Hi & Hw & Hc & Hwin & Hkeep & Hsc)].
        -- left. split; [exact Hsc|].
           intros j w t u Hw Hc. destruct (Nat.lt_ge_cases j (List.length ws)) as [Hj|Hj].
           ++ eapply Hnone; [apply Hold; eassumption|exact Hc].
           ++ destruct (Hlast j w Hj Hw) as [-> ->].
              rewrite Hsc in Hrep. assert (t = t0) by congruence. subst t.
              exact Hrep.
        -- right. exists i, w, t, u. rewrite length_app. cbn [List.length].
           split; [lia|].
           split; [rewrite nth_error_app1 by exact Hi; exact Hw|].
           split; [exact Hc|].
           split; [rewrite firstn_app; replace (i - (List.length ws))%nat with 0%nat by lia;
                   rewrite firstn_O, app_nil_r; exact Hwin|].
           split; [|exact Hsc].
           intros j w' t' u' Hj Hw' Hc'. destruct (Nat.lt_ge_cases j (List.length ws)) as [Hjn|Hjn].
           ++ eapply Hkeep; [exact Hj|apply Hold; eassumption|exact Hc'].
           ++ destruct (Hlast j w' Hjn Hw') as [-> ->].
              rewrite Hsc in Hrep. assert (t' = t0) by congruence. subst t'.
              exact Hrep.
    + destruct IH as [[Hsc Hnone]|(i & w & t & u & Hi & Hw & Hc & Hwin & Hkeep & Hsc)].
      * left. split; [exact Hsc|].
        intros j w t u Hw Hc. destruct (Nat.lt_ge_cases j (List.length ws)) as [Hj|Hj].
        -- eapply Hnone; [apply Hold; eassumption|exact Hc].
        -- destruct (Hlast j w Hj Hw) as [-> ->]. congruence.
      * right. exists i, w, t, u. rewrite length_app. cbn [List.length].
        split; [lia|].
        split; [rewrite nth_error_app1 by exact Hi; exact Hw|].
        split; [exact Hc|].
        split; [rewrite firstn_app; replace (i - (List.length ws))%nat with 0%nat by lia;
                rewrite firstn_O, app_nil_r; exact Hwin|].
        split; [|exact Hsc].
        intros j w' t' u' Hj Hw' Hc'. destruct (Nat.lt_ge_cases j (List.length ws)) as [Hjn|Hjn].
        -- eapply Hkeep; [exact Hj|apply Hold; eassumption|exact Hc'].
        -- destruct (Hlast j w' Hjn Hw') as [-> ->]. congruence.
Qed.

(** X8.  The four locals of the scan describe the last replacement.  After
    the scan either nothing was kept ([best_idx = -1] and the other initial
    values), and then every valid candidate lost the comparison against the
    initial state; or [best_idx] is the index [i] of a wall of the scene
    that is a valid candidate, [best_t] is its hit parameter, [hit_id] its
    id and [hit_n] its normal, this candidate won the comparison against the
    state the scan of the walls before it had left, and every valid
    candidate after it lost the comparison against it.  The test
    [best_idx < 0] holds exactly in the first case. *)
Theorem scan_locals_consistent (p v : Vec2 A) (ws : list (WallSegment A)) :
  ((scan_walls p v ws 0 scan_start = scan_start
    /\ forall (j : nat) (w : WallSegment A) (t u : A),
        nth_error ws j = Some w -> candidate p v w = Some (t, u) ->
        replaces_best scan_start (Z.of_nat j) w t = false)
   \/ exists (i : nat) (w : WallSegment A) (t u : A),
        (i < List.length ws)%nat /\ nth_error ws i = Some w
        /\ candidate p v w = Some (t, u)
        /\ replaces_best (scan_walls p v (firstn i ws) 0 scan_start)
             (Z.of_nat i) w t = true
        /\ (forall (j : nat) (w' : WallSegment A) (t' u' : A),
               (i < j)%nat -> nth_error ws j = Some w' ->
               candidate p v w' = Some (t', u') ->
               replaces_best (scan_of (Z.of_nat i) w t) (Z.of_nat j) w' t' = false)
        /\ best_idx (scan_walls p v ws 0 scan_start) = Z.of_nat i
        /\ best_t (scan_walls p v ws 0 scan_start) = t
        /\ hit_id (scan_walls p v ws 0 scan_start) = id w
        /\ hit_n (scan_walls p v ws 0 scan_start) = n_hat w)
  /\ ((best_idx (scan_walls p v ws 0 scan_start) <? 0)%Z = true
      <-> scan_walls p v ws 0 scan_start = scan_start).
Proof.
  pose proof (scan_last_replacement p v ws) as Hk.
  split.
  - destruct Hk as [Hk|(i & w & t & u & Hi & Hw & Hc & Hwin & Hkeep & Hk)];
      [left; exact Hk|].
    right. exists i, w, t, u. rewrite Hk. repeat split; assumption.
  - split.
    + intros Hneg.
      destruct Hk as [[Hk _]|(i & w & t & u & Hi & Hw & Hc & Hwin & Hkeep & Hk)];
        [exact Hk|].
      rewrite Hk in Hneg. simpl in Hneg. apply Z.ltb_lt in Hneg. lia.
    + intros ->. reflexivity.
Qed.

End ScanMore.

(* ================================================================= *)
(** ** The selected hit in binary64 *)

Module Binary64Scan.
Import Binary64Laws.
Local Open Scope float_scope.

Lemma ltb_true_compare (a b : float) :
  (a <? b) = true -> SFcompare (Prim2SF a) (Prim2SF b) = Some Lt.
Proof.
  rewrite ltb_spec. unfold SFltb.
  destruct (SFcompare (Prim2SF a) (Prim2SF b)) as [[]|]; congruence.
Qed.

Lemma compare_some_left (x y : spec_float) (c : comparison) :
  SFcompare x y = Some c -> x <> S754_nan.
Proof. destruct x; simpl; congruence. Qed.

Lemma sub_nan_l (a b : float) :
  Prim2SF a = S754_nan -> Prim2SF (a - b) = S754_nan.
Proof. intros Ha. rewrite sub_spec, Ha. reflexivity. Qed.

Lemma abs_nan (a : float) : Prim2SF a = S754_nan -> Prim2SF (abs a) = S754_nan.
Proof. intros Ha. rewrite abs_spec, Ha. reflexivity. Qed.

Lemma leb_true_left (a b : float) : (a <=? b) = true -> Prim2SF a <> S754_nan.
Proof.
  rewrite leb_spec. unfold SFleb.
  destruct (SFcompare (Prim2SF a) (Prim2SF b)) as [c|] eqn:E; [|discriminate].
  intros _. exact (compare_some_left _ _ _ E).
Qed.

(** A hit parameter that replaces the best hit is not a NaN. *)
Lemma replaces_best_not_nan (sc : Scan float) (i : Z) (w : WallSegment float)
  (t : float) :
  replaces_best sc i w t = true -> Prim2SF t <> S754_nan.
Proof.
  unfold replaces_best. intros Hr. apply orb_true_iff in Hr.
  destruct Hr as [Hlt|Htie].
  - apply ltb_true_compare in Hlt. exact (compare_some_left _ _ _ Hlt).
  - apply andb_true_iff in Htie. destruct Htie as [Htie _].
    apply leb_true_left in Htie. intros Hnan. apply Htie.
    apply abs_nan, sub_nan_l. exact Hnan.
Qed.

Lemma SFfin_is_finite (x : float) : SFfin (Prim2SF x) -> is_finite x = true.
Proof.
  intros Hx. unfold is_finite, is_nan, is_infinity.
  rewrite !FloatAxioms.eqb_spec, abs_spec.
  rewrite (SFeqb_refl_fin _ Hx).
  destruct (Prim2SF x) as [s|s| |s m e]; simpl in *; try contradiction;
    reflexivity.
Qed.

(** What the validity test on [t] leaves of the non-NaN values. *)
Lemma candidate_t_tests (p v : Vec2 float) (w : WallSegment float) (t u : float) :
  candidate p v w = Some (t, u) ->
  (t <=? 1e-12) = false /\ (1 + 1e-12 <? t) = false.
Proof.
  unfold candidate. cbv zeta.
  destruct (s_leb (s_abs _) EPS_DIR); [discriminate|].
  match goal with
  | |- (if ?c1 || ?c2 then _ else _) = _ -> _ =>
      destruct c1 eqn:E1; [discriminate|]; destruct c2 eqn:E2; [discriminate|]
  end.
  simpl orb. cbv iota.
  destruct (_ || _); [discriminate|].
  intros Heq. injection Heq as <- _. split; assumption.
Qed.

Lemma valid_t_in_range (t : float) :
  Prim2SF t <> S754_nan ->
  (t <=? 1e-12) = false -> (1 + 1e-12 <? t) = false ->
  is_finite t = true /\ (1e-12 <? t) = true /\ (t <=? 1 + 1e-12) = true.
Proof.
  intros Hnan Hlo Hhi.
  rewrite leb_spec in Hlo. rewrite ltb_spec in Hhi.
  rewrite ltb_spec, leb_spec.
  unfold SFleb, SFltb in *.
  rewrite (SFcompare_antisym (Prim2SF t) (Prim2SF 1e-12)).
  rewrite (SFcompare_antisym (Prim2SF t) (Prim2SF (1 + 1e-12))) in Hhi.
  set (lo := Prim2SF 1e-12) in *. set (hi := Prim2SF (1 + 1e-12)) in *.
  assert (Hfin : SFfin (Prim2SF t)).
  { destruct (Prim2SF t) as [s|s| |s m e]; simpl; auto.
    destruct s; vm_compute in Hlo, Hhi; discriminate. }
  split; [apply SFfin_is_finite; exact Hfin|].
  destruct (Prim2SF t) as [s|s| |s m e]; simpl in Hfin; try contradiction.
  - vm_compute in Hlo. discriminate.
  - assert (Hcmp : forall y, SFfin y -> exists c,
                 SFcompare (S754_finite s m e) y = Some c).
    { intros [sy|sy| |sy my ey] Hy; simpl in Hy; try contradiction;
        simpl; eexists; reflexivity. }
    destruct (Hcmp lo I) as [c1 H1]. destruct (Hcmp hi I) as [c2 H2].
    rewrite H1 in *. rewrite H2 in *. clear Hcmp H1 H2. clearbody lo hi.
    destruct c1, c2; simpl in *; try discriminate; split; reflexivity.
Qed.

(** X9.  In binary64, whenever the scan kept a wall ([best_idx >= 0]) its
    [best_t] is a finite number with [EPS_POS < best_t <= 1 + EPS_POS]: a hit
    parameter that is a NaN passes the validity tests of the scan but never
    replaces the best hit.  So the second half of the no-hit test,
    [!std::isfinite(best_t)], never decides. *)
Theorem selected_hit_is_finite (p v : Vec2 float) (ws : list (WallSegment float)) :
  (best_idx (scan_walls p v ws 0 scan_start) <? 0)%Z = false ->
  is_finite (best_t (scan_walls p v ws 0 scan_start)) = true
  /\ (EPS_POS <? best_t (scan_walls p v ws 0 scan_start)) = true
  /\ (best_t (scan_walls p v ws 0 scan_start) <=? 1 + EPS_POS) = true
  /\ ((best_idx (scan_walls p v ws 0 scan_start) <? 0)%Z
      || negb (is_finite (best_t (scan_walls p v ws 0 scan_start)))) = false.
Proof.
  intros Hidx.
  destruct (scan_kept_or_start p v ws)
    as [Hsc|(i & w & t & u & sc0 & Hi & Hw & Hc & Hrep & Hsc)].
  - rewrite Hsc in Hidx. discriminate.
  - rewrite Hsc in *. cbn [scan_of best_t best_idx] in *.
    apply replaces_best_not_nan in Hrep.
    apply candidate_t_tests in Hc. destruct Hc as [Hlo Hhi].
    destruct (valid_t_in_range t Hrep Hlo Hhi) as (Hf & Hl & Hh).
    repeat split; try assumption.
    rewrite Hidx, Hf. reflexivity.
Qed.

Lemma selected_hit_is_finite_witness :
  Z.ltb (best_idx (scan_walls (mkVec2 0.5 0.5) (mkVec2 1 (-1))
                     (walls Scenes.unit_box) 0 scan_start)) 0 = false
  /\ is_finite (best_t (scan_walls (mkVec2 0.5 0.5) (mkVec2 1 (-1))
                          (walls Scenes.unit_box) 0 scan_start)) = true
  /\ (EPS_POS <? best_t (scan_walls (mkVec2 0.5 0.5) (mkVec2 1 (-1))
                           (walls Scenes.unit_box) 0 scan_start)) = true
  /\ (best_t (scan_walls (mkVec2 0.5 0.5) (mkVec2 1 (-1))
                (walls Scenes.unit_box) 0 scan_start) <=? 1 + EPS_POS) = true
  /\ (Z.ltb (best_idx (scan_walls (mkVec2 0.5 0.5) (mkVec2 1 (-1))
                         (walls Scenes.unit_box) 0 scan_start)) 0
      || negb (is_finite (best_t (scan_walls (mkVec2 0.5 0.5) (mkVec2 1 (-1))
                                    (walls Scenes.unit_box) 0 scan_start))))
     = false.
Proof.
  split; [reflexivity|].
  exact (selected_hit_is_finite (mkVec2 0.5 0.5) (mkVec2 1 (-1))
           (walls Scenes.unit_box) eq_refl).
Defined.

(** A wall away from the path: the floor, and a step upwards from above it. *)
Lemma advance_unobstructed_witness :
  no_meaningful_displacement (mkVec2 1 1) = false
  /\ (forall w,
        In w (walls (mkWorld [WallSegment_ctor (mkVec2 (-10) 0) (mkVec2 10 0)
                                (mkVec2 0 1) (-1)])) ->
        candidate (mkVec2 0 1) (mkVec2 1 1) w = None)
  /\ advance_with_reflections (mkVec2 0 1) (mkVec2 1 1)
       (mkWorld [WallSegment_ctor (mkVec2 (-10) 0) (mkVec2 10 0) (mkVec2 0 1) (-1)])
     = vadd (mkVec2 0 1) (mkVec2 1 1).
Proof.
  assert (Hw : forall w,
             In w (walls (mkWorld [WallSegment_ctor (mkVec2 (-10) 0) (mkVec2 10 0)
                                     (mkVec2 0 1) (-1)])) ->
             candidate (mkVec2 0 1) (mkVec2 1 1) w = None).
  { intros w [<-|[]]. vm_compute. reflexivity. }
  split; [reflexivity|]. split; [exact Hw|].
  exact (advance_unobstructed (mkVec2 0 1) (mkVec2 1 1) _ eq_refl Hw).
Defined.

(** The unit box as built, in both arithmetics' statement of the walls. *)
Lemma add_inward_box_walls_witness :
  (INT_MIN <= 100 <= INT_MAX - 3)%Z
  /\ add_inward_box false empty_world 0 1 0 1 100 = Returns Scenes.unit_box
  /\ walls Scenes.unit_box
     = (walls empty_world
        ++ [ WallSegment_ctor (mkVec2 0 0) (mkVec2 1 0) (mkVec2 0 1) 100;
             WallSegment_ctor (mkVec2 1 0) (mkVec2 1 1) (mkVec2 (-1) 0) (100 + 1);
             WallSegment_ctor (mkVec2 1 1) (mkVec2 0 1) (mkVec2 0 (-1)) (100 + 2);
             WallSegment_ctor (mkVec2 0 1) (mkVec2 0 0) (mkVec2 1 0) (100 + 3) ])%list.
Proof.
  assert (Hid : (INT_MIN <= 100 <= INT_MAX - 3)%Z)
    by (unfold INT_MIN, INT_MAX; lia).
  assert (Hb : add_inward_box false empty_world 0 1 0 1 100
               = Returns Scenes.unit_box) by (vm_compute; reflexivity).
  split; [exact Hid|]. split; [exact Hb|].
  exact (proj1 Geometry.add_inward_box_walls false empty_world Scenes.unit_box
           0 1 0 1 100%Z Hid Hb).
Defined.

End Binary64Scan.

(* ================================================================= *)
(** ** The unit-normal invariant *)

Section UnitNormals.
Import ExactLaws Geometry.
Local Open Scope R_scope.

(** In exact arithmetic [add_segment_auto] answers the same in both builds
    when the segment is longer than [EPS_DIR]. *)
Lemma add_segment_auto_ok (NDEBUG : bool) (world : ReflectingWorld R)
  (a b : Vec2 R) (inward : bool) (i : Z) :
  EPS_DIR < norm (vsub b a) ->
  let t_hat := normalize (vsub b a) in
  let n := mkVec2 (- vy t_hat) (vx t_hat) in
  let n' := if inward then mkVec2 (- vx n) (- vy n) else n in
  add_segment_auto NDEBUG world a b inward i
  = Returns (push_back world (WallSegment_ctor a b n' i))
  /\ norm n' = 1.
Proof.
  intros Hlen t_hat n n'. pose proof EPS_DIR_pos as Heps.
  assert (Hunit : norm t_hat = 1).
  { unfold t_hat. rewrite normalize_normalized. apply normalized_unit; lra. }
  assert (Hn' : norm n' = 1).
  { destruct (norm_left_normal t_hat) as [Hl Hr].
    unfold n', n. destruct inward; cbn [vx vy]; rewrite <- Hunit; assumption. }
  split; [|exact Hn'].
  unfold add_segment_auto, fromSegmentAutoNormal, bind, assert. cbv zeta.
  change (mkVec2 (s_sub (vx b) (vx a)) (s_sub (vy b) (vy a))) with (vsub b a).
  fold t_hat. rewrite (is_zero_vec_unit _ Hunit).
  change (mkVec2 (s_opp (vy t_hat)) (vx t_hat)) with n.
  change (if inward then mkVec2 (s_opp (vx n)) (s_opp (vy n)) else n) with n'.
  change (s_sqrt (s_add (s_mul (vx n') (vx n')) (s_mul (vy n') (vy n'))))
    with (norm n').
  rewrite Hn'.
  change (s_leb (s_abs (s_sub 1 s_one)) s_1em12)
    with (Rleb (Rabs (1 - 1)) (1 / 1000000000000)).
  assert (Hb : Rleb (Rabs (1 - 1)) (1 / 1000000000000) = true).
  { apply Rleb_true. replace (1 - 1) with 0 by ring. rewrite Rabs_R0. lra. }
  rewrite Hb. destruct NDEBUG; reflexivity.
Qed.

(** C9, as amended.  The public constructor stores the normal it is given,
    unit or not, in any arithmetic: a segment constructed with the normal
    [(2, 0)] keeps it, with norm 2.  [add_segment], when it returns, stores
    [normalize] of the normal it is given, in any arithmetic.  In exact
    arithmetic, [add_segment] with a segment that passes the degenerate test
    and a normal longer than [EPS_DIR], and [add_segment_auto] with a segment
    longer than [EPS_DIR], return in both builds, and the normal they store
    has norm exactly 1.  In binary64, a build without the assertions stores
    the normal [(0, 0)] for every normal whose norm is at or below
    [EPS_DIR]. *)
Theorem constructor_stores_normal_verbatim :
  (forall (A : Type) (arith : Scalar A) (a b n : Vec2 A) (i : Z),
      n_hat (WallSegment_ctor a b n i) = n)
  /\ (forall (a b : Vec2 R) (i : Z),
        n_hat (WallSegment_ctor a b (mkVec2 2 0) i) = mkVec2 2 0
        /\ norm (n_hat (WallSegment_ctor a b (mkVec2 2 0) i)) = 2)
  /\ (forall (A : Type) (arith : Scalar A) (NDEBUG : bool)
        (world world' : ReflectingWorld A) (a b n : Vec2 A) (i : Z),
        add_segment NDEBUG world a b n i = Returns world' ->
        walls world' = (walls world ++ [WallSegment_ctor a b (normalize n) i])%list)
  /\ (forall (NDEBUG : bool) (world : ReflectingWorld R) (a b n : Vec2 R) (i : Z),
        nearly_zero (mkVec2 (vx b - vx a) (vy b - vy a)) = false ->
        EPS_DIR < norm n ->
        exists w : WallSegment R,
          add_segment NDEBUG world a b n i = Returns (push_back world w)
          /\ p0 w = a /\ p1 w = b /\ id w = i
          /\ n_hat w = normalize n /\ norm (n_hat w) = 1)
  /\ (forall (NDEBUG : bool) (world : ReflectingWorld R) (a b : Vec2 R)
        (inward : bool) (i : Z),
        EPS_DIR < norm (vsub b a) ->
        exists w : WallSegment R,
          add_segment_auto NDEBUG world a b inward i = Returns (push_back world w)
          /\ p0 w = a /\ p1 w = b /\ id w = i
          /\ norm (n_hat w) = 1)
  /\ (forall (world : ReflectingWorld float) (a b n : Vec2 float) (i : Z),
        PrimFloat.leb (norm n) EPS_DIR = true ->
        add_segment true world a b n i
        = Returns (push_back world
                     (WallSegment_ctor a b (mkVec2 0%float 0%float) i))).
Proof.
  split; [reflexivity|]. split; [|split; [|split; [|split]]].
  - intros a b i. split; [reflexivity|]. unfold norm; simpl.
    replace (2 * 2 + 0 * 0) with (Rsqr 2) by (unfold Rsqr; ring).
    apply sqrt_Rsqr. lra.
  - intros A arith NDEBUG world world' a b n i Hr.
    apply add_segment_returns in Hr. subst world'. reflexivity.
  - intros NDEBUG world a b n i Hd Hn.
    exists (WallSegment_ctor a b (normalize n) i).
    split; [apply add_segment_ok; assumption|].
    repeat (split; [reflexivity|]). cbn [n_hat WallSegment_ctor].
    rewrite normalize_normalized. apply normalized_unit; [|exact Hn].
    apply Rlt_le, EPS_DIR_pos.
  - intros NDEBUG world a b inward i Hlen.
    destruct (add_segment_auto_ok NDEBUG world a b inward i Hlen) as [Hr Hn].
    eexists. split; [exact Hr|]. repeat (split; [reflexivity|]). exact Hn.
  - intros world a b n i Hn. unfold add_segment, bind, assert.
    rewrite normalize_normalized. unfold normalized. cbv zeta.
    change (s_leb (norm n) EPS_DIR) with (PrimFloat.leb (norm n) EPS_DIR).
    rewrite Hn. reflexivity.
Qed.

(** In exact arithmetic, the normal [(0, 3)] handed to [add_segment] is
    stored with norm 1, in a build with the assertions checked. *)
Lemma constructor_stores_normal_verbatim_witness :
  nearly_zero (mkVec2 (1 - 0) (0 - 0)) = false
  /\ EPS_DIR < norm (mkVec2 0 3)
  /\ exists w : WallSegment R,
       add_segment false empty_world (mkVec2 0 0) (mkVec2 1 0) (mkVec2 0 3) 7
       = Returns (push_back empty_world w)
       /\ p0 w = mkVec2 0 0 /\ p1 w = mkVec2 1 0 /\ id w = 7%Z
       /\ n_hat w = normalize (mkVec2 0 3) /\ norm (n_hat w) = 1.
Proof.
  assert (Hd : nearly_zero (mkVec2 (1 - 0) (0 - 0)) = false).
  { apply not_true_iff_false. rewrite nearly_zero_iff. cbn [vx vy].
    intros [Hx _]. unfold EPS_DIR in Hx; simpl in Hx.
    rewrite Rabs_right in Hx; lra. }
  assert (Hn : EPS_DIR < norm (mkVec2 0 3)).
  { unfold norm, EPS_DIR; simpl.
    replace (0 * 0 + 3 * 3) with (Rsqr 3) by (unfold Rsqr; ring).
    rewrite sqrt_Rsqr; lra. }
  split; [exact Hd|]. split; [exact Hn|].
  exact (proj1 (proj2 (proj2 (proj2 constructor_stores_normal_verbatim)))
           false empty_world (mkVec2 0 0) (mkVec2 1 0) (mkVec2 0 3) 7%Z Hd Hn).
Defined.

End UnitNormals.

Section UnitNormalsBinary64.
Local Open Scope float_scope.

(** In binary64 the builders store normals that are not unit.  For the
    normal [(0.1, 0.2)], and for the segment from the origin to
    [(0.1, 0.2)], the stored normal has norm [0.99999999999999989], in both
    builds.  The squared norm of [(1e200, 1e200)] overflows, its norm is
    infinite, and a build without the assertions stores the normal [(0, 0)];
    so it does for a normal shorter than [EPS_DIR]. *)
Lemma builders_store_non_unit_normals :
  (forall NDEBUG : bool,
      add_segment NDEBUG empty_world (mkVec2 0 0) (mkVec2 1 0) (mkVec2 0.1 0.2) 7
      = Returns (mkWorld [WallSegment_ctor (mkVec2 0 0) (mkVec2 1 0)
                            (mkVec2 0.44721359549995793 0.89442719099991586) 7]))
  /\ norm (mkVec2 0.44721359549995793 0.89442719099991586) = 0.99999999999999989
  /\ (0.99999999999999989 =? 1) = false
  /\ add_segment true empty_world (mkVec2 0 0) (mkVec2 1 0) (mkVec2 1e200 1e200) 7
     = Returns (mkWorld [WallSegment_ctor (mkVec2 0 0) (mkVec2 1 0) (mkVec2 0 0) 7])
  /\ add_segment false empty_world (mkVec2 0 0) (mkVec2 1 0) (mkVec2 1e200 1e200) 7
     = AssertionFailed "add_segment: provided normal is near zero"
  /\ add_segment true empty_world (mkVec2 0 0) (mkVec2 1 0) (mkVec2 1e-13 0) 7
     = Returns (mkWorld [WallSegment_ctor (mkVec2 0 0) (mkVec2 1 0) (mkVec2 0 0) 7])
  /\ (forall NDEBUG : bool,
         add_segment_auto NDEBUG empty_world (mkVec2 0 0) (mkVec2 0.1 0.2) false 7
         = Returns (mkWorld [WallSegment_ctor (mkVec2 0 0) (mkVec2 0.1 0.2)
                               (mkVec2 (-0.89442719099991586) 0.44721359549995793) 7]))
  /\ norm (mkVec2 (-0.89442719099991586) 0.44721359549995793) = 0.99999999999999989.
Proof.
  split; [intros []; vm_compute; reflexivity|].
  do 5 (split; [vm_compute; reflexivity|]).
  split; [intros []; vm_compute; reflexivity|].
  vm_compute; reflexivity.
Qed.

End UnitNormalsBinary64.

(* ================================================================= *)
(** ** The zero vector as a normal *)

Section ZeroNormal.
Import ExactLaws Binary64Laws Binary64Scan.
Local Open Scope float_scope.

Lemma not_finite_cases (x : float) :
  is_finite x = false ->
  Prim2SF x = S754_nan \/ exists s, Prim2SF x = S754_infinity s.
Proof.
  intros Hf. destruct (Prim2SF x) as [s|s| |s m e] eqn:E; eauto.
  - rewrite SFfin_is_finite in Hf; [discriminate|]. rewrite E. exact I.
  - rewrite SFfin_is_finite in Hf; [discriminate|]. rewrite E. exact I.
Qed.

Lemma nan_is_nan (x : float) : Prim2SF x = S754_nan -> x = nan.
Proof.
  intros Hx. rewrite <- (SF2Prim_Prim2SF x), Hx. reflexivity.
Qed.

Lemma mul_zero_not_finite (x : float) :
  is_finite x = false -> Prim2SF (x * 0) = S754_nan.
Proof.
  intros Hf. rewrite mul_spec.
  destruct (not_finite_cases x Hf) as [->|[s ->]]; reflexivity.
Qed.

Lemma add_nan_l (a b : float) :
  Prim2SF a = S754_nan -> Prim2SF (a + b) = S754_nan.
Proof. intros Ha. rewrite add_spec, Ha. reflexivity. Qed.

Lemma add_nan_r (a b : float) :
  Prim2SF b = S754_nan -> Prim2SF (a + b) = S754_nan.
Proof.
  intros Hb. rewrite add_spec, Hb. destruct (Prim2SF a); reflexivity.
Qed.

Lemma mul_nan_r (a b : float) :
  Prim2SF b = S754_nan -> Prim2SF (a * b) = S754_nan.
Proof.
  intros Hb. rewrite mul_spec, Hb. destruct (Prim2SF a); reflexivity.
Qed.

Lemma sub_nan_r (a b : float) :
  Prim2SF b = S754_nan -> Prim2SF (a - b) = S754_nan.
Proof.
  intros Hb. rewrite sub_spec, Hb. destruct (Prim2SF a); reflexivity.
Qed.

(** A component that is not finite makes the scalar product with the zero
    vector a NaN, and with it both components of the reflection. *)
Lemma reflect_zero_normal_not_finite (v : Vec2 float) :
  is_finite (vx v) = false \/ is_finite (vy v) = false ->
  reflect_across_unit_normal v (mkVec2 0 0) = mkVec2 nan nan.
Proof.
  intros Hv.
  assert (Hk : Prim2SF (vx v * 0 + vy v * 0) = S754_nan).
  { destruct Hv as [Hx|Hy].
    - apply add_nan_l, mul_zero_not_finite, Hx.
    - apply add_nan_r, mul_zero_not_finite, Hy. }
  unfold reflect_across_unit_normal, vsub, vscale, dot. simpl.
  f_equal; apply nan_is_nan, sub_nan_r, mul_nan_r, mul_nan_r; exact Hk.
Qed.

(** C10, as amended.  In exact arithmetic, reflecting across the zero
    vector returns the incident vector, for every [v].  In binary64 it
    returns a vector equal to [v] under [==] when both components of [v] are
    finite, and the vector [(NaN, NaN)] when one of them is not.  The zero
    vector is what [Vec2::normalized] returns whenever the norm of its input
    is at or below [eps], in both arithmetics. *)
Theorem reflect_zero_normal_identity :
  (forall v : Vec2 R, reflect_across_unit_normal v (mkVec2 0%R 0%R) = v)
  /\ (forall (v w : Vec2 R) (eps : R),
        (norm w <= eps)%R ->
        normalized w eps = mkVec2 0%R 0%R
        /\ reflect_across_unit_normal v (normalized w eps) = v)
  /\ (forall v : Vec2 float,
        is_finite (vx v) = true -> is_finite (vy v) = true ->
        let r := reflect_across_unit_normal v (mkVec2 0 0) in
        (vx r =? vx v) = true /\ (vy r =? vy v) = true)
  /\ (forall v : Vec2 float,
        is_finite (vx v) = false \/ is_finite (vy v) = false ->
        reflect_across_unit_normal v (mkVec2 0 0) = mkVec2 nan nan)
  /\ (forall (w : Vec2 float) (eps : float),
        (norm w <=? eps) = true ->
        normalized w eps = mkVec2 0 0).
Proof.
  split; [exact reflect_zero_normal|]. split; [|split; [|split]].
  - intros v w eps Hw. rewrite (normalized_sentinel w eps Hw).
    split; [reflexivity | apply reflect_zero_normal].
  - exact reflect_zero_normal_finite.
  - exact reflect_zero_normal_not_finite.
  - intros w eps Hw. unfold normalized. cbv zeta.
    change (s_leb (norm w) eps) with (norm w <=? eps). rewrite Hw. reflexivity.
Qed.

(** Reflecting [(3, -4)] across the zero vector. *)
Lemma reflect_zero_normal_identity_witness :
  is_finite 3 = true /\ is_finite (-4) = true
  /\ (vx (reflect_across_unit_normal (mkVec2 3 (-4)) (mkVec2 0 0)) =? 3) = true
  /\ (vy (reflect_across_unit_normal (mkVec2 3 (-4)) (mkVec2 0 0)) =? -4) = true.
Proof.
  split; [reflexivity|]. split; [reflexivity|].
  exact (proj1 (proj2 (proj2 reflect_zero_normal_identity))
           (mkVec2 3 (-4)) eq_refl eq_refl).
Defined.

(** In binary64 the reflection across the zero vector is not the identity:
    of [(inf, 1)] it makes [(NaN, NaN)], and of [(-0, -1)] the vector
    [(+0, -1)]. *)
Lemma reflect_zero_normal_changes_vector :
  reflect_across_unit_normal (mkVec2 infinity 1) (mkVec2 0 0) = mkVec2 nan nan
  /\ (vx (reflect_across_unit_normal (mkVec2 infinity 1) (mkVec2 0 0)) =? infinity)
     = false
  /\ (vy (reflect_across_unit_normal (mkVec2 infinity 1) (mkVec2 0 0)) =? 1) = false
  /\ Prim2SF (vx (mkVec2 (-0) (-1))) = S754_zero true
  /\ Prim2SF (vx (reflect_across_unit_normal (mkVec2 (-0) (-1)) (mkVec2 0 0)))
     = S754_zero false.
Proof. vm_compute. repeat split. Qed.

End ZeroNormal.

(* ================================================================= *)
(** ** Vectors and effects *)

Section Containers.
Context {T : Type}.

Lemma set_nth_length (v : list T) (i : nat) (x : T) :
  List.length (set_nth v i x) = List.length v.
Proof.
  revert i. induction v as [|y v IH]; intros [|i]; simpl; auto.
Qed.

Lemma nth_error_set_nth_eq (v : list T) (i : nat) (x : T) :
  (i < List.length v)%nat -> nth_error (set_nth v i x) i = Some x.
Proof.
  revert i. induction v as [|y v IH]; intros [|i] Hi; simpl in *; try lia; auto.
  apply IH. lia.
Qed.

Lemma nth_error_set_nth_neq (v : list T) (i j : nat) (x : T) :
  i <> j -> nth_error (set_nth v i x) j = nth_error v j.
Proof.
  revert i j. induction v as [|y v IH]; intros [|i] [|j] Hij; simpl; auto;
    try congruence.
Qed.

Lemma set_nth_app (v1 v2 : list T) (y x : T) :
  set_nth (v1 ++ y :: v2) (List.length v1) x = (v1 ++ x :: v2)%list.
Proof. induction v1 as [|z v1 IH]; simpl; congruence. Qed.

Lemma load_normal (v : list T) (i : nat) (x : T) :
  load v i = Normal x <-> nth_error v i = Some x.
Proof.
  unfold load. destruct (nth_error v i); split; intros Heq;
    congruence || discriminate.
Qed.

Lemma load_in_range (v : list T) (i : nat) :
  (i < List.length v)%nat -> exists x, load v i = Normal x.
Proof.
  intros Hi. unfold load. destruct (nth_error v i) as [x|] eqn:E; eauto.
  apply nth_error_None in E. lia.
Qed.

Lemma load_app (v1 v2 : list T) (y : T) :
  load (v1 ++ y :: v2) (List.length v1) = Normal y.
Proof. apply load_normal. rewrite nth_error_app2, Nat.sub_diag; auto. Qed.

Lemma store_normal (v v' : list T) (i : nat) (x : T) :
  store v i x = Normal v' <-> (i < List.length v)%nat /\ v' = set_nth v i x.
Proof.
  unfold store. destruct (Nat.ltb_spec i (List.length v)); split.
  - intros Heq. injection Heq as <-. auto.
  - intros [_ ->]. reflexivity.
  - discriminate.
  - intros [Hi _]. lia.
Qed.

Lemma store_in_range (v : list T) (i : nat) (x : T) :
  (i < List.length v)%nat -> store v i x = Normal (set_nth v i x).
Proof. intros Hi. apply store_normal. auto. Qed.

Lemma store_out_of_range (v : list T) (i : nat) (x : T) :
  (List.length v <= i)%nat -> store v i x = Undefined.
Proof. intros Hi. unfold store. destruct (Nat.ltb_spec i (List.length v)); auto; lia. Qed.

End Containers.

Lemma ebind_normal {T U : Type} (e : Effect T) (k : T -> Effect U) (u : U) :
  ebind e k = Normal u <-> exists t, e = Normal t /\ k t = Normal u.
Proof.
  destruct e; simpl; split; try discriminate; eauto.
  - intros (t0 & Heq & Hk). congruence.
  - intros (t0 & Heq & _). discriminate.
  - intros (t0 & Heq & _). discriminate.
  - intros (t0 & Heq & _). discriminate.
Qed.

Lemma lift_assert_normal (NDEBUG cond : bool) (msg : string) (u : unit) :
  lift (assert NDEBUG cond msg) = Normal u <-> NDEBUG = true \/ cond = true.
Proof.
  destruct u, NDEBUG, cond; simpl; split; auto; try discriminate.
  intros [|]; discriminate.
Qed.

Lemma lift_assert_release (cond : bool) (msg : string) :
  lift (assert true cond msg) = Normal tt.
Proof. reflexivity. Qed.

Lemma lift_assert_debug (cond : bool) (msg : string) :
  lift (assert false cond msg) = if cond then Normal tt else Aborted msg.
Proof. destruct cond; reflexivity. Qed.

(* ================================================================= *)
(** ** The driver: construction *)

Section Construction.
Context {A : Type} `{ExtendedScalar A} {RNG : Type}.
Variable RNG_seeded : Z -> RNG.

Lemma record_positions_app (h2 : list (list (Vec2 A))) :
  forall (h1 : list (list (Vec2 A))) (p1 p2 : list (Vec2 A)),
    List.length h1 = List.length p1 -> List.length h2 = List.length p2 ->
    record_positions (h1 ++ h2) (p1 ++ p2) (seq (List.length h1) (List.length h2))
    = Normal (h1 ++ map (fun hp => fst hp ++ [snd hp]) (combine h2 p2))%list.
Proof.
  induction h2 as [|h h2 IH]; intros h1 p1 p2 H1 H2.
  - destruct p2; [|discriminate]. reflexivity.
  - destruct p2 as [|p p2]; [discriminate|]. simpl in H2. injection H2 as H2.
    cbn [List.length seq record_positions].
    rewrite H1 at 1. rewrite load_app. cbn [ebind].
    rewrite load_app. cbn [ebind].
    rewrite store_in_range by (rewrite length_app; simpl; lia).
    cbn [ebind]. rewrite set_nth_app.
    change (h1 ++ (h ++ [p]) :: h2)%list with (h1 ++ [h ++ [p]] ++ h2)%list.
    change (p1 ++ p :: p2)%list with (p1 ++ [p] ++ p2)%list.
    rewrite !app_assoc.
    replace (S (List.length h1)) with (List.length (h1 ++ [h ++ [p]]))
      by (rewrite length_app; simpl; lia).
    rewrite IH by (rewrite ?length_app; simpl; lia).
    rewrite <- app_assoc. reflexivity.
Qed.

(** One frame appended to every history. *)
Lemma record_positions_all (hist : list (list (Vec2 A))) (pos : list (Vec2 A)) :
  List.length hist = List.length pos ->
  record_positions hist pos (seq 0 (List.length pos)) = Normal (pushed hist pos).
Proof.
  intros Hlen. rewrite <- Hlen.
  exact (record_positions_app hist [] [] pos eq_refl Hlen).
Qed.

Lemma first_frames (pos : list (Vec2 A)) :
  pushed (repeat [] (List.length pos)) pos = map (fun p => [p]) pos.
Proof. unfold pushed. induction pos as [|p pos IH]; simpl; congruence. Qed.

Lemma pushed_length (hist : list (list (Vec2 A))) (pos : list (Vec2 A)) :
  List.length hist = List.length pos ->
  List.length (pushed hist pos) = List.length pos.
Proof.
  intros Hlen. unfold pushed. rewrite length_map, length_combine. lia.
Qed.

Lemma pushed_nth (hist : list (list (Vec2 A))) :
  forall (pos : list (Vec2 A)) (i : nat) (h : list (Vec2 A)) (x : Vec2 A),
    nth_error hist i = Some h -> nth_error pos i = Some x ->
    nth_error (pushed hist pos) i = Some (h ++ [x])%list.
Proof.
  unfold pushed.
  induction hist as [|h0 hist IH]; intros [|x0 pos] [|i] h x Hh Hx;
    simpl in *; try discriminate.
  - congruence.
  - eapply IH; eassumption.
Qed.

Lemma pushed_nonempty (hist : list (list (Vec2 A))) (pos : list (Vec2 A)) :
  Forall (fun h => h <> []) (pushed hist pos).
Proof.
  unfold pushed. apply Forall_forall. intros h Hin.
  apply in_map_iff in Hin. destruct Hin as ([h0 x] & <- & _). simpl.
  destruct h0; discriminate.
Qed.

Lemma fresh_history_eq (cfg : SimulationConfig A) (pos : list (Vec2 A)) :
  fresh_history cfg pos (List.length pos)
  = if (store_every cfg =? 0)%nat then Undefined
    else Normal (map (fun p => [p]) pos).
Proof.
  unfold fresh_history, frames.
  destruct (store_every cfg =? 0)%nat; [reflexivity|]. cbn [ebind].
  rewrite record_positions_all by apply repeat_length.
  rewrite first_frames. reflexivity.
Qed.

Lemma Simulation_ctor_eq (NDEBUG : bool) (world : ReflectingWorld A)
  (cfg : SimulationConfig A) (entropy : nat -> RNG) :
  Simulation_ctor RNG_seeded NDEBUG world cfg entropy
  = if negb NDEBUG && (store_every cfg =? 0)%nat
    then Aborted "SimulationConfig::store_every must be >= 1"
    else if record_history cfg && (store_every cfg =? 0)%nat then Undefined
    else Normal
           (mkSimulation world cfg
              (repeat (mkVec2 s_zero s_zero) (n_particles cfg))
              (if record_history cfg
               then repeat [mkVec2 s_zero s_zero] (n_particles cfg) else [])
              (repeat Brownian (n_particles cfg))
              (repeat (brownian cfg) (n_particles cfg))
              (if deterministic cfg
               then map (fun i => RNG_seeded (particle_seed (base_seed cfg) i))
                      (seq 0 (n_particles cfg))
               else map entropy (seq 0 (n_particles cfg)))
              (repeat SpecifiedStepParams_default (n_particles cfg))
              None).
Proof.
  unfold Simulation_ctor.
  set (n := n_particles cfg).
  set (pos := repeat (mkVec2 s_zero s_zero) n).
  assert (Hpos : List.length pos = n) by apply repeat_length.
  assert (Hhist : (if record_history cfg then fresh_history cfg pos n
                   else Normal [])
                  = if record_history cfg && (store_every cfg =? 0)%nat
                    then Undefined
                    else Normal (if record_history cfg
                                 then repeat [mkVec2 s_zero s_zero] n else [])).
  { destruct (record_history cfg); [|reflexivity]. simpl.
    rewrite <- Hpos at 1. rewrite fresh_history_eq.
    destruct (store_every cfg =? 0)%nat; [reflexivity|].
    unfold pos. rewrite map_repeat. reflexivity. }
  rewrite Hhist. clear Hhist.
  assert (Hsizes : forall hist (rngs : list RNG),
             List.length rngs = n ->
             (record_history cfg = true -> List.length hist = n) ->
             sizes_ok (record_history cfg) pos hist (repeat Brownian n)
               (repeat (brownian cfg) n) rngs = true).
  { intros hist rngs Hr Hh. unfold sizes_ok.
    rewrite Hpos, !repeat_length, Hr, !Nat.eqb_refl. simpl.
    destruct (record_history cfg); [|reflexivity].
    rewrite Hh by reflexivity. simpl. apply Nat.eqb_refl. }
  destruct NDEBUG.
  - simpl. destruct (record_history cfg && (store_every cfg =? 0)%nat);
      reflexivity.
  - rewrite lift_assert_debug. simpl negb. cbn [andb].
    destruct (store_every cfg) as [|s] eqn:Es; [reflexivity|].
    cbn [Nat.leb Nat.eqb ebind]. rewrite andb_false_r. cbn [ebind].
    rewrite lift_assert_debug, Hsizes; [reflexivity| |].
    + destruct (deterministic cfg); rewrite length_map, length_seq; reflexivity.
    + intros ->. apply repeat_length.
Qed.

End Construction.

(* ================================================================= *)
(** ** Step counts and strides *)

Lemma div_succ_multiple (k s : nat) :
  s <> 0%nat -> ((k + 1) mod s = 0)%nat -> ((k + 1) / s = S (k / s))%nat.
Proof.
  intros Hs Hm.
  pose proof (Nat.div_mod_eq (k + 1) s) as E1. rewrite Hm in E1.
  pose proof (Nat.div_mod_eq k s) as E0.
  pose proof (Nat.mod_upper_bound k s Hs) as B0.
  nia.
Qed.

Lemma div_succ_other (k s : nat) :
  s <> 0%nat -> ((k + 1) mod s <> 0)%nat -> ((k + 1) / s = k / s)%nat.
Proof.
  intros Hs Hm.
  pose proof (Nat.div_mod_eq (k + 1) s) as E1.
  pose proof (Nat.mod_upper_bound (k + 1) s Hs) as B1.
  pose proof (Nat.div_mod_eq k s) as E0.
  pose proof (Nat.mod_upper_bound k s Hs) as B0.
  nia.
Qed.

Lemma div_multiple_gap (k t s : nat) :
  s <> 0%nat -> (t mod s = 0)%nat -> (k < t)%nat -> (k / s < t / s)%nat.
Proof.
  intros Hs Hm Hlt.
  pose proof (Nat.div_mod_eq t s) as E1. rewrite Hm in E1.
  pose proof (Nat.div_mod_eq k s) as E0.
  pose proof (Nat.mod_upper_bound k s Hs) as B0.
  nia.
Qed.

(* ================================================================= *)
(** ** The driver: one step of one particle, one step of all *)

Section Stepping.
Context {A : Type} `{ExtendedScalar A} {RNG : Type}.
Variable gauss : RNG -> A * RNG.
Variable PUBLIC_SKELETON : bool.

Lemma same_setup_refl (sim : Simulation A RNG) : same_setup sim sim.
Proof. repeat split. Qed.

Lemma same_setup_trans (s1 s2 s3 : Simulation A RNG) :
  same_setup s1 s2 -> same_setup s2 s3 -> same_setup s1 s3.
Proof.
  unfold same_setup. intros (a1 & a2 & a3 & a4 & a5 & a6 & a7 & a8)
    (b1 & b2 & b3 & b4 & b5 & b6 & b7 & b8).
  repeat split; congruence.
Qed.

Lemma particle_in_range (sim : Simulation A RNG) (i : nat) (xr : Vec2 A * RNG) :
  particle sim i = Some xr ->
  (i < List.length (pos_ sim))%nat /\ (i < List.length (rngs_ sim))%nat.
Proof.
  unfold particle.
  destruct (nth_error (pos_ sim) i) eqn:Ep; [|discriminate].
  destruct (nth_error (rngs_ sim) i) eqn:Er; [|discriminate].
  intros _. split; apply nth_error_Some; congruence.
Qed.

Lemma particle_defined (sim : Simulation A RNG) (i : nat) :
  (i < List.length (pos_ sim))%nat -> (i < List.length (rngs_ sim))%nat ->
  exists xr, particle sim i = Some xr.
Proof.
  intros Hp Hr. unfold particle.
  apply nth_error_Some in Hp. apply nth_error_Some in Hr.
  destruct (nth_error (pos_ sim) i); [|congruence].
  destruct (nth_error (rngs_ sim) i); [|congruence]. eauto.
Qed.

Lemma step_particle_eq (sim : Simulation A RNG) (k i : nat) :
  step_particle gauss PUBLIC_SKELETON sim k i
  = match particle sim i with
    | Some xr =>
        let* xr' := own_step gauss PUBLIC_SKELETON sim i k xr in
        Normal (moved sim i xr')
    | None => Undefined
    end.
Proof.
  unfold step_particle, proposed_step, own_step, particle, moved, load.
  destruct (nth_error (pos_ sim) i) as [x|] eqn:Ep;
    destruct (nth_error (rngs_ sim) i) as [rng|] eqn:Er;
    destruct (nth_error (step_type_ sim) i) as [[|]|];
    destruct (specified_cb_ sim) as [cb|];
    destruct (nth_error (brownian_params_ sim) i) as [bp|];
    destruct (nth_error (spec_params_ sim) i) as [sp|];
    cbn [ebind fst snd]; try reflexivity;
    unfold specified_step; destruct PUBLIC_SKELETON; cbn [ebind];
    try reflexivity;
    try (rewrite store_in_range by (apply nth_error_Some; congruence);
         cbn [ebind pos_ with_rngs]; rewrite ?Ep; cbn [ebind];
         try reflexivity;
         rewrite store_in_range by (apply nth_error_Some; congruence);
         reflexivity).
Qed.


Lemma moved_same_setup (sim : Simulation A RNG) (i : nat) (xr : Vec2 A * RNG) :
  same_setup sim (moved sim i xr) /\ hist_ (moved sim i xr) = hist_ sim.
Proof.
  unfold same_setup, moved. cbn. rewrite !set_nth_length. repeat split.
Qed.

Lemma particle_moved_eq (sim : Simulation A RNG) (i : nat) (xr0 xr : Vec2 A * RNG) :
  particle sim i = Some xr0 -> particle (moved sim i xr) i = Some xr.
Proof.
  intros Hp. apply particle_in_range in Hp. destruct Hp as [Hp Hr].
  unfold particle, moved. cbn.
  rewrite !nth_error_set_nth_eq by assumption. destruct xr; reflexivity.
Qed.

Lemma particle_moved_neq (sim : Simulation A RNG) (i j : nat) (xr : Vec2 A * RNG) :
  i <> j -> particle (moved sim i xr) j = particle sim j.
Proof.
  intros Hij. unfold particle, moved. cbn.
  rewrite !nth_error_set_nth_neq by assumption. reflexivity.
Qed.

(** [own_step] reads the world, the callback and the particle's own entries. *)
Lemma own_step_ext (s1 s2 : Simulation A RNG) (i k : nat) (xr : Vec2 A * RNG) :
  world_ s1 = world_ s2 -> specified_cb_ s1 = specified_cb_ s2 ->
  nth_error (step_type_ s1) i = nth_error (step_type_ s2) i ->
  nth_error (brownian_params_ s1) i = nth_error (brownian_params_ s2) i ->
  nth_error (spec_params_ s1) i = nth_error (spec_params_ s2) i ->
  own_step gauss PUBLIC_SKELETON s1 i k xr
  = own_step gauss PUBLIC_SKELETON s2 i k xr.
Proof.
  intros Hw Hc Ht Hb Hs. unfold own_step, load.
  rewrite Hw, Hc, Ht, Hb, Hs. reflexivity.
Qed.

Lemma own_steps_ext (s1 s2 : Simulation A RNG) (i m : nat) :
  world_ s1 = world_ s2 -> specified_cb_ s1 = specified_cb_ s2 ->
  nth_error (step_type_ s1) i = nth_error (step_type_ s2) i ->
  nth_error (brownian_params_ s1) i = nth_error (brownian_params_ s2) i ->
  nth_error (spec_params_ s1) i = nth_error (spec_params_ s2) i ->
  forall (k : nat) (xr : Vec2 A * RNG),
    own_steps gauss PUBLIC_SKELETON s1 i m k xr
    = own_steps gauss PUBLIC_SKELETON s2 i m k xr.
Proof.
  intros Hw Hc Ht Hb Hs. induction m as [|m IH]; intros k xr; simpl; [reflexivity|].
  rewrite (own_step_ext s1 s2) by assumption.
  destruct (own_step gauss PUBLIC_SKELETON s2 i k xr); simpl; auto.
Qed.

Lemma own_step_same_setup (s1 s2 : Simulation A RNG) (i k : nat)
  (xr : Vec2 A * RNG) :
  same_setup s1 s2 ->
  own_step gauss PUBLIC_SKELETON s2 i k xr
  = own_step gauss PUBLIC_SKELETON s1 i k xr.
Proof.
  intros (Hw & _ & Ht & Hb & Hs & Hc & _). apply own_step_ext; congruence.
Qed.

Lemma own_steps_same_setup (s1 s2 : Simulation A RNG) (i m k : nat)
  (xr : Vec2 A * RNG) :
  same_setup s1 s2 ->
  own_steps gauss PUBLIC_SKELETON s2 i m k xr
  = own_steps gauss PUBLIC_SKELETON s1 i m k xr.
Proof.
  intros (Hw & _ & Ht & Hb & Hs & Hc & _). apply own_steps_ext; congruence.
Qed.

Lemma step_particle_normal (sim sim' : Simulation A RNG) (k i : nat) :
  step_particle gauss PUBLIC_SKELETON sim k i = Normal sim' ->
  exists xr xr',
    particle sim i = Some xr
    /\ own_step gauss PUBLIC_SKELETON sim i k xr = Normal xr'
    /\ sim' = moved sim i xr'.
Proof.
  rewrite step_particle_eq. destruct (particle sim i) as [xr|]; [|discriminate].
  intros Hs. apply ebind_normal in Hs. destruct Hs as (xr' & Ho & Hs).
  injection Hs as <-. eauto.
Qed.

(** One pass over the particles [idx]: each of them takes its own step, the
    others stay. *)
Lemma step_particles_normal (idx : list nat) :
  forall (sim sim' : Simulation A RNG) (k : nat),
    NoDup idx ->
    step_particles gauss PUBLIC_SKELETON sim k idx = Normal sim' ->
    same_setup sim sim' /\ hist_ sim' = hist_ sim
    /\ forall i xr,
        particle sim i = Some xr ->
        (In i idx ->
         exists xr', own_step gauss PUBLIC_SKELETON sim i k xr = Normal xr'
                     /\ particle sim' i = Some xr')
        /\ (~ In i idx -> particle sim' i = Some xr).
Proof.
  induction idx as [|i0 idx IH]; intros sim sim' k Hnd Hs.
  - injection Hs as <-. split; [apply same_setup_refl|]. split; [reflexivity|].
    intros i xr Hp. split; [intros []|auto].
  - cbn [step_particles] in Hs. apply ebind_normal in Hs.
    destruct Hs as (s1 & H1 & Hs).
    apply step_particle_normal in H1. destruct H1 as (xr0 & xr0' & Hp0 & Ho0 & ->).
    inversion Hnd as [|? ? Hnotin Hnd']; subst.
    destruct (IH _ _ _ Hnd' Hs) as (Hsame & Hhist & Hrest).
    destruct (moved_same_setup sim i0 xr0') as [Hsame0 Hhist0].
    split; [eapply same_setup_trans; eassumption|].
    split; [congruence|].
    intros i xr Hp. destruct (Nat.eq_dec i0 i) as [<-|Hne].
    + assert (xr = xr0) by congruence. subst xr.
      destruct (Hrest i0 xr0' (particle_moved_eq sim i0 xr0 xr0' Hp0)) as [_ Hout].
      split; [|intros Hn; exfalso; apply Hn; left; reflexivity].
      intros _. exists xr0'. auto.
    + assert (Hp1 : particle (moved sim i0 xr0') i = Some xr)
        by (rewrite particle_moved_neq; assumption).
      destruct (Hrest i xr Hp1) as [Hin Hout]. split.
      * intros [Heq|Hin']; [congruence|].
        destruct (Hin Hin') as (xr' & Ho & Hp'). exists xr'. split; [|assumption].
        rewrite <- Ho. symmetry. apply own_step_same_setup. assumption.
      * intros Hn. apply Hout. intros Hin'. apply Hn. right. assumption.
Qed.

Lemma same_setup_aligned (s1 s2 : Simulation A RNG) :
  same_setup s1 s2 -> aligned s1 -> aligned s2.
Proof.
  unfold same_setup, aligned.
  intros (_ & _ & Ht & Hb & Hs & _ & Hp & Hr) (a1 & a2 & a3 & a4).
  rewrite Ht, Hb, Hs, Hp, Hr. auto.
Qed.

Lemma same_setup_model_available (s1 s2 : Simulation A RNG) :
  same_setup s1 s2 -> model_available s1 -> model_available s2.
Proof.
  unfold same_setup, model_available.
  intros (_ & _ & Ht & _ & _ & Hc & _) Hm. rewrite Ht, Hc. assumption.
Qed.

(** A step whose model is there returns. *)
Lemma own_step_returns_in_range (sim : Simulation A RNG) (i k : nat)
  (xr : Vec2 A * RNG) :
  model_available sim ->
  (i < List.length (step_type_ sim))%nat ->
  (i < List.length (brownian_params_ sim))%nat ->
  exists xr', own_step gauss PUBLIC_SKELETON sim i k xr = Normal xr'.
Proof.
  intros Hm Ht Hb. unfold own_step.
  destruct (load_in_range (step_type_ sim) i Ht) as [type Htype].
  destruct (load_in_range (brownian_params_ sim) i Hb) as [bp Hbp].
  rewrite Htype. cbn [ebind]. destruct type.
  - rewrite Hbp. cbn [ebind]. eauto.
  - destruct Hm as [Hcb|Hall].
    + destruct (specified_cb_ sim); [|congruence]. cbn [ebind]. eauto.
    + apply load_normal in Htype. apply nth_error_In in Htype.
      rewrite Forall_forall in Hall. apply Hall in Htype. discriminate.
Qed.

Lemma step_particles_returns_in_range (idx : list nat) :
  forall (sim : Simulation A RNG) (k : nat),
    model_available sim ->
    (forall i, In i idx ->
               (i < List.length (pos_ sim))%nat
               /\ (i < List.length (rngs_ sim))%nat
               /\ (i < List.length (step_type_ sim))%nat
               /\ (i < List.length (brownian_params_ sim))%nat) ->
    exists sim', step_particles gauss PUBLIC_SKELETON sim k idx = Normal sim'.
Proof.
  induction idx as [|i0 idx IH]; intros sim k Hm Hidx; cbn [step_particles].
  - eauto.
  - destruct (Hidx i0 (or_introl eq_refl)) as (Hp0 & Hr0 & Ht0 & Hb0).
    destruct (particle_defined sim i0 Hp0 Hr0) as [xr Hp].
    destruct (own_step_returns_in_range sim i0 k xr Hm Ht0 Hb0) as [xr' Ho].
    rewrite step_particle_eq, Hp, Ho. cbn [ebind].
    destruct (moved_same_setup sim i0 xr') as [Hsame _].
    apply IH.
    + eapply same_setup_model_available; eassumption.
    + intros i Hi.
      destruct Hsame as (_ & _ & Ht & Hb & _ & _ & Hlp & Hlr).
      rewrite Ht, Hb, Hlp, Hlr. apply Hidx. right. assumption.
Qed.

Lemma step_particles_returns (idx : list nat) :
  forall (sim : Simulation A RNG) (k : nat),
    aligned sim -> model_available sim ->
    (forall i, In i idx -> (i < List.length (pos_ sim))%nat) ->
    exists sim', step_particles gauss PUBLIC_SKELETON sim k idx = Normal sim'.
Proof.
  intros sim k (Ht & Hb & Hr & _) Hm Hidx.
  apply step_particles_returns_in_range; [assumption|].
  intros i Hi. apply Hidx in Hi. lia.
Qed.

Lemma step_particles_app (l1 l2 : list nat) :
  forall (sim : Simulation A RNG) (k : nat),
    step_particles gauss PUBLIC_SKELETON sim k (l1 ++ l2)
    = let* sim := step_particles gauss PUBLIC_SKELETON sim k l1 in
      step_particles gauss PUBLIC_SKELETON sim k l2.
Proof.
  induction l1 as [|i l1 IH]; intros sim k; cbn [app step_particles ebind];
    [reflexivity|].
  destruct (step_particle gauss PUBLIC_SKELETON sim k i); cbn [ebind]; auto.
Qed.

Lemma step_particles_redacted (idx : list nat) :
  forall (sim : Simulation A RNG) (k : nat),
    aligned sim -> specified_cb_ sim = None ->
    (forall i, In i idx -> (i < List.length (pos_ sim))%nat) ->
    (exists i, In i idx /\ nth_error (step_type_ sim) i = Some Specified) ->
    step_particles gauss PUBLIC_SKELETON sim k idx = redacted PUBLIC_SKELETON.
Proof.
  induction idx as [|i0 idx IH]; intros sim k Ha Hcb Hidx (i & Hin & Hspec).
  - destruct Hin.
  - cbn [step_particles].
    assert (Hi0 : (i0 < List.length (pos_ sim))%nat) by (apply Hidx; left; reflexivity).
    destruct (particle_defined sim i0) as [xr Hp];
      [assumption|destruct Ha as (_ & _ & Hr & _); lia|].
    rewrite step_particle_eq, Hp.
    destruct (load_in_range (step_type_ sim) i0) as [type Htype];
      [destruct Ha as (Ht & _); lia|].
    destruct (load_in_range (brownian_params_ sim) i0) as [bp Hbp];
      [destruct Ha as (_ & Hb & _); lia|].
    destruct (load_in_range (spec_params_ sim) i0) as [sp Hsp];
      [destruct Ha as (_ & _ & _ & Hs); lia|].
    unfold own_step at 1. rewrite Htype. cbn [ebind]. destruct type.
    + rewrite Hbp. cbn [ebind].
      set (xr' := (advance_with_reflections _ _ _, _)).
      destruct (moved_same_setup sim i0 xr') as [Hsame _].
      apply IH.
      * eapply same_setup_aligned; eassumption.
      * destruct Hsame as (_ & _ & _ & _ & _ & Hc & _). congruence.
      * intros j Hj. destruct Hsame as (_ & _ & _ & _ & _ & _ & Hlen & _).
        rewrite Hlen. apply Hidx. right. assumption.
      * exists i. destruct Hin as [<-|Hin].
        -- apply load_normal in Htype. congruence.
        -- split; [assumption|].
           destruct Hsame as (_ & _ & Ht & _). rewrite Ht. assumption.
    + rewrite Hcb, Hsp. cbn [ebind]. unfold specified_step, redacted.
      destruct PUBLIC_SKELETON; reflexivity.
Qed.

End Stepping.

(* ================================================================= *)
(** ** The driver: the main loop *)

Section MainLoop.
Context {A : Type} `{ExtendedScalar A} {RNG : Type}.
Variable gauss : RNG -> A * RNG.
Variable PUBLIC_SKELETON : bool.

Lemma record_frame_eq (sim : Simulation A RNG) (k : nat) :
  (record_history (cfg_ sim) = true ->
   List.length (hist_ sim) = List.length (pos_ sim)) ->
  record_frame sim k (List.length (pos_ sim))
  = if record_history (cfg_ sim) then
      if (store_every (cfg_ sim) =? 0)%nat then Undefined
      else if ((k + 1) mod store_every (cfg_ sim) =? 0)%nat
           then Normal (with_hist sim (pushed (hist_ sim) (pos_ sim)))
           else Normal sim
    else Normal sim.
Proof.
  intros Hlen. unfold record_frame.
  destruct (record_history (cfg_ sim)); [|reflexivity].
  rewrite record_positions_all by auto. reflexivity.
Qed.

Lemma record_frame_normal (sim sim' : Simulation A RNG) (k : nat) :
  (record_history (cfg_ sim) = true ->
   List.length (hist_ sim) = List.length (pos_ sim)) ->
  record_frame sim k (List.length (pos_ sim)) = Normal sim' ->
  same_setup sim sim' /\ pos_ sim' = pos_ sim /\ rngs_ sim' = rngs_ sim
  /\ (record_history (cfg_ sim) = true -> store_every (cfg_ sim) <> 0%nat)
  /\ hist_ sim'
     = if record_history (cfg_ sim)
          && ((k + 1) mod store_every (cfg_ sim) =? 0)%nat
       then pushed (hist_ sim) (pos_ sim) else hist_ sim.
Proof.
  intros Hlen. rewrite record_frame_eq by assumption.
  destruct (record_history (cfg_ sim)); cbn [andb].
  - destruct (Nat.eqb_spec (store_every (cfg_ sim)) 0); [discriminate|].
    destruct ((k + 1) mod store_every (cfg_ sim) =? 0)%nat;
      intros Heq; injection Heq as <-; repeat split; auto.
  - intros Heq; injection Heq as <-; repeat split; auto. discriminate.
Qed.

Lemma particle_same_state (s1 s2 : Simulation A RNG) (i : nat) :
  pos_ s2 = pos_ s1 -> rngs_ s2 = rngs_ s1 -> particle s2 i = particle s1 i.
Proof. unfold particle. intros -> ->. reflexivity. Qed.

(** [m] rounds of the main loop, the first being step [k]: every particle
    takes [m] steps of its own, and when histories are recorded each gets one
    frame for every step count in [k+1 .. k+m] that the stride divides. *)
Lemma main_loop_normal (m : nat) :
  forall (k : nat) (sim sim' : Simulation A RNG),
    (record_history (cfg_ sim) = true ->
     List.length (hist_ sim) = List.length (pos_ sim)) ->
    main_loop gauss PUBLIC_SKELETON m k sim (List.length (pos_ sim)) = Normal sim' ->
    same_setup sim sim'
    /\ (forall i xr,
          particle sim i = Some xr ->
          exists xr', own_steps gauss PUBLIC_SKELETON sim i m k xr = Normal xr'
                      /\ particle sim' i = Some xr')
    /\ (record_history (cfg_ sim) = false -> hist_ sim' = hist_ sim)
    /\ (record_history (cfg_ sim) = true ->
        List.length (hist_ sim') = List.length (pos_ sim')
        /\ (Forall (fun h => h <> []) (hist_ sim) ->
            Forall (fun h => h <> []) (hist_ sim'))
        /\ forall i h xr,
            nth_error (hist_ sim) i = Some h ->
            particle sim i = Some xr ->
            exists h',
              nth_error (hist_ sim') i = Some (h ++ h')%list
              /\ List.length h'
                 = ((k + m) / store_every (cfg_ sim) - k / store_every (cfg_ sim))%nat
              /\ forall t,
                  (k < t <= k + m)%nat ->
                  (t mod store_every (cfg_ sim) = 0)%nat ->
                  exists xrt,
                    own_steps gauss PUBLIC_SKELETON sim i (t - k) k xr = Normal xrt
                    /\ nth_error h'
                         (t / store_every (cfg_ sim) - k / store_every (cfg_ sim) - 1)
                       = Some (fst xrt)).
Proof.
  induction m as [|m IH]; intros k sim sim' Hlen Hrun.
  - injection Hrun as <-. split; [apply same_setup_refl|].
    split; [intros i xr Hp; exists xr; auto|]. split; [reflexivity|].
    intros Hrec. split; [auto|]. split; [auto|].
    intros i h xr Hh Hp. exists []. rewrite app_nil_r, Nat.add_0_r, Nat.sub_diag.
    split; [assumption|]. split; [reflexivity|]. intros t Ht. lia.
  - cbn [main_loop] in Hrun.
    apply ebind_normal in Hrun. destruct Hrun as (s1 & H1 & Hrun).
    apply ebind_normal in Hrun. destruct Hrun as (s2 & H2 & Hrun).
    apply step_particles_normal in H1; [|apply seq_NoDup].
    destruct H1 as (Hsame1 & Hhist1 & Hpart1).
    assert (Hn1 : List.length (pos_ s1) = List.length (pos_ sim))
      by (destruct Hsame1 as (_ & _ & _ & _ & _ & _ & Hl & _); exact Hl).
    assert (Hcfg1 : cfg_ s1 = cfg_ sim)
      by (destruct Hsame1 as (_ & Hc & _); exact Hc).
    rewrite <- Hn1 in H2, Hrun.
    assert (Hlen1 : record_history (cfg_ s1) = true ->
                    List.length (hist_ s1) = List.length (pos_ s1))
      by (rewrite Hcfg1, Hhist1, Hn1; exact Hlen).
    apply record_frame_normal in H2; [|exact Hlen1].
    destruct H2 as (Hsame2 & Hpos2 & Hrngs2 & Hstride & Hhist2).
    assert (Hcfg2 : cfg_ s2 = cfg_ sim)
      by (destruct Hsame2 as (_ & Hc & _); congruence).
    rewrite <- Hpos2 in Hrun.
    assert (Hlen2 : record_history (cfg_ s2) = true ->
                    List.length (hist_ s2) = List.length (pos_ s2)).
    { intros Hrec. rewrite Hhist2, Hpos2. rewrite Hcfg2, <- Hcfg1 in Hrec.
      rewrite Hrec. cbn [andb].
      destruct ((k + 1) mod store_every (cfg_ s1) =? 0)%nat;
        [apply pushed_length|]; auto. }
    destruct (IH (S k) s2 sim' Hlen2 Hrun) as (Hsame3 & Hpart3 & Hoff3 & Hon3).
    assert (Hsame02 : same_setup sim s2)
      by (eapply same_setup_trans; eassumption).
    assert (Hstep : forall i xr,
               particle sim i = Some xr ->
               exists xr1, own_step gauss PUBLIC_SKELETON sim i k xr = Normal xr1
                           /\ particle s2 i = Some xr1).
    { intros i xr Hp. destruct (Hpart1 i xr Hp) as [Hin _].
      destruct Hin as (xr1 & Ho & Hp1).
      - apply in_seq. apply particle_in_range in Hp. lia.
      - exists xr1. split; [assumption|].
        rewrite (particle_same_state s1 s2) by assumption. assumption. }
    split; [eapply same_setup_trans; eassumption|].
    split.
    { intros i xr Hp. destruct (Hstep i xr Hp) as (xr1 & Ho & Hp2).
      destruct (Hpart3 i xr1 Hp2) as (xr' & Hos & Hp').
      exists xr'. split; [|assumption].
      cbn [own_steps]. rewrite Ho. cbn [ebind].
      rewrite <- Hos. symmetry. apply own_steps_same_setup. assumption. }
    split.
    { intros Hrec. rewrite Hoff3 by congruence. rewrite Hhist2, Hcfg1, Hrec.
      cbn [andb]. assumption. }
    intros Hrec.
    assert (Hrec2 : record_history (cfg_ s2) = true) by congruence.
    assert (Hrec1 : record_history (cfg_ s1) = true) by congruence.
    destruct (Hon3 Hrec2) as (Hlen3 & Hne3 & Hframes3).
    pose proof (Hstride Hrec1) as Hs. rewrite Hcfg1 in Hs.
    rewrite Hcfg1, Hrec in Hhist2. cbn [andb] in Hhist2. rewrite Hcfg2 in Hframes3.
    set (s := store_every (cfg_ sim)) in *.
    split; [assumption|]. split.
    { intros Hne. apply Hne3. rewrite Hhist2.
      destruct ((k + 1) mod s =? 0)%nat; [apply pushed_nonempty|].
      rewrite Hhist1. assumption. }
    intros i h xr Hh Hp.
    destruct (Hstep i xr Hp) as (xr1 & Ho & Hp2).
    assert (Hx1 : nth_error (pos_ s1) i = Some (fst xr1)).
    { rewrite <- Hpos2. unfold particle in Hp2.
      destruct (nth_error (pos_ s2) i); [|discriminate].
      destruct (nth_error (rngs_ s2) i); [|discriminate].
      injection Hp2 as <-. reflexivity. }
    assert (Hsteps : forall t,
               (S k < t)%nat ->
               own_steps gauss PUBLIC_SKELETON sim i (t - k) k xr
               = own_steps gauss PUBLIC_SKELETON s2 i (t - S k) (S k) xr1).
    { intros t Ht. replace (t - k)%nat with (S (t - S k)) by lia.
      cbn [own_steps]. rewrite Ho. cbn [ebind]. symmetry.
      apply own_steps_same_setup. assumption. }
    destruct (Nat.eqb_spec ((k + 1) mod s) 0) as [Hmod|Hmod].
    + assert (Hh2 : nth_error (hist_ s2) i = Some (h ++ [fst xr1])%list).
      { rewrite Hhist2. apply pushed_nth; [rewrite Hhist1|]; assumption. }
      destruct (Hframes3 i _ xr1 Hh2 Hp2) as (h' & Hh' & Hl' & Ht').
      exists (fst xr1 :: h'). split; [rewrite Hh', <- app_assoc; reflexivity|].
      pose proof (div_succ_multiple k s Hs Hmod) as Hdiv.
      replace (S k) with (k + 1)%nat in Hl', Ht' by lia.
      assert (Hge : ((k + 1) / s <= (k + 1 + m) / s)%nat)
        by (apply Nat.Div0.div_le_mono; lia).
      split.
      { cbn [List.length]. rewrite Hl'.
        replace (k + S m)%nat with (k + 1 + m)%nat by lia. lia. }
      intros t Ht Htm. destruct (Nat.eq_dec t (k + 1)) as [->|Hne].
      * exists xr1. replace (k + 1 - k)%nat with 1%nat by lia.
        cbn [own_steps]. rewrite Ho. cbn [ebind]. split; [reflexivity|].
        rewrite Hdiv. replace (S (k / s) - k / s - 1)%nat with 0%nat by lia.
        reflexivity.
      * destruct (Ht' t) as (xrt & Hot & Hnt); [lia|assumption|].
        exists xrt. split.
        -- rewrite Hsteps by lia. replace (S k) with (k + 1)%nat by lia.
           assumption.
        -- pose proof (div_multiple_gap (k + 1) t s Hs Htm) as Hgap.
           replace (t / s - k / s - 1)%nat
             with (S (t / s - (k + 1) / s - 1)) by lia.
           exact Hnt.
    + assert (Hh2 : nth_error (hist_ s2) i = Some h)
        by (rewrite Hhist2, Hhist1; assumption).
      destruct (Hframes3 i _ xr1 Hh2 Hp2) as (h' & Hh' & Hl' & Ht').
      exists h'. split; [assumption|].
      pose proof (div_succ_other k s Hs Hmod) as Hdiv.
      replace (S k) with (k + 1)%nat in Hl', Ht' by lia.
      split.
      { rewrite Hl'. replace (k + S m)%nat with (k + 1 + m)%nat by lia. lia. }
      intros t Ht Htm.
      assert (Hne : t <> (k + 1)%nat) by (intros ->; contradiction).
      destruct (Ht' t) as (xrt & Hot & Hnt); [lia|assumption|].
      exists xrt. split.
      * rewrite Hsteps by lia. replace (S k) with (k + 1)%nat by lia.
        assumption.
      * rewrite <- Hdiv. exact Hnt.
Qed.

End MainLoop.

(* ================================================================= *)
(** ** The driver: [run] *)

Section Run.
Context {A : Type} `{ExtendedScalar A} {RNG : Type}.
Variable gauss : RNG -> A * RNG.
Variable PUBLIC_SKELETON : bool.

Lemma run_start_recording (sim : Simulation A RNG) :
  record_history (cfg_ (run_start sim)) = true ->
  List.length (hist_ (run_start sim)) = List.length (pos_ (run_start sim)).
Proof.
  unfold run_start.
  destruct (record_history (cfg_ sim)) eqn:Hrec; cbn [andb]; [|congruence].
  destruct (Nat.eqb_spec (List.length (hist_ sim)) (List.length (pos_ sim)));
    cbn [negb]; intros _; [assumption|].
  cbn. apply length_map.
Qed.

Lemma run_start_setup (sim : Simulation A RNG) :
  same_setup sim (run_start sim)
  /\ pos_ (run_start sim) = pos_ sim /\ rngs_ (run_start sim) = rngs_ sim.
Proof.
  unfold run_start.
  destruct (record_history (cfg_ sim) && _); repeat split.
Qed.

(** A call of [run] that returns has either had nothing to do, or has run
    the main loop from [run_start]. *)
Lemma run_normal (NDEBUG : bool) (sim sim' : Simulation A RNG) :
  run gauss NDEBUG PUBLIC_SKELETON sim = Normal sim' ->
  ((pos_ sim = [] \/ n_steps (cfg_ sim) = 0%nat) /\ sim' = sim)
  \/ (pos_ sim <> [] /\ n_steps (cfg_ sim) <> 0%nat
      /\ main_loop gauss PUBLIC_SKELETON (n_steps (cfg_ sim)) 0 (run_start sim)
           (List.length (pos_ (run_start sim))) = Normal sim').
Proof.
  unfold run.
  destruct (Nat.eqb_spec (List.length (pos_ sim)) 0) as [Hn|Hn]; cbn [orb].
  { intros Heq. injection Heq as <-. left. split; [|reflexivity].
    left. destruct (pos_ sim); [reflexivity|discriminate]. }
  destruct (Nat.eqb_spec (n_steps (cfg_ sim)) 0) as [Hs|Hs].
  { intros Heq. injection Heq as <-. left. auto. }
  intros Hrun. right.
  split; [intros Hp; rewrite Hp in Hn; apply Hn; reflexivity|].
  split; [assumption|].
  do 4 (apply ebind_normal in Hrun; destruct Hrun as (? & _ & Hrun)).
  apply ebind_normal in Hrun. destruct Hrun as (s1 & Hstart & Hrun).
  assert (Hs1 : s1 = run_start sim).
  { unfold run_start.
    destruct (record_history (cfg_ sim)
              && negb (List.length (hist_ sim) =? List.length (pos_ sim))%nat).
    - apply ebind_normal in Hstart. destruct Hstart as (hist & Hh & Hstart).
      injection Hstart as <-. rewrite fresh_history_eq in Hh.
      destruct (store_every (cfg_ sim) =? 0)%nat; [discriminate|].
      injection Hh as <-. reflexivity.
    - injection Hstart as <-. reflexivity. }
  subst s1. destruct (run_start_setup sim) as ((_ & Hcfg & _) & Hpos & _).
  rewrite Hcfg in Hrun. rewrite Hpos. assumption.
Qed.

(** When the containers are aligned and the stride is one the constructor
    accepts, [run] is the main loop. *)
Lemma run_eq (NDEBUG : bool) (sim : Simulation A RNG) :
  aligned sim -> history_shape sim -> stride_ok NDEBUG sim ->
  run gauss NDEBUG PUBLIC_SKELETON sim
  = if (List.length (pos_ sim) =? 0)%nat || (n_steps (cfg_ sim) =? 0)%nat
    then Normal sim
    else main_loop gauss PUBLIC_SKELETON (n_steps (cfg_ sim)) 0 sim
           (List.length (pos_ sim)).
Proof.
  intros (Ht & Hb & Hr & _) Hshape Hstride. unfold run.
  destruct ((List.length (pos_ sim) =? 0)%nat || (n_steps (cfg_ sim) =? 0)%nat);
    [reflexivity|].
  assert (Hblock : record_history (cfg_ sim)
                   && negb (List.length (hist_ sim) =? List.length (pos_ sim))%nat
                   = false).
  { unfold history_shape in Hshape. destruct (record_history (cfg_ sim)); [|reflexivity].
    destruct Hshape as [-> _]. rewrite Nat.eqb_refl. reflexivity. }
  rewrite Hblock, Ht, Hb, Hr, Nat.eqb_refl.
  unfold stride_ok in Hstride. destruct NDEBUG; [reflexivity|].
  apply Nat.leb_le in Hstride. rewrite Hstride. reflexivity.
Qed.


Lemma particle_none (sim : Simulation A RNG) (i : nat) :
  particle sim i = None
  <-> (List.length (pos_ sim) <= i)%nat \/ (List.length (rngs_ sim) <= i)%nat.
Proof.
  unfold particle. split.
  - destruct (nth_error (pos_ sim) i) eqn:Ep.
    + destruct (nth_error (rngs_ sim) i) eqn:Er; [discriminate|].
      intros _. right. apply nth_error_None. assumption.
    + intros _. left. apply nth_error_None. assumption.
  - intros [Hi|Hi]; apply nth_error_None in Hi; rewrite Hi;
      [|destruct (nth_error (pos_ sim) i)]; reflexivity.
Qed.

Lemma run_same_setup (NDEBUG : bool) (sim sim' : Simulation A RNG) :
  run gauss NDEBUG PUBLIC_SKELETON sim = Normal sim' -> same_setup sim sim'.
Proof.
  intros Hrun. apply run_normal in Hrun.
  destruct Hrun as [[_ ->]|(_ & _ & Hloop)]; [apply same_setup_refl|].
  apply main_loop_normal in Hloop; [|apply run_start_recording].
  destruct Hloop as (Hsame & _).
  eapply same_setup_trans; [apply run_start_setup|assumption].
Qed.

Lemma run_own_steps (NDEBUG : bool)
  (sim sim' : Simulation A RNG) (i : nat) (xr : Vec2 A * RNG) :
  run gauss NDEBUG PUBLIC_SKELETON sim = Normal sim' ->
  particle sim i = Some xr ->
  exists xr',
    own_steps gauss PUBLIC_SKELETON sim i (n_steps (cfg_ sim)) 0 xr = Normal xr'
    /\ particle sim' i = Some xr'.
Proof.
  intros Hrun Hp. apply run_normal in Hrun.
  destruct Hrun as [[[Hempty|Hsteps] ->]|(_ & _ & Hloop)].
  - apply particle_in_range in Hp. rewrite Hempty in Hp. simpl in Hp. lia.
  - rewrite Hsteps. exists xr. split; [reflexivity|assumption].
  - apply main_loop_normal in Hloop; [|apply run_start_recording].
    destruct Hloop as (_ & Hpart & _).
    destruct (run_start_setup sim) as (Hsame & Hpos & Hrngs).
    destruct (Hpart i xr) as (xr' & Ho & Hp').
    + rewrite (particle_same_state sim (run_start sim)); assumption.
    + exists xr'. split; [|assumption]. rewrite <- Ho. symmetry.
      apply own_steps_same_setup. assumption.
Qed.

(** X10.  [run] moves every particle by its own steps: when [run] returns,
    the position and the generator of particle [i] are those that
    [n_steps] repetitions of the loop body give from the particle's own
    position, generator, step model and parameters. *)
Theorem run_moves_each_particle_alone (NDEBUG : bool)
  (sim sim' : Simulation A RNG) (i : nat) (xr : Vec2 A * RNG) :
  run gauss NDEBUG PUBLIC_SKELETON sim = Normal sim' ->
  particle sim i = Some xr ->
  exists xr',
    own_steps gauss PUBLIC_SKELETON sim i (n_steps (cfg_ sim)) 0 xr = Normal xr'
    /\ particle sim' i = Some xr'.
Proof. exact (run_own_steps NDEBUG sim sim' i xr). Qed.

(** X11.  The particles do not interact: two objects that agree on the world,
    the callback, the number of steps and the entries of particle [i] leave
    particle [i] in the same state when [run] returns on both, whatever the
    other particles, the histories, the stride and the build are. *)
Theorem run_particles_independent (NDEBUG1 NDEBUG2 : bool)
  (s1 s2 s1' s2' : Simulation A RNG) (i : nat) :
  run gauss NDEBUG1 PUBLIC_SKELETON s1 = Normal s1' ->
  run gauss NDEBUG2 PUBLIC_SKELETON s2 = Normal s2' ->
  world_ s1 = world_ s2 ->
  specified_cb_ s1 = specified_cb_ s2 ->
  n_steps (cfg_ s1) = n_steps (cfg_ s2) ->
  nth_error (step_type_ s1) i = nth_error (step_type_ s2) i ->
  nth_error (brownian_params_ s1) i = nth_error (brownian_params_ s2) i ->
  nth_error (spec_params_ s1) i = nth_error (spec_params_ s2) i ->
  particle s1 i = particle s2 i ->
  particle s1' i = particle s2' i.
Proof.
  intros Hrun1 Hrun2 Hw Hcb Hn Ht Hb Hs Hp.
  destruct (particle s1 i) as [xr|] eqn:Hp1.
  - symmetry in Hp.
    destruct (run_own_steps _ _ _ _ _ Hrun1 Hp1) as (x1 & Ho1 & ->).
    destruct (run_own_steps _ _ _ _ _ Hrun2 Hp) as (x2 & Ho2 & ->).
    rewrite (own_steps_ext gauss PUBLIC_SKELETON s1 s2) in Ho1 by assumption.
    rewrite Hn in Ho1. congruence.
  - symmetry in Hp.
    apply run_same_setup in Hrun1. apply run_same_setup in Hrun2.
    destruct Hrun1 as (_ & _ & _ & _ & _ & _ & Hl1 & Hr1).
    destruct Hrun2 as (_ & _ & _ & _ & _ & _ & Hl2 & Hr2).
    apply particle_none in Hp1. apply particle_none in Hp.
    rewrite <- Hl1, <- Hr1 in Hp1. rewrite <- Hl2, <- Hr2 in Hp.
    apply particle_none in Hp1. apply particle_none in Hp. congruence.
Qed.

Lemma run_frames (NDEBUG : bool) (sim sim' : Simulation A RNG)
  (i : nat) (h : list (Vec2 A)) (xr : Vec2 A * RNG) :
  run gauss NDEBUG PUBLIC_SKELETON sim = Normal sim' ->
  record_history (cfg_ sim) = true ->
  List.length (hist_ sim) = List.length (pos_ sim) ->
  nth_error (hist_ sim) i = Some h ->
  particle sim i = Some xr ->
  exists h',
    nth_error (hist_ sim') i = Some (h ++ h')%list
    /\ List.length h' = (n_steps (cfg_ sim) / store_every (cfg_ sim))%nat
    /\ forall j,
        (1 <= j <= n_steps (cfg_ sim) / store_every (cfg_ sim))%nat ->
        exists xrj,
          own_steps gauss PUBLIC_SKELETON sim i (j * store_every (cfg_ sim)) 0 xr
          = Normal xrj
          /\ nth_error h' (j - 1) = Some (fst xrj).
Proof.
  intros Hrun Hrec Hlen Hh Hp. apply run_normal in Hrun.
  destruct Hrun as [[[Hempty|Hsteps] ->]|(_ & _ & Hloop)].
  - apply particle_in_range in Hp. rewrite Hempty in Hp. simpl in Hp. lia.
  - exists []. rewrite app_nil_r, Hsteps, Nat.Div0.div_0_l.
    split; [assumption|]. split; [reflexivity|]. intros j Hj. lia.
  - assert (Hstart : run_start sim = sim).
    { unfold run_start. rewrite Hrec, Hlen, Nat.eqb_refl. reflexivity. }
    rewrite Hstart in Hloop.
    apply main_loop_normal in Hloop; [|auto].
    destruct Hloop as (_ & _ & _ & Hon).
    destruct (Hon Hrec) as (_ & _ & Hframes).
    destruct (Hframes i h xr Hh Hp) as (h' & Hh' & Hl' & Ht').
    exists h'. split; [assumption|].
    rewrite Nat.add_0_l, Nat.Div0.div_0_l, Nat.sub_0_r in Hl'.
    split; [assumption|].
    intros j Hj. set (s := store_every (cfg_ sim)) in *.
    assert (Hs : s <> 0%nat).
    { intros Hz. rewrite Hz in Hj. simpl in Hj. lia. }
    destruct (Ht' (j * s)%nat) as (xrt & Ho & Hn).
    + pose proof (Nat.Div0.mul_div_le (n_steps (cfg_ sim)) s). nia.
    + apply Nat.Div0.mod_mul.
    + exists xrt. rewrite Nat.sub_0_r in Ho. split; [assumption|].
      rewrite Nat.div_mul, Nat.Div0.div_0_l, Nat.sub_0_r in Hn by assumption.
      assumption.
Qed.

(** X12.  With histories recorded, [run] appends [n_steps / store_every]
    frames to the history of every particle (the quotient rounded down, so
    the state after the last step is left out unless the stride divides
    [n_steps]), and frame [j] of them is the position of the particle after
    [j * store_every] steps. *)
Theorem run_history_frames (NDEBUG : bool) (sim sim' : Simulation A RNG)
  (i : nat) (h : list (Vec2 A)) (xr : Vec2 A * RNG) :
  run gauss NDEBUG PUBLIC_SKELETON sim = Normal sim' ->
  record_history (cfg_ sim) = true ->
  List.length (hist_ sim) = List.length (pos_ sim) ->
  nth_error (hist_ sim) i = Some h ->
  particle sim i = Some xr ->
  exists h',
    nth_error (hist_ sim') i = Some (h ++ h')%list
    /\ List.length h' = (n_steps (cfg_ sim) / store_every (cfg_ sim))%nat
    /\ forall j,
        (1 <= j <= n_steps (cfg_ sim) / store_every (cfg_ sim))%nat ->
        exists xrj,
          own_steps gauss PUBLIC_SKELETON sim i (j * store_every (cfg_ sim)) 0 xr
          = Normal xrj
          /\ nth_error h' (j - 1) = Some (fst xrj).
Proof. exact (run_frames NDEBUG sim sim' i h xr). Qed.

End Run.

(* ================================================================= *)
(** ** The driver: when [run] returns *)

Section RunEffects.
Context {A : Type} `{ExtendedScalar A} {RNG : Type}.
Variable gauss : RNG -> A * RNG.
Variable PUBLIC_SKELETON : bool.

Lemma stride_ok_recording (NDEBUG : bool) (sim : Simulation A RNG) :
  stride_ok NDEBUG sim -> record_history (cfg_ sim) = true ->
  store_every (cfg_ sim) <> 0%nat.
Proof. unfold stride_ok. destruct NDEBUG; [auto|lia]. Qed.

Lemma main_loop_returns (m : nat) :
  forall (k : nat) (sim : Simulation A RNG),
    aligned sim -> model_available sim ->
    (record_history (cfg_ sim) = true ->
     List.length (hist_ sim) = List.length (pos_ sim)
     /\ store_every (cfg_ sim) <> 0%nat) ->
    exists sim',
      main_loop gauss PUBLIC_SKELETON m k sim (List.length (pos_ sim)) = Normal sim'.
Proof.
  induction m as [|m IH]; intros k sim Ha Hm Hrec; cbn [main_loop]; [eauto|].
  destruct (step_particles_returns gauss PUBLIC_SKELETON
              (seq 0 (List.length (pos_ sim))) sim k Ha Hm) as [s1 H1].
  { intros i Hi. apply in_seq in Hi. lia. }
  rewrite H1. cbn [ebind].
  apply step_particles_normal in H1; [|apply seq_NoDup].
  destruct H1 as (Hsame1 & Hhist1 & _).
  pose proof Hsame1 as (_ & Hcfg1 & _ & _ & _ & _ & Hn1 & _).
  rewrite <- Hn1.
  assert (Hlen1 : record_history (cfg_ s1) = true ->
                  List.length (hist_ s1) = List.length (pos_ s1)).
  { rewrite Hcfg1, Hhist1, Hn1. intros Hr. apply Hrec. assumption. }
  rewrite record_frame_eq by assumption.
  assert (Hgo : forall s2,
             same_setup s1 s2 -> pos_ s2 = pos_ s1 ->
             (record_history (cfg_ sim) = true ->
              List.length (hist_ s2) = List.length (pos_ s1)) ->
             exists sim',
               main_loop gauss PUBLIC_SKELETON m (S k) s2 (List.length (pos_ s1))
               = Normal sim').
  { intros s2 Hsame2 Hpos2 Hlen2. rewrite <- Hpos2. apply IH.
    - eapply same_setup_aligned; [|eassumption].
      eapply same_setup_trans; eassumption.
    - eapply same_setup_model_available; [|eassumption].
      eapply same_setup_trans; eassumption.
    - destruct Hsame2 as (_ & Hcfg2 & _). rewrite Hcfg2, Hcfg1, Hpos2.
      intros Hr. split; [auto|]. apply Hrec. assumption. }
  rewrite Hcfg1.
  destruct (record_history (cfg_ sim)) eqn:Hr.
  - destruct (Nat.eqb_spec (store_every (cfg_ sim)) 0) as [Hz|_];
      [exfalso; apply (proj2 (Hrec eq_refl)); assumption|].
    destruct ((k + 1) mod store_every (cfg_ sim) =? 0)%nat; cbn [ebind].
    + apply Hgo; [repeat split|reflexivity|].
      intros _. cbn. apply pushed_length. apply Hlen1. congruence.
    + apply Hgo; [apply same_setup_refl|reflexivity|].
      intros _. apply Hlen1. congruence.
  - cbn [ebind]. apply Hgo; [apply same_setup_refl|reflexivity|discriminate].
Qed.

(** X13.  [run] on an object whose containers are aligned returns whenever
    no particle depends on the redacted step model: a callback is set, or
    every particle is Brownian.  With a particle on the specified model and
    no callback, a run of at least one step ends in [specified_step]: by
    [std::runtime_error] in the public build, and in undefined behaviour in
    a build without [PUBLIC_SKELETON]. *)
Theorem run_returns_unless_redacted (NDEBUG : bool) (sim : Simulation A RNG) :
  aligned sim -> history_shape sim -> stride_ok NDEBUG sim ->
  (model_available sim ->
   exists sim', run gauss NDEBUG PUBLIC_SKELETON sim = Normal sim')
  /\ (pos_ sim <> [] -> n_steps (cfg_ sim) <> 0%nat ->
      specified_cb_ sim = None ->
      (exists i, nth_error (step_type_ sim) i = Some Specified) ->
      run gauss NDEBUG PUBLIC_SKELETON sim = redacted PUBLIC_SKELETON).
Proof.
  intros Ha Hshape Hstride. rewrite run_eq by assumption. split.
  - intros Hm.
    destruct ((List.length (pos_ sim) =? 0)%nat || (n_steps (cfg_ sim) =? 0)%nat);
      [eauto|].
    apply main_loop_returns; try assumption.
    intros Hrec. split.
    + unfold history_shape in Hshape. rewrite Hrec in Hshape. apply Hshape.
    + eapply stride_ok_recording; eassumption.
  - intros Hpos Hsteps Hcb (i & Hspec).
    destruct (Nat.eqb_spec (List.length (pos_ sim)) 0) as [Hz|_].
    { destruct (pos_ sim); [contradiction|discriminate]. }
    destruct (Nat.eqb_spec (n_steps (cfg_ sim)) 0) as [Hz|_]; [contradiction|].
    cbn [orb]. destruct (n_steps (cfg_ sim)) as [|m]; [contradiction|].
    cbn [main_loop].
    rewrite (step_particles_redacted gauss PUBLIC_SKELETON); try assumption.
    + unfold redacted. destruct PUBLIC_SKELETON; reflexivity.
    + intros j Hj. apply in_seq in Hj. lia.
    + exists i. split; [|assumption]. apply in_seq.
      assert (Hi : nth_error (step_type_ sim) i <> None) by congruence.
      apply nth_error_Some in Hi. destruct Ha as (Ht & _). lia.
Qed.

End RunEffects.

(* ================================================================= *)
(** ** The driver: the setters *)

Section Setters.
Context {A : Type} `{ExtendedScalar A} {RNG : Type}.

Lemma Forall_set_nth {T : Type} (P : T -> Prop) (v : list T) (i : nat) (x : T) :
  Forall P v -> P x -> Forall P (set_nth v i x).
Proof.
  intros Hv Hx. revert i. induction Hv as [|y v Hy Hv IH]; intros [|i]; simpl;
    constructor; auto.
Qed.

Lemma set_positions_eq (NDEBUG : bool) (sim : Simulation A RNG)
  (positions : list (Vec2 A)) :
  set_positions NDEBUG sim positions
  = if negb NDEBUG
       && negb (List.length positions =? List.length (pos_ sim))%nat
    then Aborted "set_positions: size mismatch with n_particles"
    else if record_history (cfg_ sim) && (store_every (cfg_ sim) =? 0)%nat
         then Undefined
         else Normal (if record_history (cfg_ sim)
                      then with_hist (with_pos sim positions)
                             (map (fun p => [p]) positions)
                      else with_pos sim positions).
Proof.
  unfold set_positions.
  assert (Hrest :
    forall u : unit,
      (let* sim0 :=
         (if record_history (cfg_ (with_pos sim positions))
          then let* hist := fresh_history (cfg_ (with_pos sim positions))
                              (pos_ (with_pos sim positions))
                              (List.length (pos_ (with_pos sim positions))) in
               Normal (with_hist (with_pos sim positions) hist)
          else Normal (with_pos sim positions)) in
       (if record_history (cfg_ sim0)
        then lift (assert NDEBUG
                     (List.length (hist_ sim0) =? List.length (pos_ sim0))%nat
                     "set_positions: history size must match n_particles")
        else Normal tt) ;> Normal sim0)
      = if record_history (cfg_ sim) && (store_every (cfg_ sim) =? 0)%nat
        then Undefined
        else Normal (if record_history (cfg_ sim)
                     then with_hist (with_pos sim positions)
                            (map (fun p => [p]) positions)
                     else with_pos sim positions)).
  { intros _. cbn [cfg_ pos_ with_pos].
    destruct (record_history (cfg_ sim)) eqn:Hrec; cbn [andb].
    - rewrite fresh_history_eq.
      destruct (store_every (cfg_ sim) =? 0)%nat; [reflexivity|].
      cbn [ebind cfg_ with_hist with_pos hist_ pos_]. rewrite Hrec, length_map, Nat.eqb_refl.
      destruct NDEBUG; reflexivity.
    - cbn [ebind cfg_ with_pos]. rewrite Hrec. reflexivity. }
  destruct NDEBUG; cbn [negb andb].
  - cbn [assert lift ebind]. apply Hrest. exact tt.
  - rewrite lift_assert_debug.
    destruct (List.length positions =? List.length (pos_ sim))%nat;
      cbn [negb ebind]; [|reflexivity].
    apply Hrest. exact tt.
Qed.

Lemma assert_not_stepped_release (hist : list (list (Vec2 A))) :
  assert_not_stepped true hist = Returns tt.
Proof. induction hist as [|h hist IH]; simpl; auto. Qed.

Lemma assert_not_stepped_debug (hist : list (list (Vec2 A))) :
  assert_not_stepped false hist
  = if forallb (fun h => (List.length h <=? 1)%nat) hist then Returns tt
    else AssertionFailed
           "set_position: called after stepping; use set_positions() or reset()".
Proof.
  induction hist as [|h hist IH]; [reflexivity|].
  cbn [assert_not_stepped forallb assert].
  destruct (List.length h <=? 1)%nat; cbn [bind andb]; auto.
Qed.

(** A call of [set_position] that returns has written [p] to [pos_[i]] and
    to frame 0 of the history of particle [i], and nothing else. *)
Lemma set_position_normal (NDEBUG : bool) (sim sim' : Simulation A RNG)
  (i : nat) (p : Vec2 A) :
  history_shape sim ->
  set_position NDEBUG sim i p = Normal sim' ->
  (i < List.length (pos_ sim))%nat
  /\ exists hist,
      sim' = with_hist (with_pos sim (set_nth (pos_ sim) i p)) hist
      /\ if record_history (cfg_ sim)
         then exists h, nth_error (hist_ sim) i = Some h
                        /\ hist = set_nth (hist_ sim) i (p :: tl h)
         else hist = hist_ sim.
Proof.
  intros Hshape Hset. unfold set_position in Hset.
  apply ebind_normal in Hset. destruct Hset as (u & _ & Hset).
  apply ebind_normal in Hset. destruct Hset as (pos & Hstore & Hset).
  apply store_normal in Hstore. destruct Hstore as [Hi ->].
  split; [assumption|].
  cbn [cfg_ hist_ pos_ with_pos] in Hset.
  unfold history_shape in Hshape.
  destruct (record_history (cfg_ sim)).
  - destruct Hshape as [Hlen Hne].
    destruct (hist_ sim) as [|h0 hs] eqn:Ehist; [simpl in Hlen; lia|].
    apply ebind_normal in Hset. destruct Hset as (hist & Hhist & Hset).
    apply ebind_normal in Hhist. destruct Hhist as (? & _ & Hhist).
    apply ebind_normal in Hhist. destruct Hhist as (? & _ & Hhist).
    injection Hhist as <-.
    apply ebind_normal in Hset. destruct Hset as (h & Hload & Hset).
    apply load_normal in Hload.
    apply ebind_normal in Hset. destruct Hset as (hist' & Hstore & Hset).
    injection Hset as <-.
    assert (Hh : h <> []).
    { rewrite Forall_forall in Hne. apply Hne. eapply nth_error_In; eassumption. }
    destruct h as [|f0 h]; [contradiction|].
    apply store_normal in Hstore. destruct Hstore as [_ ->].
    exists (set_nth (h0 :: hs) i (p :: h)). split; [reflexivity|].
    exists (f0 :: h). split; [assumption|reflexivity].
  - injection Hset as <-. exists (hist_ sim). split; [|reflexivity].
    destruct sim; reflexivity.
Qed.

End Setters.

(* ================================================================= *)
(** ** The driver: what every object satisfies *)

Section Reachable.
Context {A : Type} `{ExtendedScalar A} {RNG : Type}.
Variable gauss : RNG -> A * RNG.
Variable RNG_seeded : Z -> RNG.
Variables NDEBUG PUBLIC_SKELETON : bool.

Lemma run_start_id (sim : Simulation A RNG) :
  history_shape sim -> run_start sim = sim.
Proof.
  unfold history_shape, run_start.
  destruct (record_history (cfg_ sim)); [|reflexivity].
  intros [-> _]. rewrite Nat.eqb_refl. reflexivity.
Qed.

Lemma same_setup_sized (s1 s2 : Simulation A RNG) :
  same_setup s1 s2 -> sized s1 -> sized s2.
Proof.
  intros Hsame [Hn Ha]. split; [|eapply same_setup_aligned; eassumption].
  destruct Hsame as (_ & Hcfg & _ & _ & _ & _ & Hlen & _). congruence.
Qed.

Lemma ctor_invariant (world : ReflectingWorld A) (cfg : SimulationConfig A)
  (entropy : nat -> RNG) (sim : Simulation A RNG) :
  Simulation_ctor RNG_seeded NDEBUG world cfg entropy = Normal sim ->
  invariant NDEBUG sim /\ sized sim.
Proof.
  rewrite Simulation_ctor_eq.
  destruct (negb NDEBUG && (store_every cfg =? 0)%nat) eqn:Hdebug; [discriminate|].
  destruct (record_history cfg && (store_every cfg =? 0)%nat) eqn:Hrel;
    [discriminate|].
  intros Heq. injection Heq as <-.
  assert (Hsized : sized
            (mkSimulation world cfg
               (repeat (mkVec2 s_zero s_zero) (n_particles cfg))
               (if record_history cfg
                then repeat [mkVec2 s_zero s_zero] (n_particles cfg) else [])
               (repeat Brownian (n_particles cfg))
               (repeat (brownian cfg) (n_particles cfg))
               (if deterministic cfg
                then map (fun i => RNG_seeded (particle_seed (base_seed cfg) i))
                       (seq 0 (n_particles cfg))
                else map entropy (seq 0 (n_particles cfg)))
               (repeat SpecifiedStepParams_default (n_particles cfg))
               None)).
  { unfold sized, aligned. cbn. rewrite !repeat_length.
    destruct (deterministic cfg); rewrite length_map, length_seq; auto. }
  split; [|exact Hsized]. split; [|split; [|intros _; exact Hsized]].
  - unfold history_shape. cbn. destruct (record_history cfg); [|reflexivity].
    rewrite !repeat_length. split; [reflexivity|].
    apply Forall_forall. intros h Hin. apply repeat_spec in Hin. subst h.
    discriminate.
  - unfold stride_ok. cbn. destruct NDEBUG.
    + intros Hrec. rewrite Hrec in Hrel. cbn in Hrel.
      apply Nat.eqb_neq. assumption.
    + cbn in Hdebug. apply Nat.eqb_neq in Hdebug. lia.
Qed.

Lemma call_invariant (c : Call A RNG) (sim sim' : Simulation A RNG) :
  invariant NDEBUG sim ->
  call gauss NDEBUG PUBLIC_SKELETON c sim = Normal sim' ->
  invariant NDEBUG sim'.
Proof.
  intros (Hshape & Hstride & Hsized) Hcall.
  destruct c as [type|i type|i p|i p|p|cb|positions|i p|]; cbn [call] in Hcall.
  - injection Hcall as <-. split; [exact Hshape|]. split; [exact Hstride|].
    intros Hd. destruct (Hsized Hd) as (Hn & Ht & Hrest).
    split; [exact Hn|]. split; [|exact Hrest]. cbn. rewrite length_map. exact Ht.
  - unfold set_step_type in Hcall.
    apply ebind_normal in Hcall. destruct Hcall as (? & _ & Hcall).
    apply ebind_normal in Hcall. destruct Hcall as (st & Hstore & Hcall).
    injection Hcall as <-. apply store_normal in Hstore. destruct Hstore as [_ ->].
    split; [exact Hshape|]. split; [exact Hstride|].
    intros Hd. destruct (Hsized Hd) as (Hn & Ht & Hrest).
    split; [exact Hn|]. split; [|exact Hrest]. cbn. rewrite set_nth_length. exact Ht.
  - unfold set_brownian_params in Hcall.
    apply ebind_normal in Hcall. destruct Hcall as (? & _ & Hcall).
    apply ebind_normal in Hcall. destruct Hcall as (bp & Hstore & Hcall).
    injection Hcall as <-. apply store_normal in Hstore. destruct Hstore as [_ ->].
    split; [exact Hshape|]. split; [exact Hstride|].
    intros Hd. destruct (Hsized Hd) as (Hn & Ht & Hb & Hrest).
    split; [exact Hn|]. split; [exact Ht|]. split; [|exact Hrest].
    cbn. rewrite set_nth_length. exact Hb.
  - unfold set_specified_params in Hcall.
    apply ebind_normal in Hcall. destruct Hcall as (? & _ & Hcall).
    apply ebind_normal in Hcall. destruct Hcall as (sp & Hstore & Hcall).
    injection Hcall as <-. apply store_normal in Hstore. destruct Hstore as [_ ->].
    split; [exact Hshape|]. split; [exact Hstride|].
    intros Hd. destruct (Hsized Hd) as (Hn & Ht & Hb & Hr & Hs).
    split; [exact Hn|]. repeat (split; [assumption|]).
    cbn. rewrite set_nth_length. exact Hs.
  - injection Hcall as <-. split; [exact Hshape|]. split; [exact Hstride|].
    intros Hd. destruct (Hsized Hd) as (Hn & Ht & Hb & Hr & Hs).
    split; [exact Hn|]. repeat (split; [assumption|]).
    cbn. rewrite length_map. exact Hs.
  - injection Hcall as <-. split; [exact Hshape|]. split; [exact Hstride|].
    exact Hsized.
  - rewrite set_positions_eq in Hcall.
    destruct (negb NDEBUG
              && negb (List.length positions =? List.length (pos_ sim))%nat)
      eqn:Hcheck; [discriminate|].
    destruct (record_history (cfg_ sim) && (store_every (cfg_ sim) =? 0)%nat);
      [discriminate|].
    injection Hcall as <-.
    unfold invariant, history_shape, stride_ok, sized, aligned in *.
    destruct (record_history (cfg_ sim)) eqn:Hrec; cbn; rewrite ?Hrec.
    + split.
      { split; [apply length_map|]. apply Forall_forall. intros h Hin.
        apply in_map_iff in Hin. destruct Hin as (p & <- & _). discriminate. }
      split; [exact Hstride|]. intros Hd. subst NDEBUG. cbn in Hcheck.
      apply negb_false_iff, Nat.eqb_eq in Hcheck. rewrite Hcheck.
      apply Hsized. reflexivity.
    + split; [exact Hshape|]. split; [exact Hstride|].
      intros Hd. subst NDEBUG. cbn in Hcheck.
      apply negb_false_iff, Nat.eqb_eq in Hcheck. rewrite Hcheck.
      apply Hsized. reflexivity.
  - apply set_position_normal in Hcall; [|exact Hshape].
    destruct Hcall as (Hi & hist & -> & Hhist).
    unfold invariant, history_shape, stride_ok, sized, aligned in *.
    cbn. rewrite !set_nth_length.
    split; [|split; [exact Hstride|exact Hsized]].
    destruct (record_history (cfg_ sim)).
    + destruct Hhist as (h & Hh & ->). destruct Hshape as [Hlen Hne].
      rewrite set_nth_length. split; [exact Hlen|].
      apply Forall_set_nth; [exact Hne|discriminate].
    + subst hist. exact Hshape.
  - pose proof (run_same_setup _ _ _ _ _ Hcall) as Hsame.
    apply run_normal in Hcall.
    destruct Hcall as [[_ ->]|(_ & _ & Hloop)];
      [split; [exact Hshape|split; [exact Hstride|exact Hsized]]|].
    rewrite (run_start_id sim Hshape) in Hloop.
    assert (Hlen : record_history (cfg_ sim) = true ->
                   List.length (hist_ sim) = List.length (pos_ sim)).
    { unfold history_shape in Hshape. intros Hrec. rewrite Hrec in Hshape.
      apply Hshape. }
    apply main_loop_normal in Hloop; [|exact Hlen].
    destruct Hloop as (_ & _ & Hoff & Hon).
    pose proof Hsame as (_ & Hcfg & _).
    split; [|split].
    + unfold history_shape in *. rewrite Hcfg.
      destruct (record_history (cfg_ sim)) eqn:Hrec.
      * destruct (Hon eq_refl) as (Hlen' & Hne' & _).
        split; [exact Hlen'|]. apply Hne'. apply Hshape.
      * rewrite Hoff by reflexivity. exact Hshape.
    + unfold stride_ok in *. rewrite Hcfg. exact Hstride.
    + intros Hd. eapply same_setup_sized; [exact Hsame|]. apply Hsized. exact Hd.
Qed.

Lemma reachable_inv (sim : Simulation A RNG) :
  reachable gauss RNG_seeded NDEBUG PUBLIC_SKELETON sim -> invariant NDEBUG sim.
Proof.
  intros Hreach.
  induction Hreach as [world cfg entropy sim Hctor|c sim sim' _ IH Hcall].
  - apply ctor_invariant in Hctor. apply Hctor.
  - eapply call_invariant; eassumption.
Qed.

(** X14.  An object built by the constructor and used through calls that
    returned keeps one non-empty history per particle when histories are
    recorded (and none otherwise), and a stride the constructor accepts; in
    a build with the assertions checked its per-particle containers all
    have [n_particles] entries.  So [run] never takes the branch that sets
    the histories up again, and [set_position] never finds the histories
    missing. *)
Theorem reachable_invariant (sim : Simulation A RNG) :
  reachable gauss RNG_seeded NDEBUG PUBLIC_SKELETON sim ->
  invariant NDEBUG sim
  /\ run_start sim = sim
  /\ (record_history (cfg_ sim) = true -> hist_ sim = [] -> pos_ sim = []).
Proof.
  intros Hreach. pose proof (reachable_inv sim Hreach) as Hinv.
  split; [exact Hinv|]. destruct Hinv as (Hshape & _).
  split; [apply run_start_id; exact Hshape|].
  intros Hrec Hempty. unfold history_shape in Hshape.
  rewrite Hrec, Hempty in Hshape. destruct Hshape as [Hlen _].
  destruct (pos_ sim); [reflexivity|discriminate].
Qed.

End Reachable.

(* ================================================================= *)
(** ** The driver: construction, positions and the build *)

Section Interface.
Context {A : Type} `{ExtendedScalar A} {RNG : Type}.
Variable gauss : RNG -> A * RNG.
Variable RNG_seeded : Z -> RNG.
Variable PUBLIC_SKELETON : bool.

(** X15.  The constructor returns unless the stride is 0: then a build with
    the assertions checked stops at the assertion, and a build without them
    divides by zero when histories are recorded.  The object it returns
    holds [n_particles] particles at the origin, all Brownian with the
    parameters of the configuration and without callback, one history of
    the single frame (0,0) per particle when histories are recorded and no
    history otherwise; with [deterministic] set, the generator of particle
    [i] is seeded with [particle_seed base_seed i] and the entropy source is
    not used. *)
Theorem Simulation_ctor_post (NDEBUG : bool) (world : ReflectingWorld A)
  (cfg : SimulationConfig A) (entropy : nat -> RNG) :
  (forall sim,
      Simulation_ctor RNG_seeded NDEBUG world cfg entropy = Normal sim ->
      config sim = cfg
      /\ positions sim = repeat (mkVec2 s_zero s_zero) (n_particles cfg)
      /\ history sim = (if record_history cfg
                        then repeat [mkVec2 s_zero s_zero] (n_particles cfg)
                        else [])
      /\ step_type_ sim = repeat Brownian (n_particles cfg)
      /\ brownian_params_ sim = repeat (brownian cfg) (n_particles cfg)
      /\ specified_cb_ sim = None
      /\ (deterministic cfg = true ->
          rngs_ sim = map (fun i => RNG_seeded (particle_seed (base_seed cfg) i))
                        (seq 0 (n_particles cfg))))
  /\ ((exists sim, Simulation_ctor RNG_seeded NDEBUG world cfg entropy = Normal sim)
      <-> if NDEBUG
          then record_history cfg = true -> store_every cfg <> 0%nat
          else (1 <= store_every cfg)%nat)
  /\ (NDEBUG = false -> store_every cfg = 0%nat ->
      Simulation_ctor RNG_seeded NDEBUG world cfg entropy
      = Aborted "SimulationConfig::store_every must be >= 1")
  /\ (NDEBUG = true -> record_history cfg = true -> store_every cfg = 0%nat ->
      Simulation_ctor RNG_seeded NDEBUG world cfg entropy = Undefined).
Proof.
  rewrite Simulation_ctor_eq. split; [|split; [|split]].
  - intros sim Heq.
    destruct (negb NDEBUG && (store_every cfg =? 0)%nat); [discriminate|].
    destruct (record_history cfg && (store_every cfg =? 0)%nat); [discriminate|].
    injection Heq as <-. cbn. repeat (split; [reflexivity|]).
    intros ->. reflexivity.
  - split.
    + intros [sim Heq]. destruct NDEBUG; cbn [negb andb] in Heq.
      * intros Hrec Hz. rewrite Hrec, Hz in Heq. discriminate.
      * destruct (store_every cfg); [discriminate|lia].
    + intros Hok. destruct NDEBUG; cbn [negb andb].
      * destruct (record_history cfg); cbn [andb]; [|eauto].
        destruct (Nat.eqb_spec (store_every cfg) 0) as [Hz|_]; [|eauto].
        exfalso. apply Hok; auto.
      * destruct (store_every cfg); [lia|]. cbn [Nat.eqb].
        rewrite andb_false_r. eauto.
  - intros -> ->. reflexivity.
  - intros -> -> ->. reflexivity.
Qed.

(** X16.  [set_positions] checks the number of positions only when the
    assertions are compiled in.  Without them it returns for any vector and
    installs it, so that [positions()] can come to differ in length from
    [n_particles] and from the other per-particle containers. *)
Theorem set_positions_size_check (NDEBUG : bool) (sim : Simulation A RNG)
  (ps : list (Vec2 A)) :
  reachable gauss RNG_seeded NDEBUG PUBLIC_SKELETON sim ->
  (NDEBUG = false -> List.length ps <> n_particles (cfg_ sim) ->
   set_positions NDEBUG sim ps
   = Aborted "set_positions: size mismatch with n_particles")
  /\ (NDEBUG = true \/ List.length ps = n_particles (cfg_ sim) ->
      exists sim',
        set_positions NDEBUG sim ps = Normal sim'
        /\ positions sim' = ps
        /\ history sim' = (if record_history (cfg_ sim)
                           then map (fun p => [p]) ps else [])
        /\ cfg_ sim' = cfg_ sim
        /\ step_type_ sim' = step_type_ sim
        /\ brownian_params_ sim' = brownian_params_ sim
        /\ rngs_ sim' = rngs_ sim
        /\ spec_params_ sim' = spec_params_ sim).
Proof.
  intros Hreach. apply reachable_inv in Hreach.
  destruct Hreach as (Hshape & Hstride & Hsized).
  rewrite set_positions_eq. split.
  - intros -> Hne. destruct (Hsized eq_refl) as [Hn _]. cbn [negb andb].
    destruct (Nat.eqb_spec (List.length ps) (List.length (pos_ sim))); [lia|].
    reflexivity.
  - intros Hok.
    assert (Hcheck : negb NDEBUG
                     && negb (List.length ps =? List.length (pos_ sim))%nat = false).
    { destruct NDEBUG; [reflexivity|]. destruct Hok as [Hd|Hlen]; [discriminate|].
      destruct (Hsized eq_refl) as [Hn _]. rewrite Hlen, Hn, Nat.eqb_refl.
      reflexivity. }
    rewrite Hcheck.
    assert (Hdiv : record_history (cfg_ sim) && (store_every (cfg_ sim) =? 0)%nat
                   = false).
    { destruct (record_history (cfg_ sim)) eqn:Hrec; [|reflexivity].
      apply Nat.eqb_neq. unfold stride_ok in Hstride.
      destruct NDEBUG; [auto|lia]. }
    rewrite Hdiv. eexists. split; [reflexivity|].
    unfold history_shape in Hshape.
    destruct (record_history (cfg_ sim)); cbn; repeat split; auto.
Qed.

(** X17.  In a build without the assertions, more positions than particles
    make the next [run] of at least one step read past the end of the other
    per-particle containers. *)
Theorem oversized_positions_release (sim sim1 : Simulation A RNG)
  (ps : list (Vec2 A)) :
  aligned sim -> model_available sim -> n_steps (cfg_ sim) <> 0%nat ->
  (List.length (pos_ sim) < List.length ps)%nat ->
  set_positions true sim ps = Normal sim1 ->
  run gauss true PUBLIC_SKELETON sim1 = Undefined.
Proof.
  intros (Ht & Hb & Hr & _) Hm Hsteps Hlong Hset.
  rewrite set_positions_eq in Hset. cbn [negb andb] in Hset.
  destruct (record_history (cfg_ sim) && (store_every (cfg_ sim) =? 0)%nat);
    [discriminate|].
  injection Hset as Hsim1.
  assert (Hfields : cfg_ sim1 = cfg_ sim /\ pos_ sim1 = ps
                    /\ step_type_ sim1 = step_type_ sim
                    /\ brownian_params_ sim1 = brownian_params_ sim
                    /\ rngs_ sim1 = rngs_ sim
                    /\ specified_cb_ sim1 = specified_cb_ sim
                    /\ (record_history (cfg_ sim) = true ->
                        List.length (hist_ sim1) = List.length ps)).
  { subst sim1. destruct (record_history (cfg_ sim)); cbn; repeat split; auto.
    - intros _. apply length_map.
    - discriminate. }
  clear Hsim1. destruct Hfields as (Hcfg & Hpos & Hst & Hbp & Hrng & Hcb & Hhist).
  unfold run. rewrite Hpos, Hcfg.
  destruct (Nat.eqb_spec (List.length ps) 0) as [Hz|_]; [lia|].
  destruct (Nat.eqb_spec (n_steps (cfg_ sim)) 0) as [Hz|_]; [contradiction|].
  cbn [orb assert lift ebind].
  assert (Hblock : record_history (cfg_ sim)
                   && negb (List.length (hist_ sim1) =? List.length ps)%nat = false).
  { destruct (record_history (cfg_ sim)); [|reflexivity].
    rewrite Hhist by reflexivity. rewrite Nat.eqb_refl. reflexivity. }
  rewrite Hblock. cbn [ebind]. rewrite Hcfg.
  destruct (n_steps (cfg_ sim)) as [|m]; [contradiction|]. cbn [main_loop].
  set (L := List.length (pos_ sim)) in *.
  replace (List.length ps) with (L + S (List.length ps - S L))%nat by lia.
  rewrite seq_app, step_particles_app. cbn [Nat.add seq].
  destruct (step_particles_returns_in_range gauss PUBLIC_SKELETON (seq 0 L) sim1 0)
    as [s Hs].
  { unfold model_available. rewrite Hcb, Hst. exact Hm. }
  { intros i Hi. apply in_seq in Hi. rewrite Hpos, Hrng, Hst, Hbp. lia. }
  rewrite Hs. cbn [ebind step_particles].
  apply step_particles_normal in Hs; [|apply seq_NoDup].
  destruct Hs as ((_ & _ & _ & _ & _ & _ & _ & Hlr) & _).
  assert (Hnone : particle s L = None).
  { apply particle_none. right. rewrite Hlr, Hrng. lia. }
  rewrite step_particle_eq, Hnone. reflexivity.
Qed.

(** X18.  [set_position] keeps frame 0 equal to the initial position: when
    it returns, [positions()[i]] is [p], and with histories recorded frame 0
    of the history of particle [i] is [p] as well, its later frames and the
    other particles being left as they were. *)
Theorem set_position_frame_zero (NDEBUG : bool) (sim sim' : Simulation A RNG)
  (i : nat) (p : Vec2 A) :
  reachable gauss RNG_seeded NDEBUG PUBLIC_SKELETON sim ->
  set_position NDEBUG sim i p = Normal sim' ->
  nth_error (positions sim') i = Some p
  /\ (forall j, j <> i ->
                nth_error (positions sim') j = nth_error (positions sim) j)
  /\ (record_history (cfg_ sim) = true ->
      exists h,
        nth_error (history sim) i = Some h
        /\ nth_error (history sim') i = Some (p :: tl h)
        /\ forall j, j <> i ->
                     nth_error (history sim') j = nth_error (history sim) j)
  /\ (record_history (cfg_ sim) = false -> history sim' = []).
Proof.
  intros Hreach Hset. apply reachable_inv in Hreach.
  destruct Hreach as (Hshape & _).
  apply set_position_normal in Hset; [|exact Hshape].
  destruct Hset as (Hi & hist & -> & Hhist). unfold positions, history. cbn.
  split; [apply nth_error_set_nth_eq; exact Hi|].
  split; [intros j Hj; apply nth_error_set_nth_neq; congruence|].
  unfold history_shape in Hshape.
  destruct (record_history (cfg_ sim)).
  - split; [|discriminate]. intros _.
    destruct Hhist as (h & Hh & ->). exists h. split; [exact Hh|].
    split.
    + apply nth_error_set_nth_eq. apply nth_error_Some. congruence.
    + intros j Hj. apply nth_error_set_nth_neq. congruence.
  - split; [discriminate|]. intros _. congruence.
Qed.

(** X19.  After a run that recorded at least one frame, a build with the
    assertions checked refuses [set_position]. *)
Theorem set_position_after_run (sim sim' : Simulation A RNG) (i : nat)
  (p : Vec2 A) :
  reachable gauss RNG_seeded false PUBLIC_SKELETON sim ->
  record_history (cfg_ sim) = true ->
  (store_every (cfg_ sim) <= n_steps (cfg_ sim))%nat ->
  run gauss false PUBLIC_SKELETON sim = Normal sim' ->
  (i < n_particles (cfg_ sim))%nat ->
  set_position false sim' i p
  = Aborted "set_position: called after stepping; use set_positions() or reset()".
Proof.
  intros Hreach Hrec Hle Hrun Hi. apply reachable_inv in Hreach.
  destruct Hreach as (Hshape & Hstride & Hsized).
  destruct (Hsized eq_refl) as (Hn & Ht & Hb & Hr & Hs).
  unfold history_shape in Hshape. rewrite Hrec in Hshape.
  destruct Hshape as [Hlen Hne]. unfold stride_ok in Hstride.
  pose proof (run_same_setup _ _ _ _ _ Hrun) as (_ & Hcfg & _ & _ & _ & _ & Hlp & _).
  destruct (hist_ sim) as [|h0 hs] eqn:Ehist; [simpl in Hlen; lia|].
  destruct (particle_defined sim 0) as [xr Hp]; [lia|lia|].
  destruct (run_frames gauss PUBLIC_SKELETON false sim sim' 0 h0 xr)
    as (h' & Hh' & Hl' & _); try assumption.
  { rewrite Ehist. exact Hlen. }
  { rewrite Ehist. reflexivity. }
  assert (Hq : (1 <= n_steps (cfg_ sim) / store_every (cfg_ sim))%nat).
  { apply Nat.div_le_lower_bound; lia. }
  assert (Hh0 : h0 <> []) by (inversion Hne; assumption).
  destruct (hist_ sim') as [|h0' hs'] eqn:Ehist'; [discriminate|].
  cbn in Hh'. injection Hh' as ->.
  unfold set_position. rewrite lift_assert_debug.
  assert (Hi' : (i <? List.length (pos_ sim'))%nat = true)
    by (apply Nat.ltb_lt; lia).
  rewrite Hi'. cbn [ebind]. rewrite store_in_range by (apply Nat.ltb_lt; exact Hi').
  cbn [ebind cfg_ with_pos hist_ pos_]. rewrite Hcfg, Hrec, Ehist'.
  cbn [assert_not_stepped assert].
  assert (Hlong : (List.length (h0 ++ h') <=? 1)%nat = false).
  { apply Nat.leb_gt. rewrite length_app.
    destruct h0; [contradiction|]. simpl. lia. }
  rewrite Hlong. reflexivity.
Qed.

Lemma ctor_release_refines_debug (world : ReflectingWorld A)
  (cfg : SimulationConfig A) (entropy : nat -> RNG) (sim : Simulation A RNG) :
  Simulation_ctor RNG_seeded false world cfg entropy = Normal sim ->
  Simulation_ctor RNG_seeded true world cfg entropy = Normal sim.
Proof.
  rewrite !Simulation_ctor_eq. cbn [negb andb].
  destruct (store_every cfg =? 0)%nat; [discriminate|].
  rewrite andb_false_r. auto.
Qed.

Lemma assert_refines {T : Type} (cond : bool) (msg : string) (e : Effect T) (t : T) :
  (lift (assert false cond msg) ;> e) = Normal t ->
  (lift (assert true cond msg) ;> e) = Normal t.
Proof. destruct cond; [auto|discriminate]. Qed.

Lemma call_release_refines_debug (c : Call A RNG) (sim sim' : Simulation A RNG) :
  call gauss false PUBLIC_SKELETON c sim = Normal sim' ->
  call gauss true PUBLIC_SKELETON c sim = Normal sim'.
Proof.
  destruct c as [type|i type|i p|i p|p|cb|positions|i p|]; cbn [call]; auto.
  - apply assert_refines.
  - apply assert_refines.
  - apply assert_refines.
  - rewrite !set_positions_eq. cbn [negb andb].
    destruct (negb (List.length positions =? List.length (pos_ sim))%nat);
      [discriminate|auto].
  - unfold set_position. intros Hset. apply assert_refines in Hset.
    cbn [assert lift ebind] in *.
    destruct (store (pos_ sim) i p) as [pos| | |]; cbn [ebind] in *;
      try discriminate.
    destruct (record_history (cfg_ (with_pos sim pos))); [|exact Hset].
    destruct (hist_ (with_pos sim pos)) as [|h0 hs]; [exact Hset|].
    rewrite assert_not_stepped_release.
    rewrite assert_not_stepped_debug in Hset.
    destruct (forallb _ (h0 :: hs)); [|discriminate].
    cbn [lift ebind] in *.
    destruct (List.length (h0 :: hs) =? List.length (pos_ (with_pos sim pos)))%nat;
      [exact Hset|discriminate].
  - unfold run.
    destruct ((List.length (pos_ sim) =? 0)%nat || (n_steps (cfg_ sim) =? 0)%nat);
      [auto|].
    intros Hrun. do 4 (apply assert_refines in Hrun; cbn [assert lift ebind] in Hrun).
    exact Hrun.
Qed.

Lemma reachable_release (sim : Simulation A RNG) :
  reachable gauss RNG_seeded false PUBLIC_SKELETON sim ->
  reachable gauss RNG_seeded true PUBLIC_SKELETON sim.
Proof.
  intros Hreach.
  induction Hreach as [world cfg entropy sim Hctor|c sim sim' _ IH Hcall].
  - eapply reachable_ctor. apply ctor_release_refines_debug. exact Hctor.
  - eapply reachable_call; [exact IH|].
    apply call_release_refines_debug. exact Hcall.
Qed.

(** X20.  The assertions only stop a program: whenever the constructor or a
    member function returns in a build that checks them, it returns the same
    object in a build that does not.  So every object a program can hold in
    the first build is one it can hold in the second. *)
Theorem release_refines_debug :
  (forall world cfg entropy (sim : Simulation A RNG),
      Simulation_ctor RNG_seeded false world cfg entropy = Normal sim ->
      Simulation_ctor RNG_seeded true world cfg entropy = Normal sim)
  /\ (forall (c : Call A RNG) (sim sim' : Simulation A RNG),
         call gauss false PUBLIC_SKELETON c sim = Normal sim' ->
         call gauss true PUBLIC_SKELETON c sim = Normal sim')
  /\ (forall sim : Simulation A RNG,
         reachable gauss RNG_seeded false PUBLIC_SKELETON sim ->
         reachable gauss RNG_seeded true PUBLIC_SKELETON sim).
Proof.
  split; [exact ctor_release_refines_debug|].
  split; [exact call_release_refines_debug|exact reachable_release].
Qed.

End Interface.

(* ================================================================= *)
(** ** Seeds and the Brownian step *)

Module StepLaws.
Import Binary64Laws.

(** X21.  The seed of particle [i] is [base_seed + i] reduced modulo 2^32:
    it is [base_seed + i] itself as long as that sum stays below 2^32, and
    two particles get the same seed exactly when their indices agree modulo
    2^32, so the seeds of up to 2^32 particles are pairwise different. *)
Theorem particle_seed_wraps (base : Z) (i j : nat) :
  (0 <= particle_seed base i < 2 ^ 32)%Z
  /\ ((0 <= base)%Z -> (base + Z.of_nat i < 2 ^ 32)%Z ->
      particle_seed base i = (base + Z.of_nat i)%Z)
  /\ (particle_seed base i = particle_seed base j
      <-> (Z.of_nat i mod 2 ^ 32 = Z.of_nat j mod 2 ^ 32)%Z)
  /\ ((i < j)%nat -> (Z.of_nat j < 2 ^ 32)%Z ->
      particle_seed base i <> particle_seed base j).
Proof.
  unfold particle_seed.
  assert (HM : (0 < 2 ^ 32)%Z) by reflexivity.
  assert (Hiff : ((base + Z.of_nat i mod 2 ^ 32) mod 2 ^ 32
                  = (base + Z.of_nat j mod 2 ^ 32) mod 2 ^ 32
                  <-> Z.of_nat i mod 2 ^ 32 = Z.of_nat j mod 2 ^ 32)%Z).
  { pose proof (Z.mod_pos_bound (Z.of_nat i) (2 ^ 32) HM) as Ba.
    pose proof (Z.mod_pos_bound (Z.of_nat j) (2 ^ 32) HM) as Bb.
    set (a := (Z.of_nat i mod 2 ^ 32)%Z) in *.
    set (b := (Z.of_nat j mod 2 ^ 32)%Z) in *.
    split; [|intros ->; reflexivity].
    intros Heq.
    assert (Hd : ((a - b) mod 2 ^ 32 = 0)%Z).
    { replace (a - b)%Z with ((base + a) - (base + b))%Z by ring.
      rewrite Zminus_mod, Heq, Z.sub_diag. reflexivity. }
    apply Z.mod_divide in Hd; [|lia]. destruct Hd as [q Hq].
    change (2 ^ 32)%Z with 4294967296%Z in *. lia. }
  split; [apply Z.mod_pos_bound; exact HM|].
  split; [|split; [exact Hiff|]].
  - intros Hb Hlt. rewrite (Z.mod_small (Z.of_nat i)) by lia.
    apply Z.mod_small. lia.
  - intros Hij Hj Heq. apply Hiff in Heq.
    rewrite !Z.mod_small in Heq by lia. lia.
Qed.

Lemma mul_zero_l (z x : float) :
  SFzero (Prim2SF z) -> SFfin (Prim2SF x) -> SFzero (Prim2SF (z * x)%float).
Proof.
  intros [s Hz] Hx. rewrite mul_spec, Hz. unfold SF64mul.
  destruct (Prim2SF x) as [sx|sx| |sx mx ex]; simpl in *; try contradiction;
    eexists; reflexivity.
Qed.

Lemma sqrt_zero (z : float) :
  SFzero (Prim2SF z) -> SFzero (Prim2SF (PrimFloat.sqrt z)).
Proof.
  intros [s Hz]. rewrite sqrt_spec, Hz. exists s. reflexivity.
Qed.

Lemma add_zero_eqb (x z : float) :
  Prim2SF x <> S754_nan -> SFzero (Prim2SF z) -> (x + z =? x)%float = true.
Proof.
  intros Hx [s Hz]. rewrite FloatAxioms.eqb_spec, add_spec, Hz. unfold SF64add.
  destruct (Prim2SF x) as [sx|sx| |sx mx ex] eqn:E; simpl in *.
  - destruct sx, s; reflexivity.
  - destruct sx; reflexivity.
  - contradiction.
  - apply (SFeqb_refl_fin (S754_finite sx mx ex)). exact I.
Qed.

(** X22.  With [D = 0] a Brownian step is pure drift, whatever the generator
    draws: exactly [(mu_x dt, mu_y dt)] over the reals, and in binary64 a
    displacement equal to it under [==] when [dt] and the two samples are
    finite and the drift is not a NaN.  The generator is advanced by the two
    draws all the same. *)
Theorem brownian_step_pure_drift :
  (forall (RNG : Type) (gauss : RNG -> R * RNG) (p : BrownianParams R) (rng : RNG),
      D p = 0%R ->
      fst (brownian_step gauss p rng)
      = mkVec2 (mu_x p * dt p)%R (mu_y p * dt p)%R)
  /\ (forall (RNG : Type) (gauss : RNG -> float * RNG) (p : BrownianParams float)
        (rng : RNG),
         SFzero (Prim2SF (D p)) ->
         SFfin (Prim2SF (dt p)) ->
         SFfin (Prim2SF (fst (gauss rng))) ->
         SFfin (Prim2SF (fst (gauss (snd (gauss rng))))) ->
         Prim2SF (mu_x p * dt p)%float <> S754_nan ->
         Prim2SF (mu_y p * dt p)%float <> S754_nan ->
         (vx (fst (brownian_step gauss p rng)) =? mu_x p * dt p)%float = true
         /\ (vy (fst (brownian_step gauss p rng)) =? mu_y p * dt p)%float = true)
  /\ (forall (A : Type) (SA : Scalar A) (RNG : Type) (gauss : RNG -> A * RNG)
        (p : BrownianParams A) (rng : RNG),
         snd (brownian_step gauss p rng) = snd (gauss (snd (gauss rng)))).
Proof.
  split; [|split].
  - intros RNG gauss p rng HD. unfold brownian_step.
    destruct (gauss rng) as [g1 r1]. destruct (gauss r1) as [g2 r2].
    cbn [fst]. simpl. rewrite HD.
    replace (2 * 0 * dt p)%R with 0%R by ring. rewrite sqrt_0.
    f_equal; ring.
  - intros RNG gauss p rng HD Hdt Hg1 Hg2 Hx Hy. unfold brownian_step.
    destruct (gauss rng) as [g1 r1]. cbn [fst snd] in Hg1, Hg2.
    destruct (gauss r1) as [g2 r2]. cbn [fst snd] in Hg2. cbn [fst vx vy].
    assert (Hsigma : SFzero (Prim2SF (PrimFloat.sqrt (2 * D p * dt p))%float)).
    { apply sqrt_zero, mul_zero_l; [|exact Hdt].
      apply mul_zero; [exact I|exact HD]. }
    split; apply add_zero_eqb; try assumption; apply mul_zero_l; assumption.
  - intros A SA RNG gauss p rng. unfold brownian_step.
    destruct (gauss rng) as [g1 r1]. cbn [snd].
    destruct (gauss r1) as [g2 r2]. reflexivity.
Qed.

End StepLaws.

(* ================================================================= *)
(** ** The small simulation, and the repository's driver tests *)

Module WalkersRuns.
Import Walkers.
Local Open Scope float_scope.

Lemma built_by_ctor :
  Simulation_ctor seeded false Scenes.unit_box cfg entropy = Normal built.
Proof. vm_compute. reflexivity. Qed.

Lemma ready_reachable : reachable gauss seeded false true ready.
Proof.
  apply (reachable_call gauss seeded false true
           (call_set_specified_callback (Some step_right)) placed);
    [|reflexivity].
  apply (reachable_call gauss seeded false true
           (call_set_step_type 1 Specified)
           (returned nowhere (set_positions false built start)));
    [|vm_compute; reflexivity].
  apply (reachable_call gauss seeded false true (call_set_positions start) built);
    [|vm_compute; reflexivity].
  exact (reachable_ctor gauss seeded false true _ _ _ _ built_by_ctor).
Qed.

Lemma ready_runs : run gauss false true ready = Normal finished.
Proof. vm_compute. reflexivity. Qed.

Lemma other_runs : run gauss true true other = Normal other_finished.
Proof. vm_compute. reflexivity. Qed.

Lemma run_moves_each_particle_alone_witness :
  run gauss false true ready = Normal finished
  /\ particle ready 0 = Some (mkVec2 0.5 0.25, 7%nat)
  /\ exists xr',
      own_steps gauss true ready 0 5 0 (mkVec2 0.5 0.25, 7%nat) = Normal xr'
      /\ particle finished 0 = Some xr'.
Proof.
  split; [exact ready_runs|]. split; [reflexivity|].
  exact (run_moves_each_particle_alone gauss true false ready finished 0
           (mkVec2 0.5 0.25, 7%nat) ready_runs eq_refl).
Defined.

Lemma run_particles_independent_witness :
  run gauss false true ready = Normal finished
  /\ run gauss true true other = Normal other_finished
  /\ particle ready 0 = particle other 0
  /\ particle ready 1 <> particle other 1
  /\ particle finished 0 = particle other_finished 0.
Proof.
  split; [exact ready_runs|]. split; [exact other_runs|].
  split; [reflexivity|]. split; [discriminate|].
  exact (run_particles_independent gauss true false true ready other finished
           other_finished 0 ready_runs other_runs eq_refl eq_refl eq_refl
           eq_refl eq_refl eq_refl eq_refl).
Defined.

Lemma run_history_frames_witness :
  run gauss false true ready = Normal finished
  /\ exists h',
      nth_error (hist_ finished) 1 = Some ([mkVec2 0.25 0.75] ++ h')%list
      /\ List.length h' = (5 / 2)%nat
      /\ forall j,
          (1 <= j <= 5 / 2)%nat ->
          exists xrj,
            own_steps gauss true ready 1 (j * 2) 0 (mkVec2 0.25 0.75, 8%nat)
            = Normal xrj
            /\ nth_error h' (j - 1) = Some (fst xrj).
Proof.
  split; [exact ready_runs|].
  exact (run_history_frames gauss true false ready finished 1 [mkVec2 0.25 0.75]
           (mkVec2 0.25 0.75, 8%nat) ready_runs eq_refl eq_refl eq_refl eq_refl).
Defined.

Lemma placed_well_formed :
  aligned placed /\ history_shape placed /\ stride_ok false placed.
Proof.
  split; [repeat split|]. split; [|unfold stride_ok; simpl; lia].
  split; [reflexivity|]. repeat constructor; discriminate.
Qed.

(** Without the callback the run of [placed] ends in the redacted model. *)
Lemma run_returns_unless_redacted_witness :
  aligned placed /\ history_shape placed /\ stride_ok false placed
  /\ run gauss false true placed
     = Thrown "sim::specified_step is redacted in the public skeleton build".
Proof.
  destruct placed_well_formed as (Ha & Hs & Hst).
  split; [exact Ha|]. split; [exact Hs|]. split; [exact Hst|].
  refine (proj2 (run_returns_unless_redacted gauss true false placed Ha Hs Hst)
            _ _ eq_refl (ex_intro _ 1%nat eq_refl)); discriminate.
Defined.

Lemma reachable_invariant_witness :
  reachable gauss seeded false true ready
  /\ invariant false ready
  /\ run_start ready = ready
  /\ (record_history (cfg_ ready) = true -> hist_ ready = [] -> pos_ ready = []).
Proof.
  split; [exact ready_reachable|].
  exact (reachable_invariant gauss seeded false true ready ready_reachable).
Defined.

Lemma set_positions_size_check_witness :
  reachable gauss seeded false true ready
  /\ set_positions false ready [mkVec2 0.5 0.5]
     = Aborted "set_positions: size mismatch with n_particles".
Proof.
  split; [exact ready_reachable|].
  refine (proj1 (set_positions_size_check gauss seeded true false ready
                   [mkVec2 0.5 0.5] ready_reachable) eq_refl _).
  simpl. lia.
Defined.

Lemma oversized_positions_release_witness :
  set_positions true built (start ++ [mkVec2 0.75 0.25]) = Normal crowded
  /\ List.length (positions crowded) = 3%nat
  /\ n_particles (config crowded) = 2%nat
  /\ run gauss true true crowded = Undefined.
Proof.
  assert (Hset : set_positions true built (start ++ [mkVec2 0.75 0.25])
                 = Normal crowded) by (vm_compute; reflexivity).
  split; [exact Hset|]. split; [reflexivity|]. split; [reflexivity|].
  refine (oversized_positions_release gauss true built crowded
            (start ++ [mkVec2 0.75 0.25]) _ _ _ _ Hset).
  - repeat split.
  - right. repeat constructor.
  - discriminate.
  - simpl. lia.
Defined.

Lemma set_position_frame_zero_witness :
  reachable gauss seeded true true finished
  /\ nth_error
       (positions (returned nowhere (set_position true finished 0 (mkVec2 0.75 0.5))))
       0 = Some (mkVec2 0.75 0.5)
  /\ nth_error
       (history (returned nowhere (set_position true finished 0 (mkVec2 0.75 0.5))))
       0 = Some [mkVec2 0.75 0.5; mkVec2 0.375 0.5; mkVec2 0.25 0.75].
Proof.
  assert (Hreach : reachable gauss seeded true true finished).
  { apply (reachable_release gauss seeded true).
    apply (reachable_call gauss seeded false true call_run ready);
      [exact ready_reachable|exact ready_runs]. }
  split; [exact Hreach|].
  assert (Hset : set_position true finished 0 (mkVec2 0.75 0.5)
                 = Normal (returned nowhere
                             (set_position true finished 0 (mkVec2 0.75 0.5))))
    by (vm_compute; reflexivity).
  destruct (set_position_frame_zero gauss seeded true true finished _ 0
              (mkVec2 0.75 0.5) Hreach Hset) as (Hp & _ & Hh & _).
  split; [exact Hp|].
  destruct (Hh eq_refl) as (h & Hh0 & Hh1 & _).
  rewrite Hh1. injection Hh0 as <-. reflexivity.
Defined.

Lemma set_position_after_run_witness :
  reachable gauss seeded false true ready
  /\ run gauss false true ready = Normal finished
  /\ set_position false finished 0 (mkVec2 0.75 0.5)
     = Aborted "set_position: called after stepping; use set_positions() or reset()".
Proof.
  split; [exact ready_reachable|]. split; [exact ready_runs|].
  refine (set_position_after_run gauss seeded true ready finished 0
            (mkVec2 0.75 0.5) ready_reachable eq_refl _ ready_runs _);
    simpl; lia.
Defined.

(** The cases of test_simulation.cpp on the callback and the histories, and
    the pure-drift case of test_step_generators.cpp, in the model. *)
Lemma repository_driver_tests :
  let kStepRight : SpecifiedCallback float nat :=
    fun _ _ _ rng => (mkVec2 1 0, rng) in
  let config n steps record stride :=
    mkSimulationConfig n steps record stride 5489 true
      (BrownianParams_default (A := float)) in
  let make cfg := Simulation_ctor seeded false empty_world cfg entropy in
  (* ZeroParticlesNoCrash *)
  (let* sim := make (config 0 10 true 1)%nat in
   let* sim := run gauss false true sim in
   Normal (positions sim, history sim)) = Normal ([], [])
  (* HistoryDisabledIsEmpty *)
  /\ (let* sim := make (config 2 5 false 1)%nat in
      let* sim := run gauss false true sim in
      Normal (history sim)) = Normal []
  (* HistoryStartsWithFrameZeroWhenEnabled *)
  /\ (let* sim := make (config 2 0 true 1)%nat in
      Normal (history sim)) = Normal [[mkVec2 0 0]; [mkVec2 0 0]]
  (* SetPositionsResetsHistoryFrameZero *)
  /\ (let* sim := make (config 3 0 true 1)%nat in
      let* sim := set_positions false sim [mkVec2 1 2; mkVec2 3 4; mkVec2 5 6] in
      Normal (history sim))
     = Normal [[mkVec2 1 2]; [mkVec2 3 4]; [mkVec2 5 6]]
  (* SetPositionOverwritesFrameZeroBeforeRun *)
  /\ (let* sim := make (config 1 0 true 1)%nat in
      let* sim := set_position false sim 0 (mkVec2 7 9) in
      Normal (history sim)) = Normal [[mkVec2 7 9]]
  (* SpecifiedCallbackMovesRight_NoBoundaries *)
  /\ (let* sim := make (config 1 5 false 1)%nat in
      let sim := set_step_type_all sim Specified in
      let sim := set_specified_callback sim (Some kStepRight) in
      let* sim := run gauss false true sim in
      Normal (positions sim)) = Normal [mkVec2 5 0]
  (* HistoryStride_RecordsEveryK *)
  /\ (let* sim := make (config 1 10 true 3)%nat in
      let sim := set_step_type_all sim Specified in
      let sim := set_specified_callback sim (Some kStepRight) in
      let* sim := run gauss false true sim in
      Normal (history sim))
     = Normal [[mkVec2 0 0; mkVec2 3 0; mkVec2 6 0; mkVec2 9 0]]
  (* BrownianStep.PureDriftWhenDZero *)
  /\ fst (brownian_step gauss (mkBrownianParams 0.5 0 1.2 (-0.8)) (seeded 12345))
     = mkVec2 (1.2 * 0.5) (-0.8 * 0.5)
  (* SpecifiedStep.RedactedThrowsInPublicBuild *)
  /\ specified_step true SpecifiedStepParams_default 0 (mkVec2 1 1) (seeded 123)
     = Thrown "sim::specified_step is redacted in the public skeleton build".
Proof. vm_compute. repeat split. Qed.

End WalkersRuns.
